(** * Page-behaviour script of the site (scripts/scripts.js)

    A shallow embedding of the controllers wired by [onReady]: the three
    panel controllers (mobile navigation, sidebar overlay, sections
    overlay), the scroll reveal block, the form validation feedback, the
    sidebar scroll-spy and the back-to-top button, together with the
    properties the specification states about them.

    The document is modelled by explicit state records: every handler of
    the script is a function from the state before the event to the state
    after it.  JavaScript strings the script inspects character by
    character are lists of UTF-16 code units; class names, tag names and
    element ids, which are only compared, are plain strings. *)

From Stdlib Require Import List String Ascii Bool Arith NArith ZArith QArith Lia Lqa.
Import ListNotations.

Close Scope Q_scope.

(** ** JavaScript strings *)

(** A UTF-16 code unit, by its numeric value. *)
Definition char16 := N.

Definition jsstring := list char16.

(** The code units of an ASCII literal of the script. *)
Definition str (s : string) : jsstring :=
  map N_of_ascii (list_ascii_of_string s).

(** Truthiness of a string: only the empty string is falsy. *)
Definition truthy (s : jsstring) : bool :=
  match s with [] => false | _ :: _ => true end.

(** ** DOMTokenList: [classList] *)

Module ClassList.

Definition t := list string.

Definition contains (c : string) (l : t) : bool := existsb (String.eqb c) l.

Definition add (c : string) (l : t) : t :=
  if contains c l then l else l ++ [c].

Definition remove (c : string) (l : t) : t :=
  filter (fun x => negb (String.eqb c x)) l.

(** [classList.toggle(c, force)] with the force argument given. *)
Definition toggle (c : string) (force : bool) (l : t) : t :=
  if force then add c l else remove c l.

Arguments contains : simpl never.
Arguments add : simpl never.
Arguments remove : simpl never.
Arguments toggle : simpl never.

End ClassList.

(** ** Panel controllers: mobile navigation, sidebar overlay, sections overlay *)

Module Panels.

(** The elements a handler may move the focus to. *)
Inductive focusable :=
| NavFirstLink | NavToggle
| SidebarFirstLink | SidebarToggleBtn
| SheetFirstLink | Pill.

(** The part of the page the three controllers read and write.  The
    [*_has_link] flags say whether [querySelector('a')] finds a link in
    the panel; the script never changes them. *)
Record page := {
  siteNav_classList : ClassList.t;
  navToggle_aria_expanded : string;
  siteNav_has_link : bool;
  sidebar_classList : ClassList.t;
  backdrop_classList : ClassList.t;
  toggleBtn_aria_expanded : string;
  sidebar_has_link : bool;
  overlay_classList : ClassList.t;
  pill_aria_expanded : string;
  sheet_has_link : bool;
  body_style_overflow : string;
  activeElement : option focusable
}.

Definition focus (target : focusable) (p : page) : page :=
  {| siteNav_classList := siteNav_classList p;
     navToggle_aria_expanded := navToggle_aria_expanded p;
     siteNav_has_link := siteNav_has_link p;
     sidebar_classList := sidebar_classList p;
     backdrop_classList := backdrop_classList p;
     toggleBtn_aria_expanded := toggleBtn_aria_expanded p;
     sidebar_has_link := sidebar_has_link p;
     overlay_classList := overlay_classList p;
     pill_aria_expanded := pill_aria_expanded p;
     sheet_has_link := sheet_has_link p;
     body_style_overflow := body_style_overflow p;
     activeElement := Some target |}.

(** [el.querySelector('a')?.focus()] *)
Definition focus_if (present : bool) (target : focusable) (p : page) : page :=
  if present then focus target p else p.

(** [String(open)] *)
Definition String_of_bool (b : bool) : string :=
  if b then "true"%string else "false"%string.

(** *** Mobile navigation *)

Definition setOpen (open : bool) (p : page) : page :=
  let p1 :=
    {| siteNav_classList := ClassList.toggle "open" open (siteNav_classList p);
       navToggle_aria_expanded := String_of_bool open;
       siteNav_has_link := siteNav_has_link p;
       sidebar_classList := sidebar_classList p;
       backdrop_classList := backdrop_classList p;
       toggleBtn_aria_expanded := toggleBtn_aria_expanded p;
       sidebar_has_link := sidebar_has_link p;
       overlay_classList := overlay_classList p;
       pill_aria_expanded := pill_aria_expanded p;
       sheet_has_link := sheet_has_link p;
       body_style_overflow := if open then "hidden"%string else ""%string;
       activeElement := activeElement p |} in
  if open then focus_if (siteNav_has_link p1) NavFirstLink p1 else p1.

Definition siteNav_is_open (p : page) : bool :=
  ClassList.contains "open" (siteNav_classList p).

(** The events the navigation controller listens to.  A click is
    described by where its target lies; a click on the toggle does not
    reach the document handler ([stopPropagation]), and a click inside the
    navigation is ignored by the document handler ([siteNav.contains]). *)
Inductive nav_event :=
| NavToggleClick
| SiteNavClick (target_is_link : bool)
| NavOutsideClick
| NavKeydown (key : string)
| NavResize (min_width_901 : bool).

Definition nav_handle (e : nav_event) (p : page) : page :=
  match e with
  | NavToggleClick => setOpen (negb (siteNav_is_open p)) p
  | SiteNavClick is_link => if is_link then setOpen false p else p
  | NavOutsideClick => if siteNav_is_open p then setOpen false p else p
  | NavKeydown key =>
      if String.eqb key "Escape" && siteNav_is_open p
      then focus NavToggle (setOpen false p) else p
  | NavResize wide =>
      if wide && siteNav_is_open p then setOpen false p else p
  end.

(** *** Sidebar overlay *)

Definition openSidebar (p : page) : page :=
  let p1 :=
    {| siteNav_classList := siteNav_classList p;
       navToggle_aria_expanded := navToggle_aria_expanded p;
       siteNav_has_link := siteNav_has_link p;
       sidebar_classList := ClassList.add "open" (sidebar_classList p);
       backdrop_classList := ClassList.add "open" (backdrop_classList p);
       toggleBtn_aria_expanded := "true";
       sidebar_has_link := sidebar_has_link p;
       overlay_classList := overlay_classList p;
       pill_aria_expanded := pill_aria_expanded p;
       sheet_has_link := sheet_has_link p;
       body_style_overflow := "hidden";
       activeElement := activeElement p |} in
  focus_if (sidebar_has_link p1) SidebarFirstLink p1.

Definition closeSidebar (p : page) : page :=
  let p1 :=
    {| siteNav_classList := siteNav_classList p;
       navToggle_aria_expanded := navToggle_aria_expanded p;
       siteNav_has_link := siteNav_has_link p;
       sidebar_classList := ClassList.remove "open" (sidebar_classList p);
       backdrop_classList := ClassList.remove "open" (backdrop_classList p);
       toggleBtn_aria_expanded := "false";
       sidebar_has_link := sidebar_has_link p;
       overlay_classList := overlay_classList p;
       pill_aria_expanded := pill_aria_expanded p;
       sheet_has_link := sheet_has_link p;
       body_style_overflow := "";
       activeElement := activeElement p |} in
  focus SidebarToggleBtn p1.

Definition sidebar_is_open (p : page) : bool :=
  ClassList.contains "open" (sidebar_classList p).

Inductive sidebar_event :=
| ToggleBtnClick
| CloseSidebarBtnClick
| BackdropClick
| SidebarKeydown (key : string)
| SidebarLinkClick.

Definition sidebar_handle (e : sidebar_event) (p : page) : page :=
  match e with
  | ToggleBtnClick => openSidebar p
  | CloseSidebarBtnClick => closeSidebar p
  | BackdropClick => closeSidebar p
  | SidebarKeydown key =>
      if String.eqb key "Escape" && sidebar_is_open p
      then closeSidebar p else p
  | SidebarLinkClick => closeSidebar p
  end.

(** *** Sections pill and overlay *)

Definition openOverlay (p : page) : page :=
  let p1 :=
    {| siteNav_classList := siteNav_classList p;
       navToggle_aria_expanded := navToggle_aria_expanded p;
       siteNav_has_link := siteNav_has_link p;
       sidebar_classList := sidebar_classList p;
       backdrop_classList := backdrop_classList p;
       toggleBtn_aria_expanded := toggleBtn_aria_expanded p;
       sidebar_has_link := sidebar_has_link p;
       overlay_classList := ClassList.add "open" (overlay_classList p);
       pill_aria_expanded := "true";
       sheet_has_link := sheet_has_link p;
       body_style_overflow := body_style_overflow p;
       activeElement := activeElement p |} in
  let p2 := focus_if (sheet_has_link p1) SheetFirstLink p1 in
  {| siteNav_classList := siteNav_classList p2;
     navToggle_aria_expanded := navToggle_aria_expanded p2;
     siteNav_has_link := siteNav_has_link p2;
     sidebar_classList := sidebar_classList p2;
     backdrop_classList := backdrop_classList p2;
     toggleBtn_aria_expanded := toggleBtn_aria_expanded p2;
     sidebar_has_link := sidebar_has_link p2;
     overlay_classList := overlay_classList p2;
     pill_aria_expanded := pill_aria_expanded p2;
     sheet_has_link := sheet_has_link p2;
     body_style_overflow := "hidden";
     activeElement := activeElement p2 |}.

Definition closeOverlay (p : page) : page :=
  let p1 :=
    {| siteNav_classList := siteNav_classList p;
       navToggle_aria_expanded := navToggle_aria_expanded p;
       siteNav_has_link := siteNav_has_link p;
       sidebar_classList := sidebar_classList p;
       backdrop_classList := backdrop_classList p;
       toggleBtn_aria_expanded := toggleBtn_aria_expanded p;
       sidebar_has_link := sidebar_has_link p;
       overlay_classList := ClassList.remove "open" (overlay_classList p);
       pill_aria_expanded := "false";
       sheet_has_link := sheet_has_link p;
       body_style_overflow := body_style_overflow p;
       activeElement := activeElement p |} in
  let p2 := focus Pill p1 in
  {| siteNav_classList := siteNav_classList p2;
     navToggle_aria_expanded := navToggle_aria_expanded p2;
     siteNav_has_link := siteNav_has_link p2;
     sidebar_classList := sidebar_classList p2;
     backdrop_classList := backdrop_classList p2;
     toggleBtn_aria_expanded := toggleBtn_aria_expanded p2;
     sidebar_has_link := sidebar_has_link p2;
     overlay_classList := overlay_classList p2;
     pill_aria_expanded := pill_aria_expanded p2;
     sheet_has_link := sheet_has_link p2;
     body_style_overflow := "";
     activeElement := activeElement p2 |}.

Definition overlay_is_open (p : page) : bool :=
  ClassList.contains "open" (overlay_classList p).

Inductive overlay_event :=
| PillClick
| OverlayCloseBtnClick
| OverlayClick (target_is_overlay : bool)
| OverlayKeydown (key : string)
| SheetClick (target_is_link : bool).

Definition overlay_handle (e : overlay_event) (p : page) : page :=
  match e with
  | PillClick => if overlay_is_open p then closeOverlay p else openOverlay p
  | OverlayCloseBtnClick => closeOverlay p
  | OverlayClick on_overlay => if on_overlay then closeOverlay p else p
  | OverlayKeydown key =>
      if String.eqb key "Escape" && overlay_is_open p
      then closeOverlay p else p
  | SheetClick is_link => if is_link then closeOverlay p else p
  end.

(** *** The three controllers seen uniformly *)

Inductive panel := Nav | Sidebar | Sections.

Inductive transition := Open | Close.

Definition apply_transition (c : panel) (t : transition) (p : page) : page :=
  match c, t with
  | Nav, Open => setOpen true p
  | Nav, Close => setOpen false p
  | Sidebar, Open => openSidebar p
  | Sidebar, Close => closeSidebar p
  | Sections, Open => openOverlay p
  | Sections, Close => closeOverlay p
  end.

Definition run_transitions (c : panel) (ts : list transition) (p : page) : page :=
  fold_left (fun q t => apply_transition c t q) ts p.

(** An event of one controller. *)
Definition event (c : panel) : Type :=
  match c with
  | Nav => nav_event
  | Sidebar => sidebar_event
  | Sections => overlay_event
  end.

Definition handle (c : panel) : event c -> page -> page :=
  match c with
  | Nav => nav_handle
  | Sidebar => sidebar_handle
  | Sections => overlay_handle
  end.

Definition run_events (c : panel) (es : list (event c)) (p : page) : page :=
  fold_left (fun q e => handle c e q) es p.

(** The open marker each controller itself tests with
    [classList.contains('open')]. *)
Definition open_marker (c : panel) (p : page) : bool :=
  match c with
  | Nav => siteNav_is_open p
  | Sidebar => sidebar_is_open p
  | Sections => overlay_is_open p
  end.

(** The body scroll lock: [document.body.style.overflow === 'hidden']. *)
Definition scroll_locked (p : page) : bool :=
  String.eqb (body_style_overflow p) "hidden".

Definition in_sync (c : panel) (p : page) : Prop :=
  open_marker c p = scroll_locked p.

(** The value a transition asks for. *)
Definition target_of (t : transition) : bool :=
  match t with Open => true | Close => false end.

(** A page with the navigation closed, used to try the handlers. *)
Definition closed_page : page :=
  {| siteNav_classList := ["site-nav"%string];
     navToggle_aria_expanded := "false";
     siteNav_has_link := true;
     sidebar_classList := ["sidebar"%string];
     backdrop_classList := ["sidebar-backdrop"%string];
     toggleBtn_aria_expanded := "false";
     sidebar_has_link := true;
     overlay_classList := ["sections-overlay"%string];
     pill_aria_expanded := "false";
     sheet_has_link := false;
     body_style_overflow := "";
     activeElement := None |}.

(** *** Keys, trigger controls and expanded state, per controller *)

(** A [keydown] event as the controller's document listener sees it. *)
Definition keydown (c : panel) (key : string) : event c :=
  match c with
  | Nav => NavKeydown key
  | Sidebar => SidebarKeydown key
  | Sections => OverlayKeydown key
  end.

(** The control that opens the panel, to which closing by key returns
    the focus. *)
Definition trigger (c : panel) : focusable :=
  match c with
  | Nav => NavToggle
  | Sidebar => SidebarToggleBtn
  | Sections => Pill
  end.

(** The click on the trigger control. *)
Definition trigger_click (c : panel) : event c :=
  match c with
  | Nav => NavToggleClick
  | Sidebar => ToggleBtnClick
  | Sections => PillClick
  end.

Definition is_trigger_click (c : panel) : event c -> bool :=
  match c with
  | Nav => fun e => match e with NavToggleClick => true | _ => false end
  | Sidebar => fun e => match e with ToggleBtnClick => true | _ => false end
  | Sections => fun e => match e with PillClick => true | _ => false end
  end.

(** The [aria-expanded] attribute of the trigger control. *)
Definition aria_expanded (c : panel) (p : page) : string :=
  match c with
  | Nav => navToggle_aria_expanded p
  | Sidebar => toggleBtn_aria_expanded p
  | Sections => pill_aria_expanded p
  end.

Definition aria_in_sync (c : panel) (p : page) : Prop :=
  aria_expanded c p = String_of_bool (open_marker c p).

(** *** The page: the listeners one event runs *)

(** The controllers the script has set up on the page: the navigation
    when the toggle and the navigation exist, the sidebar when it exists
    in a window at least 768 wide, the sections overlay when the page has
    a content navigation. *)
Definition setup : Type := panel -> bool.

(** A listener of a controller is there only when the controller was set
    up. *)
Definition listener (s : setup) (c : panel) (e : event c) (p : page) : page :=
  if s c then handle c e p else p.

(** A [keydown] reaches the document, where the three controllers
    listen; the listeners run in the order the script added them:
    navigation, sidebar, sections overlay. *)
Definition on_keydown (s : setup) (key : string) (p : page) : page :=
  listener s Sections (OverlayKeydown key)
    (listener s Sidebar (SidebarKeydown key)
       (listener s Nav (NavKeydown key) p)).

(** A click on the control that opens a panel.  The listener of the
    navigation toggle stops the propagation.  The floating sidebar button
    and the sections pill are appended to the body, outside the
    navigation: after their own listener the click reaches the document,
    where the navigation listens for clicks outside it. *)
Definition on_trigger_click (s : setup) (c : panel) (p : page) : page :=
  match c with
  | Nav => listener s Nav NavToggleClick p
  | Sidebar =>
      listener s Nav NavOutsideClick (listener s Sidebar ToggleBtnClick p)
  | Sections =>
      listener s Nav NavOutsideClick (listener s Sections PillClick p)
  end.

Definition panel_eqb (c c' : panel) : bool :=
  match c, c' with
  | Nav, Nav | Sidebar, Sidebar | Sections, Sections => true
  | _, _ => false
  end.

(** What the [keydown] listener of a controller does when it closes the
    panel. *)
Definition close_by_key (c : panel) (p : page) : page :=
  match c with
  | Nav => focus NavToggle (setOpen false p)
  | Sidebar => closeSidebar p
  | Sections => closeOverlay p
  end.

(** Whether the controller was set up and its panel is open. *)
Definition is_open (s : setup) (c : panel) (p : page) : bool :=
  s c && open_marker c p.

(** The open panel whose [keydown] listener runs last. *)
Definition last_open (s : setup) (p : page) : option panel :=
  if is_open s Sections p then Some Sections
  else if is_open s Sidebar p then Some Sidebar
  else if is_open s Nav p then Some Nav
  else None.

(** Every controller set up. *)
Definition all_set_up : setup := fun _ => true.

End Panels.

(** ** Scroll reveal *)

Module Reveal.

Record element := {
  eid : nat;
  classList : ClassList.t
}.

(** An [IntersectionObserver] is known by the targets it observes. *)
Record observer := { observed : list nat }.

Record document := {
  elements : list element;
  observers : list observer
}.

(** What the block reads from [window]. *)
Record window := {
  prefers_reduced_motion : bool;      (* matchMedia('(prefers-reduced-motion: reduce)').matches *)
  has_IntersectionObserver : bool     (* 'IntersectionObserver' in window *)
}.

Definition is_reveal (e : element) : bool :=
  ClassList.contains "reveal" (classList e).

Definition is_visible (e : element) : bool :=
  ClassList.contains "visible" (classList e).

Definition add_visible (e : element) : element :=
  {| eid := eid e; classList := ClassList.add "visible" (classList e) |}.

(** The block run by [onReady]. *)
Definition scroll_reveal (w : window) (d : document) : document :=
  let reduceMotion := prefers_reduced_motion w in
  if negb reduceMotion && has_IntersectionObserver w then
    let targets := filter is_reveal (elements d) in
    let observer := {| observed := map eid targets |} in
    {| elements := elements d; observers := observers d ++ [observer] |}
  else
    {| elements := map (fun el => if is_reveal el then add_visible el else el)
                       (elements d);
       observers := observers d |}.

(** *** The callback of the observer *)

(** An [IntersectionObserverEntry], reduced to what the callback reads. *)
Record entry := {
  target : nat;
  isIntersecting : bool
}.

(** [observer.unobserve(t)] *)
Definition unobserve (t : nat) (o : observer) : observer :=
  {| observed := filter (fun x => negb (x =? t)) (observed o) |}.

(** A write to the element of a list at position [i]. *)
Fixpoint at_index {A : Type} (i : nat) (g : A -> A) (l : list A) : list A :=
  match l, i with
  | [], _ => []
  | x :: l', O => g x :: l'
  | x :: l', S j => x :: at_index j g l'
  end.

(** What one entry does to one element of the document. *)
Definition reveal_one (en : entry) (el : element) : element :=
  if isIntersecting en && (eid el =? target en) then add_visible el else el.

(** The body of the loop, for the observer at position [i]. *)
Definition reveal_entry (i : nat) (en : entry) (d : document) : document :=
  if isIntersecting en then
    {| elements := map (reveal_one en) (elements d);
       observers := at_index i (unobserve (target en)) (observers d) |}
  else d.

(** [for (const entry of entries) { ... }] *)
Definition observer_callback (i : nat) (entries : list entry) (d : document)
  : document :=
  fold_left (fun d' en => reveal_entry i en d') entries d.

(** The callback called once for each batch of entries, in order. *)
Definition run_callbacks (i : nat) (batches : list (list entry))
  (d : document) : document :=
  fold_left (fun d' entries => observer_callback i entries d') batches d.

(** One element after the entries have been run through. *)
Definition after_entries (entries : list entry) (el : element) : element :=
  fold_left (fun e en => reveal_one en e) entries el.

(** The targets the observer at position [i] observes. *)
Definition observed_by (i : nat) (d : document) : list nat :=
  match nth_error (observers d) i with
  | Some o => observed o
  | None => []
  end.

(** Some entry of the list reports [t] as intersecting. *)
Definition reported (entries : list entry) (t : nat) : bool :=
  existsb (fun en => isIntersecting en && (target en =? t)) entries.

(** What the fallback branch does to one element of the document. *)
Definition reveal_now (el : element) : element :=
  if is_reveal el then add_visible el else el.

(** A document with a tagged card, an untagged footer and no observer. *)
Definition sample_document : document :=
  {| elements := [ {| eid := 1; classList := ["card"%string; "reveal"%string] |};
                   {| eid := 2; classList := ["footer"%string] |} ];
     observers := [] |}.

End Reveal.

(** ** Regular expressions, as far as the script uses them *)

Module Regex.

Inductive regex :=
| Void
| Eps
| Dot
| Chr (c : char16)
| Cat (r1 r2 : regex)
| Alt (r1 r2 : regex)
| Star (r : regex).

(** [r+] *)
Definition Plus (r : regex) : regex := Cat r (Star r).

(** LineTerminator code points: [.] matches every code unit but these. *)
Definition is_line_terminator (c : char16) : bool :=
  (N.eqb c 10 || N.eqb c 13 || N.eqb c 8232 || N.eqb c 8233)%N.

Fixpoint nullable (r : regex) : bool :=
  match r with
  | Void => false
  | Eps => true
  | Dot => false
  | Chr _ => false
  | Cat r1 r2 => nullable r1 && nullable r2
  | Alt r1 r2 => nullable r1 || nullable r2
  | Star _ => true
  end.

Fixpoint deriv (c : char16) (r : regex) : regex :=
  match r with
  | Void => Void
  | Eps => Void
  | Dot => if is_line_terminator c then Void else Eps
  | Chr d => if N.eqb c d then Eps else Void
  | Cat r1 r2 =>
      if nullable r1 then Alt (Cat (deriv c r1) r2) (deriv c r2)
      else Cat (deriv c r1) r2
  | Alt r1 r2 => Alt (deriv c r1) (deriv c r2)
  | Star r1 => Cat (deriv c r1) (Star r1)
  end.

(** Is there a match that starts at the first code unit of [s]? *)
Fixpoint match_here (r : regex) (s : jsstring) : bool :=
  nullable r ||
  match s with
  | [] => false
  | c :: s' => match_here (deriv c r) s'
  end.

(** [RegExp.prototype.test] for a pattern without flags: a match may
    start at any index. *)
Fixpoint test (r : regex) (s : jsstring) : bool :=
  match_here r s ||
  match s with
  | [] => false
  | _ :: s' => test r s'
  end.

(** The strings a pattern matches in full. *)
Inductive lang : regex -> jsstring -> Prop :=
| lang_eps : lang Eps []
| lang_dot c : is_line_terminator c = false -> lang Dot [c]
| lang_chr c : lang (Chr c) [c]
| lang_cat r1 r2 s1 s2 : lang r1 s1 -> lang r2 s2 -> lang (Cat r1 r2) (s1 ++ s2)
| lang_alt_l r1 r2 s : lang r1 s -> lang (Alt r1 r2) s
| lang_alt_r r1 r2 s : lang r2 s -> lang (Alt r1 r2) s
| lang_star_nil r : lang (Star r) []
| lang_star_app r s1 s2 : lang r s1 -> lang (Star r) s2 -> lang (Star r) (s1 ++ s2).

End Regex.

(** ** Form validation feedback *)

Module Forms.

(** *** Numbers *)

(** A Number value: every finite double is a rational. *)
Inductive jsnum :=
| JNaN
| JNegInf
| JFin (q : Q)
| JPosInf.

(** [a < b] on Numbers; a comparison with NaN is false. *)
Definition js_lt (a b : jsnum) : bool :=
  match a, b with
  | JNaN, _ | _, JNaN => false
  | _, JNegInf => false
  | JPosInf, _ => false
  | JNegInf, _ => true
  | JFin _, JPosInf => true
  | JFin x, JFin y => negb (Qle_bool y x)
  end.

(** [s.length] as a Number. *)
Definition js_length (s : jsstring) : jsnum :=
  JFin (inject_Z (Z.of_nat (List.length s))).

(** The value of a literal made of decimal digits only, as [Number]
    converts it; any other literal is outside this helper. *)
Definition digit_value (c : char16) : option Z :=
  if ((48 <=? c) && (c <=? 57))%N then Some (Z.of_N c - 48)%Z else None.

Fixpoint decimal_value (acc : Z) (s : jsstring) : option Z :=
  match s with
  | [] => Some acc
  | c :: s' =>
      match digit_value c with
      | Some d => decimal_value (10 * acc + d)%Z s'
      | None => None
      end
  end.

(** A conversion that agrees with [Number] on the empty string and on
    runs of decimal digits (below 2^53, where the conversion is exact).
    It stands for the built-in where an example needs a concrete one. *)
Definition Number_of_digits (s : jsstring) : jsnum :=
  match s with
  | [] => JFin 0%Q
  | _ :: _ =>
      match decimal_value 0 s with
      | Some z => JFin (inject_Z z)
      | None => JNaN
      end
  end.

(** *** [String.prototype.trim] *)

(** WhiteSpace and LineTerminator code points, all in the basic plane. *)
Definition is_white (c : char16) : bool :=
  ((9 <=? c) && (c <=? 13) || N.eqb c 32 || N.eqb c 160 || N.eqb c 5760
   || (8192 <=? c) && (c <=? 8202) || N.eqb c 8232 || N.eqb c 8233
   || N.eqb c 8239 || N.eqb c 8287 || N.eqb c 12288 || N.eqb c 65279)%N.

Fixpoint trimStart (s : jsstring) : jsstring :=
  match s with
  | [] => []
  | c :: s' => if is_white c then trimStart s' else s
  end.

Definition trimEnd (s : jsstring) : jsstring := rev (trimStart (rev s)).

Definition trim (s : jsstring) : jsstring := trimEnd (trimStart s).

(** *** Elements of the form *)

(** The states of the [type] attribute of an [input] element; the [type]
    property returns the keyword of the state, never anything else. *)
Inductive input_type :=
| Hidden | Text | Search | Tel | Url | Email | Password | Date | Month
| Week | Time | DatetimeLocal | NumberInput | Range | Color | Checkbox
| Radio | File | Submit | Image | Reset | Button.

Definition type_keyword (t : input_type) : string :=
  match t with
  | Hidden => "hidden" | Text => "text" | Search => "search" | Tel => "tel"
  | Url => "url" | Email => "email" | Password => "password"
  | Date => "date" | Month => "month" | Week => "week" | Time => "time"
  | DatetimeLocal => "datetime-local" | NumberInput => "number"
  | Range => "range" | Color => "color" | Checkbox => "checkbox"
  | Radio => "radio" | File => "file" | Submit => "submit"
  | Image => "image" | Reset => "reset" | Button => "button"
  end.

Inductive element_kind :=
| Input (ty : input_type)
| Textarea
| Other (tagName : string).

(** An element inside the form.  [eid] is the identity of the object;
    [depth] is its nesting depth, the elements of the form being listed in
    document order.  [required], [value] and [minlength] are the
    properties and the attribute of a form control the validators read;
    the script never writes them.  [textContent] is kept apart from
    [value]: the script writes text to error displays only.  [removed]
    says that the element has been removed from its parent, which a
    write to the [textContent] of the parent does to every child: the
    element stays where it was in the list, its descendants after it, but
    it has no parent and no sibling any more, and neither it nor its
    descendants are inside the form. *)
Record element := {
  eid : nat;
  depth : nat;
  kind : element_kind;
  classList : ClassList.t;
  aria_invalid : option string;
  textContent : jsstring;
  required : bool;
  value : jsstring;
  minlength : option jsstring;
  removed : bool
}.

Definition is_field (e : element) : bool :=
  match kind e with
  | Input _ | Textarea => true
  | Other _ => false
  end.

Definition has_class (c : string) (e : element) : bool :=
  ClassList.contains c (classList e).

Definition set_classList (l : ClassList.t) (e : element) : element :=
  {| eid := eid e; depth := depth e; kind := kind e; classList := l;
     aria_invalid := aria_invalid e; textContent := textContent e;
     required := required e; value := value e; minlength := minlength e;
     removed := removed e |}.

Definition set_aria_invalid (a : string) (e : element) : element :=
  {| eid := eid e; depth := depth e; kind := kind e;
     classList := classList e; aria_invalid := Some a;
     textContent := textContent e; required := required e;
     value := value e; minlength := minlength e; removed := removed e |}.

Definition set_textContent (s : jsstring) (e : element) : element :=
  {| eid := eid e; depth := depth e; kind := kind e;
     classList := classList e; aria_invalid := aria_invalid e;
     textContent := s; required := required e; value := value e;
     minlength := minlength e; removed := removed e |}.

(** The element leaves its parent. *)
Definition set_removed (e : element) : element :=
  {| eid := eid e; depth := depth e; kind := kind e;
     classList := classList e; aria_invalid := aria_invalid e;
     textContent := textContent e; required := required e;
     value := value e; minlength := minlength e; removed := true |}.

(** [document.createElement('div')] with [className = 'field-error'],
    placed at the nesting depth of the field it follows. *)
Definition new_error_el (id d : nat) : element :=
  {| eid := id; depth := d; kind := Other "div";
     classList := ["field-error"%string]; aria_invalid := None;
     textContent := []; required := false; value := [];
     minlength := None; removed := false |}.

(** The state the form handlers work on.  [dom] lists, in document
    order, the elements of the form and the elements that were removed
    from it, each removed subtree at the place it had; [next_eid] is the
    supply of fresh identities for created elements; [activeElement] is
    the element [focus()] was last called on. *)
Record state := {
  dom : list element;
  next_eid : nat;
  activeElement : option nat;
  defaultPrevented : bool
}.

(** *** An exception aborts the handler *)

Definition bind {A B : Type} (m : option A) (k : A -> option B) : option B :=
  match m with
  | Some a => k a
  | None => None
  end.

Notation "' p <- m ;; k" := (bind m (fun p => k))
  (at level 61, p pattern, m at next level, right associativity).

(** *** Looking up and updating an element by identity *)

(** The element with identity [id], when it has a parent: nothing can
    be inserted next to an element that was removed. *)
Definition find_el (id : nat) (l : list element) : option element :=
  find (fun e => (eid e =? id) && negb (removed e)) l.

Definition update_one (id : nat) (g : element -> element) (e : element)
  : element :=
  if eid e =? id then g e else e.

(** A write through a reference to the element with identity [id]. *)
Definition update_el (id : nat) (g : element -> element) (l : list element)
  : list element :=
  map (update_one id g) l.

(** Splits the elements that follow an element of depth [d] into its
    descendants and the rest. *)
Fixpoint split_subtree (d : nat) (l : list element)
  : list element * list element :=
  match l with
  | [] => ([], [])
  | e :: l' =>
      if d <? depth e
      then let (inside, after) := split_subtree d l' in (e :: inside, after)
      else ([], l)
  end.

(** [nextElementSibling] of an element of depth [d], from the elements
    that follow its subtree: the first element of depth [d] that was not
    removed, as long as no shallower element comes first.  A deeper
    element on the way is inside the subtree of a removed one. *)
Fixpoint next_sibling (d : nat) (after : list element) : option element :=
  match after with
  | [] => None
  | s :: rest =>
      if d <? depth s then next_sibling d rest
      else if depth s =? d
           then (if removed s then next_sibling d rest else Some s)
           else None
  end.

(** [field.nextElementSibling]; a removed element has no sibling. *)
Fixpoint nextElementSibling (field : nat) (l : list element) : option element :=
  match l with
  | [] => None
  | e :: l' =>
      if eid e =? field
      then if removed e then None
           else next_sibling (depth e) (snd (split_subtree (depth e) l'))
      else nextElementSibling field l'
  end.

(** [ensureErrorEl] on the list of elements: the identity of the error
    element, and the list with a fresh element inserted after the field
    when its next sibling is not an error element.  [None] when the field
    has no parent: it has no sibling either, an element is created and
    [field.parentNode.insertBefore] throws. *)
Fixpoint ensureErrorEl_in (field fresh : nat) (l : list element)
  : option (list element * nat * bool) :=
  match l with
  | [] => None
  | e :: l' =>
      if eid e =? field then
        if removed e then None else
        let (inside, after) := split_subtree (depth e) l' in
        match next_sibling (depth e) after with
        | Some el =>
            if has_class "field-error" el then Some (l, eid el, false)
            else Some (e :: inside ++ new_error_el fresh (depth e) :: after,
                       fresh, true)
        | None =>
            Some (e :: inside ++ new_error_el fresh (depth e) :: after,
                  fresh, true)
        end
      else
        ' (l1, el, created) <- ensureErrorEl_in field fresh l' ;;
        Some (e :: l1, el, created)
  end.

Definition ensureErrorEl (field : nat) (st : state) : option (state * nat) :=
  ' (l, el, created) <- ensureErrorEl_in field (next_eid st) (dom st) ;;
  Some ({| dom := l;
           next_eid := if created then S (next_eid st) else next_eid st;
           activeElement := activeElement st;
           defaultPrevented := defaultPrevented st |}, el).

(** A child of an element of depth [d] leaves it; deeper descendants
    stay with their own parent. *)
Definition detach (d : nat) (c : element) : element :=
  if depth c =? S d then set_removed c else c.

(** What a write to [el.textContent] does to the children of the element
    [id]: all of them are removed from it. *)
Fixpoint remove_children (id : nat) (l : list element) : list element :=
  match l with
  | [] => []
  | e :: l' =>
      if eid e =? id then
        let (inside, after) := split_subtree (depth e) l' in
        e :: map (detach (depth e)) inside ++ after
      else e :: remove_children id l'
  end.

(** The children of the element [id]. *)
Fixpoint children (id : nat) (l : list element) : list element :=
  match l with
  | [] => []
  | e :: l' =>
      if eid e =? id
      then filter (fun c => (depth c =? S (depth e)) && negb (removed c))
                  (fst (split_subtree (depth e) l'))
      else children id l'
  end.

(** The elements inside the form: a removed element and its descendants
    are not.  [under] is the depth of the removed element whose subtree
    is being passed. *)
Fixpoint attached (under : option nat) (l : list element) : list element :=
  match l with
  | [] => []
  | e :: l' =>
      if match under with Some d => d <? depth e | None => false end
      then attached under l'
      else if removed e then attached (Some (depth e)) l'
           else e :: attached None l'
  end.

(** What [showError] writes on the error element itself, its text and
    its [active] class, and on the field. *)
Definition display (msg : jsstring) (e : element) : element :=
  set_classList (ClassList.toggle "active" (truthy msg) (classList e))
    (set_textContent msg e).

Definition mark (msg : jsstring) (e : element) : element :=
  set_aria_invalid (if truthy msg then "true" else "false")
    (set_classList (ClassList.toggle "error" (truthy msg) (classList e)) e).

(** The two writes of [showError], on one element. *)
Definition shown (err field : nat) (msg : jsstring) (e : element) : element :=
  update_one field (mark msg) (update_one err (display msg) e).

(** [showError]: the write to [err.textContent] removes the children of
    the error element and sets its text; then come the [active] class of
    the error element, the [error] class of the field and its
    [aria-invalid] attribute. *)
Definition showError (field : nat) (msg : jsstring) (st : state) : option state :=
  ' (st1, err) <- ensureErrorEl field st ;;
  let d0 := remove_children err (dom st1) in
  let d1 := update_el err (display msg) d0 in
  let d2 := update_el field (mark msg) d1 in
  Some {| dom := d2; next_eid := next_eid st1;
          activeElement := activeElement st1;
          defaultPrevented := defaultPrevented st1 |}.

(** *** The validators *)

(** [/.+@.+\..+/] *)
Definition email_pattern : Regex.regex :=
  Regex.Cat (Regex.Plus Regex.Dot)
    (Regex.Cat (Regex.Chr 64%N)
       (Regex.Cat (Regex.Plus Regex.Dot)
          (Regex.Cat (Regex.Chr 46%N) (Regex.Plus Regex.Dot)))).

Definition msg_email_required : jsstring := str "Email is required.".
Definition msg_email_invalid : jsstring := str "Enter a valid email.".
Definition msg_field_required : jsstring := str "This field is required.".
Definition msg_message_required : jsstring := str "Message is required.".

(** [`Please write at least ${min} characters.`] *)
Definition msg_too_short (min : jsstring) : jsstring :=
  (str "Please write at least " ++ min ++ str " characters.")%list.

(** *** The words of the specification *)

(** A non-empty run of text without line breaks. *)
Definition text_run (s : jsstring) : Prop :=
  s <> [] /\ Forall (fun c => Regex.is_line_terminator c = false) s.

(** The loose [text@text.text] shape: somewhere in the value, a run of
    text, an at sign, a run of text, a full stop and a run of text. *)
Definition email_shape (v : jsstring) : Prop :=
  exists pre a b c post,
    v = (pre ++ a ++ [64%N] ++ b ++ [46%N] ++ c ++ post)%list /\
    text_run a /\ text_run b /\ text_run c.

(** Blank: nothing but white space, so that nothing is left after
    trimming. *)
Definition blank (v : jsstring) : Prop :=
  Forall (fun c => is_white c = true) v.

(** Identities are unique, and below the supply of fresh ones. *)
Definition well_formed (st : state) : Prop :=
  NoDup (map eid (dom st)) /\
  Forall (fun e => eid e < next_eid st) (dom st).

(** What the script never writes: identity, position, kind and the
    properties the validators read. *)
Definition core_t : Type :=
  (nat * nat * element_kind * bool * jsstring * option jsstring)%type.

Definition core (e : element) : core_t :=
  (eid e, depth e, kind e, required e, value e, minlength e).

Arguments core : simpl never.
Arguments find_el : simpl never.

(** The first field of the form, in document order, that carries the
    [error] class. *)
Definition first_error_field (l : list element) : option element :=
  find (fun e => is_field e && has_class "error" e) (attached None l).

(** The elements that existed when the supply of identities stood at [n]. *)
Definition older (n : nat) (e : element) : bool := eid e <? n.

(** What follows a subtree of depth [d] starts with an element that is
    not deeper. *)
Definition shallow_head (d : nat) (l : list element) : Prop :=
  match l with y :: _ => depth y <= d | [] => True end.

(** The elements the search for a sibling steps over. *)
Definition stepped_over (d : nat) (e : element) : Prop :=
  d < depth e \/ (depth e = d /\ removed e = true).

(** An element after the children of another were removed: as it was, or
    removed. *)
Definition kept_or_removed (e e' : element) : Prop :=
  e' = e \/ (e' = set_removed e /\ removed e = false).

(** Whether the field has its error display next to it. *)
Definition has_display (field : nat) (l : list element) : bool :=
  match nextElementSibling field l with
  | Some s => has_class "field-error" s
  | None => false
  end.

(** A field the script has handled: it has its error display next to
    it, unless it has been removed from its parent since. *)
Definition display_or_removed (field : nat) (st : state) : Prop :=
  field < next_eid st /\
  (has_display field (dom st) = true \/ find_el field (dom st) = None).

(** A form control with the given properties and no class, used to try
    the validators. *)
Definition control (id d : nat) (k : element_kind) (req : bool)
  (min : option jsstring) (v : jsstring) : element :=
  {| eid := id; depth := d; kind := k; classList := [];
     aria_invalid := None; textContent := []; required := req;
     value := v; minlength := min; removed := false |}.

(** A form with one label, a required email field holding ["a@b"] and a
    required textarea, before any validation. *)
Definition sample_form : state :=
  {| dom := [ control 0 0 (Other "label") false None [];
              control 1 0 (Input Email) true None (str "a@b");
              control 2 0 Textarea true (Some (str "10")) (str "long enough") ];
     next_eid := 3;
     activeElement := None;
     defaultPrevented := false |}.

(** A form that starts with a paragraph of class [error], followed by a
    required text field left empty. *)
Definition form_with_error_note : state :=
  {| dom := [ {| eid := 0; depth := 0; kind := Other "p";
                 classList := ["error"%string]; aria_invalid := None;
                 textContent := str "Please check the form.";
                 required := false; value := []; minlength := None;
                 removed := false |};
              control 1 0 (Input Text) true None [] ];
     next_eid := 2;
     activeElement := None;
     defaultPrevented := false |}.

(** A form whose first field is followed by an error display that has a
    child, a [span] of class [error], before a required text field left
    empty. *)
Definition form_with_filled_display : state :=
  {| dom := [ control 1 0 (Input Text) false None (str "x");
              {| eid := 2; depth := 0; kind := Other "div";
                 classList := ["field-error"%string]; aria_invalid := None;
                 textContent := []; required := false; value := [];
                 minlength := None; removed := false |};
              {| eid := 3; depth := 1; kind := Other "span";
                 classList := ["error"%string]; aria_invalid := None;
                 textContent := str "old"; required := false; value := [];
                 minlength := None; removed := false |};
              control 4 0 (Input Text) true None [] ];
     next_eid := 5;
     activeElement := None;
     defaultPrevented := false |}.

Section Validators.

(** [Number] applied to a string, a built-in of the platform. *)
Variable Number : jsstring -> jsnum.

Definition validators_email (f : element) : jsstring :=
  if negb (truthy (value f)) then msg_email_required
  else if Regex.test email_pattern (value f) then []
       else msg_email_invalid.

Definition validators_text (f : element) : jsstring :=
  if required f && negb (truthy (trim (value f)))
  then msg_field_required else [].

Definition validators_textarea (f : element) : jsstring :=
  if required f && negb (truthy (trim (value f))) then msg_message_required
  else
    let min := minlength f in
    match min with
    | Some m =>
        if truthy m && js_lt (js_length (trim (value f))) (Number m)
        then msg_too_short m
        else []
    | None => []
    end.

(** The object [validators]: its own properties, by name. *)
Definition validators : list (string * (element -> jsstring)) :=
  [ ("email"%string, validators_email);
    ("text"%string, validators_text);
    ("textarea"%string, validators_textarea) ].

Fixpoint get_property {A : Type} (key : string) (o : list (string * A))
  : option A :=
  match o with
  | [] => None
  | (k, v) :: o' => if String.eqb k key then Some v else get_property key o'
  end.

(** The name [validate] looks up: ['textarea'] for a textarea, the [type]
    property for an input (a keyword, never empty); for any other
    element the lookup ends at [validators.text]. *)
Definition validator_name (f : element) : string :=
  match kind f with
  | Textarea => "textarea"
  | Input ty => type_keyword ty
  | Other _ => "text"
  end.

(** [validators[type] || validators.text], applied to the field. *)
Definition run_validator (f : element) : jsstring :=
  match get_property (validator_name f) validators with
  | Some fn => fn f
  | None => validators_text f
  end.

(** [validate(field)]: the state after the call and the value returned. *)
Definition validate (field : nat) (st : state) : option (state * bool) :=
  ' f <- find_el field (dom st) ;;
  let msg := run_validator f in
  ' st1 <- showError field msg st ;;
  Some (st1, negb (truthy msg)).

(** [fields]: the inputs and textareas of the form, in document order. *)
Definition form_fields (l : list element) : list nat :=
  map eid (filter is_field (attached None l)).

(** The [blur] and [input] listeners of a field. *)
Definition on_blur_or_input (field : nat) (st : state) : option state :=
  ' (st1, _) <- validate field st ;; Some st1.

(** [fields.forEach(f => { if (!validate(f)) ok = false; })] *)
Fixpoint validate_each (fields : list nat) (ok : bool) (st : state)
  : option (state * bool) :=
  match fields with
  | [] => Some (st, ok)
  | f :: fs =>
      ' (st1, valid) <- validate f st ;;
      validate_each fs (if valid then ok else false) st1
  end.

(** [form.querySelector('.error')]: the first element inside the form, in
    document order, that carries the class. *)
Definition querySelector_error (l : list element) : option element :=
  find (has_class "error") (attached None l).

Definition preventDefault (st : state) : state :=
  {| dom := dom st; next_eid := next_eid st;
     activeElement := activeElement st; defaultPrevented := true |}.

(** [form.querySelector('.error')?.focus()] *)
Definition focus_first_error (st : state) : state :=
  match querySelector_error (dom st) with
  | Some e =>
      {| dom := dom st; next_eid := next_eid st;
         activeElement := Some (eid e);
         defaultPrevented := defaultPrevented st |}
  | None => st
  end.

(** The [submit] listener, for the fields collected when the page was
    set up. *)
Definition on_submit (fields : list nat) (st : state) : option state :=
  ' (st1, ok) <- validate_each fields true st ;;
  Some (if ok then st1 else focus_first_error (preventDefault st1)).

(** *** The life of a form: typing and validation passes *)

Definition set_value (v : jsstring) (e : element) : element :=
  {| eid := eid e; depth := depth e; kind := kind e;
     classList := classList e; aria_invalid := aria_invalid e;
     textContent := textContent e; required := required e; value := v;
     minlength := minlength e; removed := removed e |}.

(** What happens to a form between submits: the user changes the value
    of a control, or a [blur] or [input] listener runs. *)
Inductive form_event :=
| Typed (field : nat) (v : jsstring)
| Listened (field : nat).

Definition form_step (ev : form_event) (st : state) : option state :=
  match ev with
  | Typed g v =>
      Some {| dom := update_el g (set_value v) (dom st);
              next_eid := next_eid st;
              activeElement := activeElement st;
              defaultPrevented := defaultPrevented st |}
  | Listened g => on_blur_or_input g st
  end.

Fixpoint run_form (evs : list form_event) (st : state) : option state :=
  match evs with
  | [] => Some st
  | ev :: evs' => ' st1 <- form_step ev st ;; run_form evs' st1
  end.

End Validators.

End Forms.

(** ** Sidebar scroll-spy *)

Module ScrollSpy.

Local Open Scope string_scope.

(** A link of the content navigation whose [href] starts with [#]. *)
Record link := {
  href : string;
  link_classList : ClassList.t
}.

(** [s.slice(1)] *)
Definition slice1 (s : string) : string :=
  match s with
  | String _ rest => rest
  | EmptyString => EmptyString
  end.

(** An [IntersectionObserverEntry], reduced to what the callback reads:
    [target.id], [isIntersecting] and [boundingClientRect.top]. *)
Record entry := {
  target_id : string;
  isIntersecting : bool;
  boundingClientRect_top : Q
}.

Definition is_active (a : link) : bool :=
  ClassList.contains "active" (link_classList a).

Definition setActive (id : string) (navLinks : list link) : list link :=
  map (fun a =>
         {| href := href a;
            link_classList :=
              ClassList.toggle "active" (String.eqb (href a) ("#" ++ id))
                (link_classList a) |})
      navLinks.

(** [Array.prototype.sort] with a comparator: the sort is stable, and [a]
    comes before [b] when the comparator is negative on [(a, b)]. *)
Fixpoint insert_sorted {A : Type} (cmp : A -> A -> Q) (x : A) (l : list A)
  : list A :=
  match l with
  | [] => [x]
  | y :: l' =>
      if Qle_bool (cmp x y) 0%Q then x :: l else y :: insert_sorted cmp x l'
  end.

Definition sort {A : Type} (cmp : A -> A -> Q) (l : list A) : list A :=
  fold_right (insert_sorted cmp) [] l.

(** A comparator that orders by a numeric key, as [(a, b) => key(a) -
    key(b)]. *)
Definition by_key {A : Type} (key : A -> Q) (a b : A) : Q :=
  (key a - key b)%Q.

(** The first element of a list has the least key. *)
Definition head_is_least {A : Type} (key : A -> Q) (l : list A) : Prop :=
  match l with
  | [] => True
  | x :: _ => forall y, In y l -> (key x <= key y)%Q
  end.

(** The callback of the observer [spy]. *)
Definition spy (entries : list entry) (navLinks : list link) : list link :=
  let visible :=
    sort (fun a b => boundingClientRect_top a - boundingClientRect_top b)%Q
         (filter isIntersecting entries) in
  match visible with
  | v :: _ => setActive (target_id v) navLinks
  | [] => navLinks
  end.

(** The click listener of a link, once its timer has fired. *)
Definition on_link_click (a : link) (navLinks : list link) : list link :=
  setActive (slice1 (href a)) navLinks.

(** *** The observer, as the platform runs it

    When the rendering is updated the browser computes, for every observed
    target, whether it intersects the root, the index of the threshold
    reached and the bounding rectangle; it queues an entry for a target
    only when [isIntersecting] or the threshold index differs from the
    values it recorded for that target the last time, and calls the
    callback with the queued entries. *)

Record observation := {
  obs_target : string;
  obs_top : Q;
  obs_isIntersecting : bool;
  obs_thresholdIndex : nat
}.

(** A registration of an observed target; no threshold index is recorded
    before the first computation. *)
Record registration := {
  reg_target : string;
  previousThresholdIndex : option nat;
  previousIsIntersecting : bool
}.

(** [spy.observe(el)]; observing a target again changes nothing. *)
Definition observe (id : string) (regs : list registration)
  : list registration :=
  if existsb (fun r => String.eqb (reg_target r) id) regs then regs
  else regs ++ [ {| reg_target := id;
                    previousThresholdIndex := None;
                    previousIsIntersecting := false |} ].

Definition same_index (prev : option nat) (i : nat) : bool :=
  match prev with
  | Some j => Nat.eqb j i
  | None => false
  end.

Fixpoint notify (regs : list registration) (frame : list observation)
  : list entry * list registration :=
  match regs with
  | [] => ([], [])
  | r :: rs =>
      let (es, rs') := notify rs frame in
      match find (fun o => String.eqb (obs_target o) (reg_target r)) frame with
      | Some o =>
          if same_index (previousThresholdIndex r) (obs_thresholdIndex o)
             && Bool.eqb (previousIsIntersecting r) (obs_isIntersecting o)
          then (es, r :: rs')
          else ({| target_id := obs_target o;
                   isIntersecting := obs_isIntersecting o;
                   boundingClientRect_top := obs_top o |} :: es,
                {| reg_target := reg_target r;
                   previousThresholdIndex := Some (obs_thresholdIndex o);
                   previousIsIntersecting := obs_isIntersecting o |} :: rs')
      | None => (es, r :: rs')
      end
  end.

Record state := {
  navLinks : list link;
  registrations : list registration
}.

(** [sections]: the targets of the links that exist in the document,
    [ids] being the ids [getElementById] finds. *)
Definition sections (links : list link) (ids : list string) : list string :=
  flat_map (fun a =>
              let id := slice1 (href a) in
              if existsb (String.eqb id) ids then [id] else [])
           links.

Definition init (links : list link) (ids : list string)
  (has_IntersectionObserver : bool) : state :=
  let secs := sections links ids in
  {| navLinks := links;
     registrations :=
       if has_IntersectionObserver && negb (Nat.eqb (List.length secs) 0)
       then fold_left (fun regs id => observe id regs) secs []
       else [] |}.

(** One update of the rendering: the callback runs on the queued entries
    when there are any. *)
Definition on_frame (frame : list observation) (st : state) : state :=
  let (entries, regs) := notify (registrations st) frame in
  {| navLinks := match entries with
                 | [] => navLinks st
                 | _ :: _ => spy entries (navLinks st)
                 end;
     registrations := regs |}.

(** The sections of a frame that satisfy the intersection condition. *)
Definition intersecting (frame : list observation) : list observation :=
  filter obs_isIntersecting frame.

(** *** A page with two sections *)

Definition two_links : list link :=
  [ {| href := "#intro"; link_classList := [] |};
    {| href := "#usage"; link_classList := [] |} ].

Definition two_sections : state :=
  init two_links ["intro"; "usage"] true.

(** Only the first section is inside the observed band. *)
Definition frame_intro_only : list observation :=
  [ {| obs_target := "intro"; obs_top := 30; obs_isIntersecting := true;
       obs_thresholdIndex := 1 |};
    {| obs_target := "usage"; obs_top := 330; obs_isIntersecting := false;
       obs_thresholdIndex := 0 |} ].

(** After a short scroll both sections are inside the band, the first one
    still on top. *)
Definition frame_both : list observation :=
  [ {| obs_target := "intro"; obs_top := 5; obs_isIntersecting := true;
       obs_thresholdIndex := 1 |};
    {| obs_target := "usage"; obs_top := 305; obs_isIntersecting := true;
       obs_thresholdIndex := 1 |} ].

(** The links with their [active] marker. *)
Definition active_links (st : state) : list (string * bool) :=
  map (fun a => (href a, is_active a)) (navLinks st).

End ScrollSpy.

(** ** Back-to-top button *)

Module BackToTop.

Definition threshold : Q := 480%Q.

Record state := {
  fab_classList : ClassList.t;
  ticking : bool;
  (* callbacks handed to requestAnimationFrame and not yet run *)
  frames_requested : nat
}.

(** [a > b] on finite Numbers. *)
Definition js_gt (a b : Q) : bool := negb (Qle_bool a b).

Definition update (scrollY : Q) (st : state) : state :=
  let show := js_gt scrollY threshold in
  {| fab_classList := ClassList.toggle "visible" show (fab_classList st);
     ticking := false;
     frames_requested := frames_requested st |}.

Definition onScroll (st : state) : state :=
  if negb (ticking st)
  then {| fab_classList := fab_classList st;
          ticking := true;
          frames_requested := S (frames_requested st) |}
  else st.

(** The browser runs one requested callback. *)
Definition on_animation_frame (scrollY : Q) (st : state) : state :=
  match frames_requested st with
  | O => st
  | S n => update scrollY {| fab_classList := fab_classList st;
                             ticking := ticking st;
                             frames_requested := n |}
  end.

(** The button as created by the block, followed by the first [update()]. *)
Definition init (scrollY : Q) : state :=
  update scrollY {| fab_classList := ["backtotop-fab"%string];
                    ticking := false;
                    frames_requested := 0%nat |}.

Definition fab_visible (st : state) : bool :=
  ClassList.contains "visible" (fab_classList st).

(** The window with the button: [window.scrollY] and the state of the
    block. *)
Record page := {
  scrollY : Q;
  button : state
}.

(** What the window delivers to the block: a scroll event, after which the
    offset is [y]; an animation frame, which runs one requested callback;
    a resize event. *)
Inductive event :=
| Scroll (y : Q)
| AnimationFrame
| Resize.

Definition dispatch (p : page) (ev : event) : page :=
  match ev with
  | Scroll y => {| scrollY := y; button := onScroll (button p) |}
  | AnimationFrame =>
      {| scrollY := scrollY p;
         button := on_animation_frame (scrollY p) (button p) |}
  | Resize => {| scrollY := scrollY p; button := update (scrollY p) (button p) |}
  end.

Definition dispatch_all (evs : list event) (p : page) : page :=
  fold_left dispatch evs p.

(** The page once the block has run, the window being at offset [y]. *)
Definition load (y : Q) : page := {| scrollY := y; button := init y |}.

Definition is_resize (ev : event) : bool :=
  match ev with Resize => true | _ => false end.

End BackToTop.

(** ** Theme of the page hero *)

Module Hero.

(** [hero] is the class list of the first [.page-hero] element, [None]
    when the page has none; the result is the class list of the body. *)
Definition assign_theme (hero : option ClassList.t) (body : ClassList.t)
  : ClassList.t :=
  match hero with
  | None => body
  | Some h =>
      if ClassList.contains "page-hero--red" h then ClassList.add "red" body
      else if ClassList.contains "page-hero--blue" h
           then ClassList.add "blue" body
      else if ClassList.contains "page-hero--purple" h
           then ClassList.add "purple" body
      else body
  end.

Definition theme_classes : list string :=
  ["red"%string; "blue"%string; "purple"%string].

Definition is_theme (c : string) : bool :=
  existsb (String.eqb c) theme_classes.

End Hero.

(** * Properties *)

(** ** Strings and class lists *)

Lemma truthy_false_iff (s : jsstring) : truthy s = false <-> s = [].
Proof. destruct s; simpl; split; intro H; congruence. Qed.

Lemma truthy_true_iff (s : jsstring) : truthy s = true <-> s <> [].
Proof. destruct s; simpl; split; intro H; congruence. Qed.

Module ClassListFacts.

Import ClassList.

Lemma contains_app c l1 l2 :
  contains c (l1 ++ l2) = contains c l1 || contains c l2.
Proof. unfold contains. apply existsb_app. Qed.

Lemma contains_add_same c l : contains c (add c l) = true.
Proof.
  unfold add. destruct (contains c l) eqn:E; [exact E|].
  rewrite contains_app. unfold contains at 2. simpl.
  rewrite String.eqb_refl. now rewrite orb_true_r.
Qed.

Lemma contains_remove_same c l : contains c (remove c l) = false.
Proof.
  unfold remove, contains. induction l as [|x l IH]; simpl; [reflexivity|].
  destruct (String.eqb c x) eqn:E; simpl; [exact IH|].
  now rewrite E.
Qed.

Lemma contains_add_other c d l : c <> d -> contains c (add d l) = contains c l.
Proof.
  intro Hne. unfold add. destruct (contains d l); [reflexivity|].
  rewrite contains_app. unfold contains at 2. simpl.
  apply String.eqb_neq in Hne. rewrite Hne. now rewrite !orb_false_r.
Qed.

Lemma contains_remove_other c d l :
  c <> d -> contains c (remove d l) = contains c l.
Proof.
  intro Hne. unfold remove, contains.
  induction l as [|x l IH]; simpl; [reflexivity|].
  destruct (String.eqb d x) eqn:E; simpl.
  - apply String.eqb_eq in E. subst x.
    apply String.eqb_neq in Hne. now rewrite Hne.
  - now rewrite IH.
Qed.

Lemma contains_toggle_same c b l : contains c (toggle c b l) = b.
Proof.
  destruct b; unfold toggle;
    [apply contains_add_same | apply contains_remove_same].
Qed.

Lemma contains_toggle_other c d b l :
  c <> d -> contains c (toggle d b l) = contains c l.
Proof.
  intro Hne. destruct b; unfold toggle;
    [now apply contains_add_other | now apply contains_remove_other].
Qed.

End ClassListFacts.

(** ** Panel controllers *)

Module PanelsFacts.

Import Panels.

Lemma focus_if_marker c b t p :
  open_marker c (focus_if b t p) = open_marker c p.
Proof. destruct b, c; reflexivity. Qed.

Lemma focus_if_overflow b t p :
  body_style_overflow (focus_if b t p) = body_style_overflow p.
Proof. destruct b; reflexivity. Qed.

Lemma setOpen_marker b p : siteNav_is_open (setOpen b p) = b.
Proof.
  unfold setOpen, siteNav_is_open.
  destruct b; [destruct (siteNav_has_link p) eqn:E|]; simpl; try rewrite E;
    simpl; apply ClassListFacts.contains_toggle_same.
Qed.

Lemma setOpen_scroll_lock b p : scroll_locked (setOpen b p) = b.
Proof.
  unfold scroll_locked, setOpen. destruct b.
  - rewrite focus_if_overflow. reflexivity.
  - reflexivity.
Qed.

Lemma openSidebar_markers p :
  sidebar_is_open (openSidebar p) = true /\
  ClassList.contains "open" (backdrop_classList (openSidebar p)) = true /\
  scroll_locked (openSidebar p) = true.
Proof.
  unfold openSidebar, sidebar_is_open, scroll_locked.
  destruct (sidebar_has_link p) eqn:E; simpl; try rewrite E; simpl;
    repeat split; apply ClassListFacts.contains_add_same.
Qed.

Lemma closeSidebar_markers p :
  sidebar_is_open (closeSidebar p) = false /\
  ClassList.contains "open" (backdrop_classList (closeSidebar p)) = false /\
  scroll_locked (closeSidebar p) = false.
Proof.
  unfold closeSidebar, sidebar_is_open, scroll_locked. simpl.
  repeat split; apply ClassListFacts.contains_remove_same.
Qed.

Lemma openOverlay_markers p :
  overlay_is_open (openOverlay p) = true /\ scroll_locked (openOverlay p) = true.
Proof.
  unfold openOverlay, overlay_is_open, scroll_locked.
  destruct (sheet_has_link p) eqn:E; simpl; try rewrite E; simpl;
    split; try reflexivity; apply ClassListFacts.contains_add_same.
Qed.

Lemma closeOverlay_markers p :
  overlay_is_open (closeOverlay p) = false /\
  scroll_locked (closeOverlay p) = false.
Proof.
  unfold closeOverlay, overlay_is_open, scroll_locked. simpl.
  split; [apply ClassListFacts.contains_remove_same | reflexivity].
Qed.

(** A transition leaves the marker and the lock at the value it asks for. *)
Lemma apply_transition_sets c t p :
  open_marker c (apply_transition c t p) = target_of t /\
  scroll_locked (apply_transition c t p) = target_of t.
Proof.
  destruct c, t; unfold apply_transition, open_marker, target_of.
  - split; [apply setOpen_marker | apply setOpen_scroll_lock].
  - split; [apply setOpen_marker | apply setOpen_scroll_lock].
  - destruct (openSidebar_markers p) as (H1 & _ & H3). now split.
  - destruct (closeSidebar_markers p) as (H1 & _ & H3). now split.
  - apply openOverlay_markers.
  - apply closeOverlay_markers.
Qed.

Lemma apply_transition_in_sync c t p : in_sync c (apply_transition c t p).
Proof.
  unfold in_sync. destruct (apply_transition_sets c t p) as [H1 H2].
  now rewrite H1, H2.
Qed.

Lemma focus_in_sync c t p : in_sync c p -> in_sync c (focus t p).
Proof. destruct c; exact (fun H => H). Qed.

(** Every handler either leaves the page alone or ends with a transition
    of its own controller. *)
Lemma handle_in_sync c (e : event c) p : in_sync c p -> in_sync c (handle c e p).
Proof.
  intro Hp. destruct c; simpl in e |- *.
  - destruct e as [ | is_link | | key | wide ]; simpl.
    + destruct (siteNav_is_open p); simpl.
      * exact (apply_transition_in_sync Nav Close p).
      * exact (apply_transition_in_sync Nav Open p).
    + destruct is_link; [exact (apply_transition_in_sync Nav Close p) | exact Hp].
    + destruct (siteNav_is_open p);
        [exact (apply_transition_in_sync Nav Close p) | exact Hp].
    + destruct (String.eqb key "Escape" && siteNav_is_open p); [|exact Hp].
      apply focus_in_sync. exact (apply_transition_in_sync Nav Close p).
    + destruct (wide && siteNav_is_open p);
        [exact (apply_transition_in_sync Nav Close p) | exact Hp].
  - destruct e as [ | | | key | ]; simpl.
    + exact (apply_transition_in_sync Sidebar Open p).
    + exact (apply_transition_in_sync Sidebar Close p).
    + exact (apply_transition_in_sync Sidebar Close p).
    + destruct (String.eqb key "Escape" && sidebar_is_open p);
        [exact (apply_transition_in_sync Sidebar Close p) | exact Hp].
    + exact (apply_transition_in_sync Sidebar Close p).
  - destruct e as [ | | on_overlay | key | is_link ]; simpl.
    + destruct (overlay_is_open p);
        [exact (apply_transition_in_sync Sections Close p)
        |exact (apply_transition_in_sync Sections Open p)].
    + exact (apply_transition_in_sync Sections Close p).
    + destruct on_overlay;
        [exact (apply_transition_in_sync Sections Close p) | exact Hp].
    + destruct (String.eqb key "Escape" && overlay_is_open p);
        [exact (apply_transition_in_sync Sections Close p) | exact Hp].
    + destruct is_link;
        [exact (apply_transition_in_sync Sections Close p) | exact Hp].
Qed.

Lemma run_events_in_sync c (es : list (event c)) p :
  in_sync c p -> in_sync c (run_events c es p).
Proof.
  unfold run_events. revert p.
  induction es as [|e es IH]; intros p Hp; simpl; [exact Hp|].
  apply IH. now apply handle_in_sync.
Qed.

Lemma run_transitions_snoc c ts t p :
  run_transitions c (ts ++ [t]) p = apply_transition c t (run_transitions c ts p).
Proof. unfold run_transitions. now rewrite fold_left_app. Qed.

Lemma run_transitions_in_sync c ts p :
  ts <> [] -> in_sync c (run_transitions c ts p).
Proof.
  intro Hne. destruct (exists_last Hne) as (ts' & t & ->).
  rewrite run_transitions_snoc. apply apply_transition_in_sync.
Qed.

Example nav_toggle_twice :
  let p1 := nav_handle NavToggleClick closed_page in
  let p2 := nav_handle (NavKeydown "Escape") p1 in
  (siteNav_is_open p1, body_style_overflow p1, activeElement p1) =
    (true, "hidden"%string, Some NavFirstLink) /\
  (siteNav_is_open p2, body_style_overflow p2, activeElement p2) =
    (false, ""%string, Some NavToggle).
Proof. split; reflexivity. Qed.

(** C1: for each of the three panel controllers, opening sets the open
    marker class (on the sidebar and on its backdrop, for the sidebar) and
    the body scroll lock, closing clears both, and the marker and the
    lock agree after any non-empty sequence of the controller's
    transitions, and after any sequence of its events from a page where
    they agree. *)
Theorem panel_marker_and_scroll_lock_in_sync :
  (forall c p,
      open_marker c (apply_transition c Open p) = true /\
      scroll_locked (apply_transition c Open p) = true) /\
  (forall c p,
      open_marker c (apply_transition c Close p) = false /\
      scroll_locked (apply_transition c Close p) = false) /\
  (forall p,
      ClassList.contains "open" (backdrop_classList (openSidebar p)) = true /\
      ClassList.contains "open" (backdrop_classList (closeSidebar p)) = false) /\
  (forall c ts p, ts <> [] -> in_sync c (run_transitions c ts p)) /\
  (forall c (es : list (event c)) p,
      in_sync c p -> in_sync c (run_events c es p)).
Proof.
  split; [|split; [|split; [|split]]].
  - intros c p. apply (apply_transition_sets c Open p).
  - intros c p. apply (apply_transition_sets c Close p).
  - intro p. split.
    + apply openSidebar_markers.
    + apply closeSidebar_markers.
  - apply run_transitions_in_sync.
  - apply run_events_in_sync.
Qed.

Lemma panel_marker_and_scroll_lock_in_sync_witness :
  in_sync Sidebar (run_transitions Sidebar [Open; Close; Open] closed_page) /\
  in_sync Nav
    (run_events Nav [NavToggleClick; SiteNavClick false; NavKeydown "Escape"]
       closed_page).
Proof.
  destruct panel_marker_and_scroll_lock_in_sync as (_ & _ & _ & Hts & Hes).
  split.
  - apply Hts. discriminate.
  - apply (Hes Nav). reflexivity.
Defined.

(** The lock is one property of the body, shared by the three
    controllers: a transition of another controller can leave a panel
    open with the lock released. *)
Example lock_is_shared_between_controllers :
  let p := closeSidebar (setOpen true closed_page) in
  open_marker Nav p = true /\ scroll_locked p = false.
Proof. split; reflexivity. Qed.

End PanelsFacts.

(** ** Scroll reveal *)

Module RevealFacts.

Import Reveal.

Lemma is_reveal_add_visible e : is_reveal (add_visible e) = is_reveal e.
Proof.
  unfold is_reveal, add_visible. simpl.
  apply ClassListFacts.contains_add_other. discriminate.
Qed.

Lemma is_visible_add_visible e : is_visible (add_visible e) = true.
Proof. apply ClassListFacts.contains_add_same. Qed.

Lemma reveal_now_eid el : eid (reveal_now el) = eid el.
Proof. unfold reveal_now. now destruct (is_reveal el). Qed.

Lemma reveal_now_visible el :
  is_reveal (reveal_now el) = true -> is_visible (reveal_now el) = true.
Proof.
  unfold reveal_now. destruct (is_reveal el) eqn:E.
  - intros _. apply is_visible_add_visible.
  - rewrite E. discriminate.
Qed.

(** The fallback branch: every tagged element gets [visible], the
    elements keep their identity and order, no observer is created. *)
Lemma fallback_branch w d :
  negb (prefers_reduced_motion w) && has_IntersectionObserver w = false ->
  let d' := scroll_reveal w d in
  map eid (elements d') = map eid (elements d) /\
  (forall e, In e (elements d) -> is_reveal e = true ->
             exists e', In e' (elements d') /\ eid e' = eid e /\
                        is_visible e' = true) /\
  Forall (fun e' => is_reveal e' = true -> is_visible e' = true) (elements d') /\
  observers d' = observers d.
Proof.
  intros Hw d'. subst d'. unfold scroll_reveal. rewrite Hw. simpl.
  fold reveal_now. repeat split.
  - rewrite map_map. apply map_ext. apply reveal_now_eid.
  - intros e Hin Hr. exists (reveal_now e). repeat split.
    + now apply in_map.
    + apply reveal_now_eid.
    + unfold reveal_now. rewrite Hr. apply is_visible_add_visible.
  - apply Forall_forall. intros e' Hin.
    apply in_map_iff in Hin. destruct Hin as (e & <- & _).
    apply reveal_now_visible.
Qed.

(** With motion allowed and the API present nothing is revealed at
    initialization: one observer is created, on the tagged elements. *)
Lemma observer_branch d :
  let w := {| prefers_reduced_motion := false;
              has_IntersectionObserver := true |} in
  elements (scroll_reveal w d) = elements d /\
  observers (scroll_reveal w d) =
    observers d ++ [ {| observed := map eid (filter is_reveal (elements d)) |} ].
Proof. split; reflexivity. Qed.

(** C8: when the reduced-motion preference is set, initialization makes
    every element tagged for reveal visible, whether or not the observer
    API exists, and the block creates no observer, so that nothing is
    observed. *)
Theorem reduced_motion_reveals_all_without_observer :
  forall (api : bool) (d : document),
    let w := {| prefers_reduced_motion := true;
                has_IntersectionObserver := api |} in
    let d' := scroll_reveal w d in
    map eid (elements d') = map eid (elements d) /\
    (forall e, In e (elements d) -> is_reveal e = true ->
               exists e', In e' (elements d') /\ eid e' = eid e /\
                          is_visible e' = true) /\
    Forall (fun e' => is_reveal e' = true -> is_visible e' = true) (elements d') /\
    observers d' = observers d.
Proof. intros api d w. apply fallback_branch. reflexivity. Qed.

Lemma reduced_motion_reveals_all_without_observer_witness :
  (exists e',
      In e' (elements (scroll_reveal
                         {| prefers_reduced_motion := true;
                            has_IntersectionObserver := true |}
                         sample_document)) /\
      eid e' = 1 /\ is_visible e' = true) /\
  observers (scroll_reveal {| prefers_reduced_motion := true;
                              has_IntersectionObserver := true |}
                           sample_document) = [].
Proof.
  destruct (reduced_motion_reveals_all_without_observer true sample_document)
    as (_ & Hvis & _ & Hobs).
  split; [|exact Hobs].
  apply (Hvis {| eid := 1; classList := ["card"%string; "reveal"%string] |}).
  - now left.
  - reflexivity.
Defined.

(** C9: when the IntersectionObserver API is missing, initialization
    takes the same fallback: every element tagged for reveal is made
    visible, even with the reduced-motion preference unset. *)
Theorem missing_observer_api_reveals_all :
  forall (reduce : bool) (d : document),
    let w := {| prefers_reduced_motion := reduce;
                has_IntersectionObserver := false |} in
    let d' := scroll_reveal w d in
    map eid (elements d') = map eid (elements d) /\
    (forall e, In e (elements d) -> is_reveal e = true ->
               exists e', In e' (elements d') /\ eid e' = eid e /\
                          is_visible e' = true) /\
    Forall (fun e' => is_reveal e' = true -> is_visible e' = true) (elements d') /\
    observers d' = observers d /\
    scroll_reveal w d =
      scroll_reveal {| prefers_reduced_motion := true;
                       has_IntersectionObserver := false |} d.
Proof.
  intros reduce d w d'.
  assert (Hw : negb (prefers_reduced_motion w) && has_IntersectionObserver w
               = false) by (simpl; apply andb_false_r).
  destruct (fallback_branch w d Hw) as (H1 & H2 & H3 & H4).
  repeat split; try assumption.
  unfold scroll_reveal. simpl. now rewrite andb_false_r.
Qed.

Lemma missing_observer_api_reveals_all_witness :
  exists e',
    In e' (elements (scroll_reveal
                       {| prefers_reduced_motion := false;
                          has_IntersectionObserver := false |}
                       sample_document)) /\
    eid e' = 1 /\ is_visible e' = true.
Proof.
  destruct (missing_observer_api_reveals_all false sample_document)
    as (_ & Hvis & _).
  apply (Hvis {| eid := 1; classList := ["card"%string; "reveal"%string] |}).
  - now left.
  - reflexivity.
Defined.

End RevealFacts.

(** ** Back-to-top button *)

Module BackToTopFacts.

Import BackToTop.

Lemma js_gt_spec a b : js_gt a b = true <-> (b < a)%Q.
Proof.
  unfold js_gt. rewrite negb_true_iff.
  split; intro H.
  - apply Qnot_le_lt. intro Hle. apply Qle_bool_iff in Hle. congruence.
  - destruct (Qle_bool a b) eqn:E; [|reflexivity].
    apply Qle_bool_iff in E. exfalso. now apply (Qlt_not_le b a).
Qed.

Lemma fab_visible_update y st : fab_visible (update y st) = js_gt y threshold.
Proof. apply ClassListFacts.contains_toggle_same. Qed.

Lemma fab_visible_after_scroll y st :
  ticking st = false ->
  fab_visible (on_animation_frame y (onScroll st)) = js_gt y threshold.
Proof.
  intro H. unfold onScroll. rewrite H. unfold on_animation_frame.
  cbn [negb frames_requested]. apply fab_visible_update.
Qed.

(** C7: after [update] the button is visible exactly when the scroll
    offset is strictly greater than 480, whatever the state before: hidden
    at 479 and at 480, visible at 481. *)
Theorem back_to_top_visible_iff_offset_exceeds_480 :
  (forall (scrollY : Q) (st : state),
      fab_visible (update scrollY st) = true <-> (480 < scrollY)%Q) /\
  (forall st, fab_visible (update 479 st) = false) /\
  (forall st, fab_visible (update 480 st) = false) /\
  (forall st, fab_visible (update 481 st) = true) /\
  (forall scrollY, fab_visible (init scrollY) = true <-> (480 < scrollY)%Q) /\
  (forall scrollY st,
      fab_visible (on_animation_frame scrollY (onScroll (update 0 st))) = true
      <-> (480 < scrollY)%Q).
Proof.
  repeat split; try (intros; rewrite fab_visible_update; reflexivity).
  - rewrite fab_visible_update. apply js_gt_spec.
  - rewrite fab_visible_update. apply js_gt_spec.
  - unfold init. rewrite fab_visible_update. apply js_gt_spec.
  - unfold init. rewrite fab_visible_update. apply js_gt_spec.
  - rewrite fab_visible_after_scroll by reflexivity. apply js_gt_spec.
  - rewrite fab_visible_after_scroll by reflexivity. apply js_gt_spec.
Qed.

End BackToTopFacts.

(** ** Regular expressions: the matcher finds exactly the matches *)

Module RegexFacts.

Import Regex.

Lemma lang_void_inv s : ~ lang Void s.
Proof. intro H. inversion H. Qed.

Lemma lang_eps_inv s : lang Eps s -> s = [].
Proof. intro H. now inversion H. Qed.

Lemma lang_dot_inv s :
  lang Dot s -> exists c, s = [c] /\ is_line_terminator c = false.
Proof. intro H. inversion H; subst. eauto. Qed.

Lemma lang_chr_inv c s : lang (Chr c) s -> s = [c].
Proof. intro H. now inversion H. Qed.

Lemma lang_cat_inv r1 r2 s :
  lang (Cat r1 r2) s -> exists s1 s2, s = s1 ++ s2 /\ lang r1 s1 /\ lang r2 s2.
Proof. intro H. inversion H; subst. eauto. Qed.

Lemma lang_alt_inv r1 r2 s : lang (Alt r1 r2) s -> lang r1 s \/ lang r2 s.
Proof. intro H. inversion H; subst; auto. Qed.

Lemma nullable_spec r : nullable r = true <-> lang r [].
Proof.
  split.
  - induction r; simpl; intro H; try discriminate.
    + constructor.
    + apply andb_true_iff in H. destruct H as [H1 H2].
      change (@nil char16) with (@nil char16 ++ []). constructor; auto.
    + apply orb_true_iff in H. destruct H as [H|H].
      * apply lang_alt_l; auto.
      * apply lang_alt_r; auto.
    + constructor.
  - induction r; simpl; intro H.
    + now apply lang_void_inv in H.
    + reflexivity.
    + apply lang_dot_inv in H. destruct H as (c & H & _). discriminate.
    + apply lang_chr_inv in H. discriminate.
    + apply lang_cat_inv in H. destruct H as (s1 & s2 & E & H1 & H2).
      symmetry in E. apply app_eq_nil in E. destruct E; subst.
      rewrite IHr1, IHr2; auto.
    + apply lang_alt_inv in H. apply orb_true_iff.
      destruct H; [left|right]; auto.
    + reflexivity.
Qed.

Lemma deriv_sound c r : forall s, lang (deriv c r) s -> lang r (c :: s).
Proof.
  induction r; simpl; intros s H.
  - now apply lang_void_inv in H.
  - now apply lang_void_inv in H.
  - destruct (is_line_terminator c) eqn:E.
    + now apply lang_void_inv in H.
    + apply lang_eps_inv in H. subst. now constructor.
  - destruct (N.eqb c c0) eqn:E.
    + apply lang_eps_inv in H. apply N.eqb_eq in E. subst. constructor.
    + now apply lang_void_inv in H.
  - destruct (nullable r1) eqn:E.
    + apply lang_alt_inv in H. destruct H as [H|H].
      * apply lang_cat_inv in H. destruct H as (s1 & s2 & -> & H1 & H2).
        change (c :: s1 ++ s2) with ((c :: s1) ++ s2). constructor; auto.
      * change (c :: s) with ([] ++ c :: s). constructor; auto.
        now apply nullable_spec.
    + apply lang_cat_inv in H. destruct H as (s1 & s2 & -> & H1 & H2).
      change (c :: s1 ++ s2) with ((c :: s1) ++ s2). constructor; auto.
  - apply lang_alt_inv in H. destruct H; [apply lang_alt_l|apply lang_alt_r]; auto.
  - apply lang_cat_inv in H. destruct H as (s1 & s2 & -> & H1 & H2).
    change (c :: s1 ++ s2) with ((c :: s1) ++ s2). apply lang_star_app; auto.
Qed.

Lemma deriv_star_complete c r :
  (forall s, lang r (c :: s) -> lang (deriv c r) s) ->
  forall s, lang (Star r) (c :: s) -> lang (Cat (deriv c r) (Star r)) s.
Proof.
  intros IH s H.
  remember (Star r) as r' eqn:Er. remember (c :: s) as w eqn:Ew.
  revert s Ew. induction H; intros s' Ew; try discriminate.
  injection Er as ->. destruct s1 as [|c1 s1].
  - simpl in Ew. now apply IHlang2.
  - simpl in Ew. injection Ew as -> <-. constructor; auto.
Qed.

Lemma deriv_complete c r : forall s, lang r (c :: s) -> lang (deriv c r) s.
Proof.
  induction r; simpl; intros s H.
  - now apply lang_void_inv in H.
  - apply lang_eps_inv in H. discriminate.
  - apply lang_dot_inv in H. destruct H as (d & E & Hd).
    injection E as -> ->. rewrite Hd. constructor.
  - apply lang_chr_inv in H. injection H as -> ->.
    rewrite N.eqb_refl. constructor.
  - apply lang_cat_inv in H. destruct H as (s1 & s2 & E & H1 & H2).
    destruct s1 as [|c1 s1]; simpl in E.
    + subst s2. apply nullable_spec in H1. rewrite H1.
      apply lang_alt_r. auto.
    + injection E as E1 E2. subst c1 s.
      assert (Hc : lang (Cat (deriv c r1) r2) (s1 ++ s2))
        by (constructor; auto).
      destruct (nullable r1); [now apply lang_alt_l | exact Hc].
  - apply lang_alt_inv in H.
    destruct H; [apply lang_alt_l|apply lang_alt_r]; auto.
  - now apply deriv_star_complete.
Qed.

(** [match_here] succeeds exactly when a prefix of the string matches. *)
Lemma match_here_spec r s :
  match_here r s = true <-> exists p q, s = p ++ q /\ lang r p.
Proof.
  revert r. induction s as [|c s IH]; intro r; simpl.
  - rewrite orb_false_r, nullable_spec. split.
    + intro H. now exists [], [].
    + intros (p & q & E & H). symmetry in E. apply app_eq_nil in E.
      destruct E; now subst.
  - rewrite orb_true_iff, nullable_spec, IH. split.
    + intros [H | (p & q & -> & H)].
      * now exists [], (c :: s).
      * exists (c :: p), q. split; [reflexivity|]. now apply deriv_sound.
    + intros (p & q & E & H). destruct p as [|c1 p]; simpl in E.
      * now left.
      * injection E as -> ->. right. exists p, q. split; [reflexivity|].
        now apply deriv_complete.
Qed.

(** [test] succeeds exactly when some substring matches. *)
Lemma test_spec r s :
  test r s = true <-> exists pre p post, s = pre ++ p ++ post /\ lang r p.
Proof.
  induction s as [|c s IH]; simpl.
  - rewrite !orb_false_r, nullable_spec. split.
    + intro H. now exists [], [], [].
    + intros (pre & p & post & E & H).
      symmetry in E. apply app_eq_nil in E. destruct E as [_ E].
      apply app_eq_nil in E. destruct E; now subst.
  - rewrite orb_true_iff, IH.
    change (nullable r || match_here (deriv c r) s = true)
      with (match_here r (c :: s) = true).
    rewrite match_here_spec. split.
    + intros [(p & q & E & H) | (pre & p & post & -> & H)].
      * now exists [], p, q.
      * now exists (c :: pre), p, post.
    + intros (pre & p & post & E & H). destruct pre as [|c1 pre]; simpl in E.
      * left. now exists p, post.
      * injection E as -> ->. right. now exists pre, p, post.
Qed.

(** [.+] matches the non-empty runs without line terminators. *)
Lemma lang_star_dot s :
  lang (Star Dot) s <-> Forall (fun c => is_line_terminator c = false) s.
Proof.
  split.
  - intro H. remember (Star Dot) as r eqn:Er.
    induction H; try discriminate.
    + constructor.
    + injection Er as ->. apply lang_dot_inv in H.
      destruct H as (c & -> & Hc). simpl. constructor; auto.
  - induction 1 as [|c s Hc _ IH].
    + constructor.
    + change (c :: s) with ([c] ++ s). apply lang_star_app; auto.
      now constructor.
Qed.

Lemma lang_plus_dot s :
  lang (Plus Dot) s <->
  s <> [] /\ Forall (fun c => is_line_terminator c = false) s.
Proof.
  unfold Plus. split.
  - intro H. apply lang_cat_inv in H. destruct H as (s1 & s2 & -> & H1 & H2).
    apply lang_dot_inv in H1. destruct H1 as (c & -> & Hc).
    apply lang_star_dot in H2. split; [discriminate|].
    simpl. now constructor.
  - intros [Hne H]. destruct s as [|c s]; [congruence|].
    inversion H; subst. change (c :: s) with ([c] ++ s).
    constructor; [now constructor | now apply lang_star_dot].
Qed.

End RegexFacts.

(** ** Form validation: strings *)

Module FormsStringFacts.

Import Forms.

Lemma trimStart_blank s : trimStart s = [] <-> blank s.
Proof.
  unfold blank. induction s as [|c s IH]; simpl.
  - split; [constructor | reflexivity].
  - destruct (is_white c) eqn:E.
    + rewrite IH. split; intro H; [now constructor | now inversion H].
    + split; [discriminate|]. intro H. inversion H; congruence.
Qed.

Lemma trimStart_head s c t : trimStart s = c :: t -> is_white c = false.
Proof.
  induction s as [|x s IH]; simpl; [discriminate|].
  destruct (is_white x) eqn:E; [exact IH|].
  intro H. injection H as -> _. exact E.
Qed.

Lemma trimStart_split s : exists l, s = l ++ trimStart s /\ blank l.
Proof.
  induction s as [|x s (l & E & Hl)]; simpl.
  - exists []. split; [reflexivity | constructor].
  - destruct (is_white x) eqn:Ex.
    + exists (x :: l). split; [simpl; now f_equal | now constructor].
    + exists []. split; [reflexivity | constructor].
Qed.

Lemma trimStart_app u c v :
  is_white c = false -> trimStart (u ++ c :: v) = trimStart u ++ c :: v.
Proof.
  intro Hc. induction u as [|x u IH]; simpl.
  - now rewrite Hc.
  - destruct (is_white x); [exact IH | reflexivity].
Qed.

Lemma blank_rev s : blank (rev s) <-> blank s.
Proof.
  unfold blank. split; intro H.
  - rewrite <- (rev_involutive s). now apply Forall_rev.
  - now apply Forall_rev.
Qed.

(** Nothing is left after trimming exactly when the value is blank. *)
Lemma trim_blank s : trim s = [] <-> blank s.
Proof.
  unfold trim, trimEnd. split.
  - intro H. apply (f_equal (@rev _)) in H. rewrite rev_involutive in H.
    simpl in H. apply trimStart_blank in H.
    apply (proj1 (blank_rev _)) in H.
    destruct (trimStart s) as [|c t] eqn:E.
    + now apply trimStart_blank.
    + apply trimStart_head in E. unfold blank in H.
      inversion H as [|? ? Hc _]. simpl in Hc. congruence.
  - intro H. apply trimStart_blank in H. now rewrite H.
Qed.

(** [trim] removes a blank prefix and a blank suffix, and what is left
    neither starts nor ends with white space. *)
Lemma trim_spec s :
  exists l r,
    s = l ++ trim s ++ r /\ blank l /\ blank r /\
    (forall c t, trim s = c :: t -> is_white c = false) /\
    (forall t c, trim s = t ++ [c] -> is_white c = false).
Proof.
  destruct (trimStart_split s) as (l & El & Hl).
  destruct (trimStart_split (rev (trimStart s))) as (r' & Er & Hr).
  exists l, (rev r'). unfold trim, trimEnd.
  assert (Emid : trimStart s = rev (trimStart (rev (trimStart s))) ++ rev r').
  { rewrite <- rev_app_distr, <- Er. now rewrite rev_involutive. }
  repeat split.
  - now rewrite <- Emid.
  - exact Hl.
  - now apply blank_rev.
  - intros c t E.
    destruct (trimStart s) as [|x u] eqn:Es.
    + simpl in E. discriminate.
    + pose proof (trimStart_head _ _ _ Es) as Hx.
      simpl in E. rewrite trimStart_app in E by exact Hx.
      rewrite rev_app_distr in E. simpl in E. injection E as <- _. exact Hx.
  - intros t c E.
    apply (f_equal (@rev _)) in E. rewrite rev_involutive, rev_app_distr in E.
    simpl in E. now apply trimStart_head in E.
Qed.

Lemma truthy_trim s : negb (truthy (trim s)) = true <-> blank s.
Proof. rewrite negb_true_iff, truthy_false_iff. apply trim_blank. Qed.

Lemma js_lt_length s z :
  js_lt (js_length s) (JFin (inject_Z z)) = (Z.of_nat (List.length s) <? z)%Z.
Proof.
  unfold js_lt, js_length.
  destruct (Qle_bool (inject_Z z) (inject_Z (Z.of_nat (List.length s)))) eqn:E.
  - apply Qle_bool_iff in E. rewrite <- Zle_Qle in E. simpl.
    symmetry. apply Z.ltb_ge. exact E.
  - simpl. symmetry. apply Z.ltb_lt.
    destruct (Z.lt_ge_cases (Z.of_nat (List.length s)) z) as [H|H]; [exact H|].
    rewrite Zle_Qle in H. apply Qle_bool_iff in H. congruence.
Qed.

(** *** The email pattern *)

Lemma email_pattern_lang p :
  Regex.lang email_pattern p <->
  exists a b c, p = a ++ [64%N] ++ b ++ [46%N] ++ c /\
                text_run a /\ text_run b /\ text_run c.
Proof.
  unfold email_pattern, text_run. split.
  - intro H.
    apply RegexFacts.lang_cat_inv in H. destruct H as (a & p1 & -> & Ha & H).
    apply RegexFacts.lang_cat_inv in H. destruct H as (x & p2 & -> & Hx & H).
    apply RegexFacts.lang_cat_inv in H. destruct H as (b & p3 & -> & Hb & H).
    apply RegexFacts.lang_cat_inv in H. destruct H as (y & c & -> & Hy & Hc).
    apply RegexFacts.lang_chr_inv in Hx, Hy. subst x y.
    apply RegexFacts.lang_plus_dot in Ha, Hb, Hc.
    now exists a, b, c.
  - intros (a & b & c & -> & Ha & Hb & Hc).
    apply RegexFacts.lang_plus_dot in Ha, Hb, Hc.
    repeat (constructor; auto).
Qed.

(** The pattern test of the validator decides the shape. *)
Lemma email_test_shape v :
  Regex.test email_pattern v = true <-> email_shape v.
Proof.
  rewrite RegexFacts.test_spec. unfold email_shape. split.
  - intros (pre & p & post & -> & H).
    apply email_pattern_lang in H. destruct H as (a & b & c & -> & Ha & Hb & Hc).
    exists pre, a, b, c, post. split; [|auto].
    f_equal. now rewrite <- !app_assoc.
  - intros (pre & a & b & c & post & -> & Ha & Hb & Hc).
    exists pre, (a ++ [64%N] ++ b ++ [46%N] ++ c), post. split.
    + f_equal. now rewrite <- !app_assoc.
    + apply email_pattern_lang. now exists a, b, c.
Qed.

Lemma email_shape_has_at v : email_shape v -> In 64%N v.
Proof.
  intros (pre & a & b & c & post & -> & _).
  apply in_or_app. right. apply in_or_app. right. now left.
Qed.

Lemma blank_no_at v : blank v -> ~ In 64%N v.
Proof.
  unfold blank. intros H Hin.
  rewrite Forall_forall in H. apply H in Hin. discriminate.
Qed.

End FormsStringFacts.

(** ** Form validation: the validators *)

Module ValidatorFacts.

Import Forms.

Lemma validators_email_cases f :
  validators_email f =
    match value f with
    | [] => msg_email_required
    | _ :: _ =>
        if Regex.test email_pattern (value f) then [] else msg_email_invalid
    end.
Proof. unfold validators_email. now destruct (value f). Qed.

(** C3: the email validator answers "required" for the empty value;
    for any other value it answers the invalid-format message exactly when
    the value does not have the loose text@text.text shape, and nothing
    when it has: ["a@b"] is invalid, ["a@b.com"] passes. *)
Theorem email_validator_required_else_shape :
  forall f : element,
    (value f = [] -> validators_email f = msg_email_required) /\
    (value f <> [] ->
       (email_shape (value f) -> validators_email f = []) /\
       (validators_email f = msg_email_invalid <-> ~ email_shape (value f))) /\
    (value f = str "a@b" -> validators_email f = msg_email_invalid) /\
    (value f = str "a@b.com" -> validators_email f = []) /\
    (forall Number, kind f = Input Email ->
                    run_validator Number f = validators_email f).
Proof.
  intro f. rewrite validators_email_cases. repeat split.
  - intros ->. reflexivity.
  - intros Hs. destruct (value f); [congruence|].
    apply FormsStringFacts.email_test_shape in Hs. now rewrite Hs.
  - intros Hr Hs. destruct (value f) as [|c v]; [congruence|].
    apply FormsStringFacts.email_test_shape in Hs. rewrite Hs in Hr.
    discriminate Hr.
  - intros Hs. destruct (value f) as [|c v] eqn:E; [congruence|].
    destruct (Regex.test email_pattern (c :: v)) eqn:T; [|reflexivity].
    apply FormsStringFacts.email_test_shape in T. contradiction.
  - intros ->. reflexivity.
  - intros ->. reflexivity.
  - intros Number Hk. unfold run_validator, validator_name. rewrite Hk.
    simpl. apply validators_email_cases.
Qed.

Lemma email_validator_required_else_shape_witness :
  validators_email (control 1 0 (Input Email) true None (str "a@b"))
    = msg_email_invalid /\
  validators_email (control 1 0 (Input Email) true None (str "a@b.com")) = [] /\
  validators_email (control 1 0 (Input Email) true None []) = msg_email_required.
Proof.
  split; [|split].
  - apply (email_validator_required_else_shape
             (control 1 0 (Input Email) true None (str "a@b"))).
    reflexivity.
  - apply (email_validator_required_else_shape
             (control 1 0 (Input Email) true None (str "a@b.com"))).
    reflexivity.
  - apply (email_validator_required_else_shape
             (control 1 0 (Input Email) true None [])).
    reflexivity.
Defined.

(** C10: the email validator reads nothing but the raw value: a value
    made of white space only is not empty and gets the invalid-format
    message, the empty value gets "required" whether or not the field is
    required. *)
Theorem email_validator_no_trim_no_required :
  (forall f, value f <> [] -> blank (value f) ->
             validators_email f = msg_email_invalid) /\
  (forall f, value f = [] -> validators_email f = msg_email_required) /\
  (forall f g, value f = value g -> validators_email f = validators_email g) /\
  validators_email (control 1 0 (Input Email) false None []) = msg_email_required /\
  validators_email (control 1 0 (Input Email) true None (str "   "))
    = msg_email_invalid.
Proof.
  repeat split.
  - intros f Hne Hb. rewrite validators_email_cases.
    destruct (value f) as [|c v] eqn:E; [congruence|].
    destruct (Regex.test email_pattern (c :: v)) eqn:T; [|reflexivity].
    apply FormsStringFacts.email_test_shape in T.
    apply FormsStringFacts.email_shape_has_at in T.
    now apply FormsStringFacts.blank_no_at in Hb.
  - intros f E. rewrite validators_email_cases. now rewrite E.
  - intros f g E. rewrite !validators_email_cases. now rewrite E.
Qed.

Lemma email_validator_no_trim_no_required_witness :
  validators_email (control 7 2 (Input Email) false None (str " ")) =
    msg_email_invalid /\
  validators_email (control 7 2 (Input Email) false None []) =
    msg_email_required.
Proof.
  destruct email_validator_no_trim_no_required as (Hws & Hempty & _).
  split.
  - apply Hws; [discriminate|]. repeat constructor.
  - apply Hempty. reflexivity.
Defined.

Section Textarea.

Variable Number : jsstring -> jsnum.

Lemma validators_textarea_cases f :
  validators_textarea Number f =
    if required f && negb (truthy (trim (value f))) then msg_message_required
    else match minlength f with
         | Some m =>
             if truthy m && js_lt (js_length (trim (value f))) (Number m)
             then msg_too_short m else []
         | None => []
         end.
Proof. reflexivity. Qed.

Lemma required_blank_test f :
  required f && negb (truthy (trim (value f))) = true <->
  required f = true /\ blank (value f).
Proof.
  rewrite andb_true_iff. now rewrite FormsStringFacts.truthy_trim.
Qed.

Lemma run_validator_textarea f :
  kind f = Textarea -> run_validator Number f = validators_textarea Number f.
Proof.
  intro Hk. unfold run_validator, validator_name. now rewrite Hk.
Qed.

(** C4: the textarea validator answers "required" for a required field
    whose value is blank; otherwise "too short" when [minlength] is set
    and the trimmed length is below its number; otherwise nothing.  With
    [required] and [minlength="10"]: ["short"] is too short, ten or more
    trimmed characters pass, the empty value is "required". *)
Theorem textarea_validator_required_then_minlength :
  forall f : element,
    (required f = true -> blank (value f) ->
       validators_textarea Number f = msg_message_required) /\
    (~ (required f = true /\ blank (value f)) ->
       forall m, minlength f = Some m -> m <> [] ->
         js_lt (js_length (trim (value f))) (Number m) = true ->
         validators_textarea Number f = msg_too_short m) /\
    (~ (required f = true /\ blank (value f)) ->
       (minlength f = None \/ minlength f = Some [] \/
        exists m, minlength f = Some m /\
                  js_lt (js_length (trim (value f))) (Number m) = false) ->
       validators_textarea Number f = []) /\
    (Number (str "10") = JFin 10 ->
     required f = true -> minlength f = Some (str "10") ->
       (value f = str "short" ->
          validators_textarea Number f
            = str "Please write at least 10 characters.") /\
       (10 <= List.length (trim (value f)) ->
          validators_textarea Number f = []) /\
       (value f = [] -> validators_textarea Number f = msg_message_required)) /\
    (kind f = Textarea ->
       run_validator Number f = validators_textarea Number f).
Proof.
  intro f. pose proof (run_validator_textarea f) as Hd.
  rewrite validators_textarea_cases.
  destruct (required f && negb (truthy (trim (value f)))) eqn:Hrb.
  - destruct (proj1 (required_blank_test f) Hrb) as [Hr Hb].
    split; [|split; [|split; [|split]]].
    + reflexivity.
    + intro Hn. exfalso. now apply Hn.
    + intro Hn. exfalso. now apply Hn.
    + intros _ _ _. split; [|split].
      * intro Hv. rewrite Hv in Hb. exfalso.
        inversion Hb as [|? ? Hc _]. discriminate Hc.
      * intro Hlen. apply FormsStringFacts.trim_blank in Hb.
        rewrite Hb in Hlen. simpl in Hlen. lia.
      * reflexivity.
    + intro Hk. now rewrite (Hd Hk), validators_textarea_cases, Hrb.
  - assert (Hnot : ~ (required f = true /\ blank (value f))).
    { intro H. apply required_blank_test in H. congruence. }
    split; [|split; [|split; [|split]]].
    + intros Hr Hb. exfalso. now apply Hnot.
    + intros _ m Hm Hne Hlt. rewrite Hm. apply truthy_true_iff in Hne.
      now rewrite Hne, Hlt.
    + intros _ [Hm | [Hm | (m & Hm & Hlt)]]; rewrite Hm; try reflexivity.
      rewrite Hlt. now rewrite andb_false_r.
    + intros HN Hr Hm. rewrite Hm, HN. split; [|split].
      * intro Hv. rewrite Hv. reflexivity.
      * intro Hlen. change (JFin 10) with (JFin (inject_Z 10)).
        rewrite FormsStringFacts.js_lt_length.
        replace (Z.of_nat (List.length (trim (value f))) <? 10)%Z with false
          by (symmetry; apply Z.ltb_ge; lia).
        reflexivity.
      * intro Hv. exfalso. apply Hnot. split; [exact Hr|].
        rewrite Hv. constructor.
    + intro Hk. now rewrite (Hd Hk), validators_textarea_cases, Hrb.
Qed.

End Textarea.

Lemma textarea_validator_required_then_minlength_witness :
  validators_textarea Number_of_digits
    (control 3 1 Textarea true (Some (str "10")) (str "short"))
    = str "Please write at least 10 characters." /\
  validators_textarea Number_of_digits
    (control 3 1 Textarea true (Some (str "10")) (str "  long enough  ")) = [] /\
  validators_textarea Number_of_digits
    (control 3 1 Textarea true (Some (str "10")) (str "  ")) = msg_message_required.
Proof.
  split; [|split].
  - destruct (textarea_validator_required_then_minlength Number_of_digits
                (control 3 1 Textarea true (Some (str "10")) (str "short")))
      as (_ & _ & _ & H & _).
    destruct H as (H & _); [reflexivity ..|]. apply H. reflexivity.
  - destruct (textarea_validator_required_then_minlength Number_of_digits
                (control 3 1 Textarea true (Some (str "10"))
                   (str "  long enough  ")))
      as (_ & _ & _ & H & _).
    destruct H as (_ & H & _); [reflexivity ..|]. apply H.
    vm_compute. lia.
  - destruct (textarea_validator_required_then_minlength Number_of_digits
                (control 3 1 Textarea true (Some (str "10")) (str "  ")))
      as (H & _).
    apply H; [reflexivity|]. repeat constructor.
Defined.

End ValidatorFacts.

(** ** Form validation: the elements of the form *)

Module DomFacts.

Import Forms.

(** *** Lists *)

Lemma filter_all {A : Type} (p : A -> bool) (l : list A) :
  Forall (fun x => p x = true) l -> filter p l = l.
Proof.
  induction 1 as [|x l Hx _ IH]; simpl; [reflexivity|].
  now rewrite Hx, IH.
Qed.

Lemma filter_map_commute {A B : Type} (h : A -> B) (p : A -> bool)
  (q : B -> bool) (l : list A) :
  (forall x, q (h x) = p x) -> filter q (map h l) = map h (filter p l).
Proof.
  intro H. induction l as [|x l IH]; simpl; [reflexivity|].
  rewrite H. destruct (p x); simpl; now rewrite IH.
Qed.

Lemma filter_filter_weaker {A : Type} (p q : A -> bool) (l : list A) :
  (forall x, p x = true -> q x = true) -> filter p (filter q l) = filter p l.
Proof.
  intro H. induction l as [|x l IH]; simpl; [reflexivity|].
  destruct (q x) eqn:Eq; simpl.
  - now rewrite IH.
  - destruct (p x) eqn:Ep; [|exact IH].
    apply H in Ep. congruence.
Qed.

Lemma find_filter_weaker {A : Type} (p q : A -> bool) (l : list A) :
  (forall x, p x = true -> q x = true) -> find p (filter q l) = find p l.
Proof.
  intro H. induction l as [|x l IH]; simpl; [reflexivity|].
  destruct (q x) eqn:Eq; simpl.
  - now rewrite IH.
  - destruct (p x) eqn:Ep; [|exact IH].
    apply H in Ep. congruence.
Qed.

Lemma find_map_commute {A B : Type} (h : A -> B) (p : A -> bool)
  (q : B -> bool) (l : list A) :
  (forall x, q (h x) = p x) -> find q (map h l) = option_map h (find p l).
Proof.
  intro H. induction l as [|x l IH]; simpl; [reflexivity|].
  rewrite H. now destruct (p x).
Qed.

Lemma cons_eq_inv {A : Type} (a b : A) (l l' : list A) :
  a :: l = b :: l' -> a = b /\ l = l'.
Proof. intro H. now injection H. Qed.

Lemma pair_eq_inv {A B : Type} (a a' : A) (b b' : B) :
  (a, b) = (a', b') -> a = a' /\ b = b'.
Proof. intro H. now injection H. Qed.

Lemma find_map_eq {A B C : Type} (f : A -> C) (g : B -> C) (P : C -> bool)
  (l : list A) (l0 : list B) :
  map f l = map g l0 ->
  option_map f (find (fun a => P (f a)) l)
  = option_map g (find (fun b => P (g b)) l0).
Proof.
  revert l0. induction l as [|a l IH]; intros [|b l0] H; simpl in *;
    try discriminate; [reflexivity|].
  apply cons_eq_inv in H. destruct H as [Hab Hl].
  rewrite Hab. destruct (P (g b)); simpl; [now rewrite Hab | now apply IH].
Qed.

Lemma find_ext_in {A : Type} (p q : A -> bool) (l : list A) :
  (forall x, In x l -> p x = q x) -> find p l = find q l.
Proof.
  induction l as [|x l IH]; simpl; intro H; [reflexivity|].
  rewrite (H x (or_introl eq_refl)).
  destruct (q x); [reflexivity|]. apply IH. intros y Hy. apply H. now right.
Qed.

Lemma NoDup_insert {A : Type} (a : A) (l1 l2 : list A) :
  NoDup (l1 ++ l2) -> ~ In a (l1 ++ l2) -> NoDup (l1 ++ a :: l2).
Proof.
  intros Hnd Hin. apply NoDup_Add with (a := a) (l := l1 ++ l2).
  - apply Add_app.
  - now split.
Qed.

(** *** Identity *)

Lemma find_el_some id l e : find_el id l = Some e -> In e l /\ eid e = id.
Proof.
  unfold find_el. intro H. apply find_some in H.
  destruct H as [Hin He]. apply andb_true_iff in He.
  split; [exact Hin|]. now apply Nat.eqb_eq.
Qed.

Lemma find_el_live id l e : find_el id l = Some e -> removed e = false.
Proof.
  unfold find_el. intro H. apply find_some in H.
  destruct H as [_ He]. apply andb_true_iff in He.
  now apply negb_true_iff.
Qed.

Lemma find_el_unique id l f e :
  NoDup (map eid l) -> find_el id l = Some f -> In e l -> eid e = id -> e = f.
Proof.
  intros Hnd Hf Hin He. destruct (find_el_some _ _ _ Hf) as [Hfin Hfid].
  clear Hf. induction l as [|x l IH]; simpl in *; [contradiction|].
  inversion Hnd as [|? ? Hx Hnd']; subst.
  destruct Hin as [->|Hin]; destruct Hfin as [->|Hfin]; auto.
  - exfalso. apply Hx. rewrite <- Hfid. now apply in_map.
  - exfalso. apply Hx. rewrite Hfid. now apply in_map.
Qed.

Lemma find_el_self e l :
  NoDup (map eid l) -> In e l -> removed e = false ->
  find_el (eid e) l = Some e.
Proof.
  unfold find_el. induction l as [|x l IH]; simpl; intros Hnd Hin Hr;
    [contradiction|].
  inversion Hnd as [|? ? Hx Hnd']; subst.
  destruct Hin as [->|Hin].
  - now rewrite Nat.eqb_refl, Hr.
  - replace (eid x =? eid e) with false; [now apply IH|].
    symmetry. apply Nat.eqb_neq. intro Heq. apply Hx. rewrite Heq.
    now apply in_map.
Qed.

(** Without a live element of that identity nothing is found. *)
Lemma find_el_none id l :
  find_el id l = None <->
  forall e, In e l -> eid e = id -> removed e = true.
Proof.
  unfold find_el. split.
  - intros H e Hin He. apply (find_none _ _ H) in Hin.
    rewrite He, Nat.eqb_refl in Hin. simpl in Hin.
    now apply negb_false_iff.
  - intro H. induction l as [|x l IH]; simpl; [reflexivity|].
    destruct (eid x =? id) eqn:E; simpl.
    + apply Nat.eqb_eq in E. rewrite (H x (or_introl eq_refl) E). simpl.
      apply IH. intros e Hin. apply H. now right.
    + apply IH. intros e Hin. apply H. now right.
Qed.

Lemma find_el_map id (h : element -> element) l :
  (forall e, eid (h e) = eid e) -> (forall e, removed (h e) = removed e) ->
  find_el id (map h l) = option_map h (find_el id l).
Proof.
  intros H Hr. unfold find_el. apply find_map_commute.
  intro x. now rewrite H, Hr.
Qed.

Lemma map_eid_map (h : element -> element) l :
  (forall e, eid (h e) = eid e) -> map eid (map h l) = map eid l.
Proof. intro H. rewrite map_map. now apply map_ext. Qed.

(** *** Subtrees and siblings *)

Lemma split_subtree_app d l :
  fst (split_subtree d l) ++ snd (split_subtree d l) = l.
Proof.
  induction l as [|e l IH]; simpl; [reflexivity|].
  destruct (d <? depth e); [|reflexivity].
  destruct (split_subtree d l) as [inside after]. simpl in *. now f_equal.
Qed.

Lemma split_subtree_map d (h : element -> element) l :
  (forall e, depth (h e) = depth e) ->
  split_subtree d (map h l) =
    (map h (fst (split_subtree d l)), map h (snd (split_subtree d l))).
Proof.
  intro H. induction l as [|e l IH]; simpl; [reflexivity|].
  rewrite H. destruct (d <? depth e); [|reflexivity].
  rewrite IH. now destruct (split_subtree d l).
Qed.

Lemma split_subtree_fst_deeper d l :
  Forall (fun e => d < depth e) (fst (split_subtree d l)).
Proof.
  induction l as [|e l IH]; simpl; [constructor|].
  destruct (d <? depth e) eqn:E; [|constructor].
  destruct (split_subtree d l) as [inside after]. simpl in *.
  constructor; [now apply Nat.ltb_lt | exact IH].
Qed.

Lemma split_subtree_snd_head d l : shallow_head d (snd (split_subtree d l)).
Proof.
  induction l as [|e l IH]; simpl; [exact I|].
  destruct (d <? depth e) eqn:E.
  - destruct (split_subtree d l) as [inside after]. simpl in *. exact IH.
  - simpl. now apply Nat.ltb_ge.
Qed.

(** A run of deeper elements followed by one that is not is split where
    the run ends. *)
Lemma split_subtree_exact d P R :
  Forall (fun e => d < depth e) P -> shallow_head d R ->
  split_subtree d (P ++ R) = (P, R).
Proof.
  intros HP HR. induction HP as [|e P He _ IH]; simpl.
  - destruct R as [|y R]; simpl in *; [reflexivity|].
    replace (d <? depth y) with false by (symmetry; apply Nat.ltb_ge; lia).
    reflexivity.
  - apply Nat.ltb_lt in He. now rewrite He, IH.
Qed.

(** Inserting an element that is not deeper right after the subtree
    makes it the first element after the subtree. *)
Lemma split_subtree_insert d l x :
  depth x <= d ->
  split_subtree d (fst (split_subtree d l) ++ x :: snd (split_subtree d l)) =
    (fst (split_subtree d l), x :: snd (split_subtree d l)).
Proof.
  intro Hx. apply split_subtree_exact.
  - apply split_subtree_fst_deeper.
  - exact Hx.
Qed.

Lemma next_sibling_some d after s :
  next_sibling d after = Some s ->
  In s after /\ depth s = d /\ removed s = false.
Proof.
  induction after as [|x after IH]; simpl; [discriminate|].
  destruct (d <? depth x).
  - intro H. destruct (IH H) as (Hin & Hd & Hr). now repeat split; [right| |].
  - destruct (depth x =? d) eqn:E; [|discriminate].
    destruct (removed x) eqn:R.
    + intro H. destruct (IH H) as (Hin & Hd & Hr).
      now repeat split; [right| |].
    + intro H. injection H as <-.
      repeat split; [now left | now apply Nat.eqb_eq | exact R].
Qed.

Lemma next_sibling_map d (h : element -> element) after :
  (forall e, depth (h e) = depth e) -> (forall e, removed (h e) = removed e) ->
  next_sibling d (map h after) = option_map h (next_sibling d after).
Proof.
  intros H Hr. induction after as [|x after IH]; simpl; [reflexivity|].
  rewrite H, Hr. destruct (d <? depth x); [exact IH|].
  destruct (depth x =? d); [|reflexivity].
  now destruct (removed x).
Qed.

(** Searching through [P ++ R] either ends inside [P], or steps over
    all of [P]. *)
Lemma next_sibling_app_cases d P :
  (exists r, forall R, next_sibling d (P ++ R) = r) \/
  (Forall (stepped_over d) P /\
   forall R, next_sibling d (P ++ R) = next_sibling d R).
Proof.
  induction P as [|e P IH]; simpl.
  - right. split; [constructor | reflexivity].
  - destruct (d <? depth e) eqn:E.
    + destruct IH as [(r & H) | (Hall & H)]; [left; now exists r|].
      right. split; [|exact H]. constructor; [|exact Hall].
      left. now apply Nat.ltb_lt.
    + destruct (depth e =? d) eqn:E2.
      * destruct (removed e) eqn:R.
        -- destruct IH as [(r & H) | (Hall & H)]; [left; now exists r|].
           right. split; [|exact H]. constructor; [|exact Hall].
           right. split; [now apply Nat.eqb_eq | exact R].
        -- left. now exists (Some e).
      * left. now exists None.
Qed.

Lemma next_sibling_deeper d P R :
  Forall (fun e => d < depth e) P ->
  next_sibling d (P ++ R) = next_sibling d R.
Proof.
  intro H. induction H as [|e P He _ IH]; simpl; [reflexivity|].
  apply Nat.ltb_lt in He. now rewrite He.
Qed.

(** The search passes the subtree by itself. *)
Lemma next_sibling_skip d l :
  next_sibling d (snd (split_subtree d l)) = next_sibling d l.
Proof.
  rewrite <- (split_subtree_app d l) at 2.
  symmetry. apply next_sibling_deeper, split_subtree_fst_deeper.
Qed.

Lemma next_sibling_shallow d d' R :
  d' < d -> shallow_head d' R -> next_sibling d R = None.
Proof.
  intros Hd HR. destruct R as [|y R]; simpl in *; [reflexivity|].
  replace (d <? depth y) with false by (symmetry; apply Nat.ltb_ge; lia).
  replace (depth y =? d) with false by (symmetry; apply Nat.eqb_neq; lia).
  reflexivity.
Qed.

(** An element inserted among the followers of an element of depth [d]
    does not change its next sibling, when the inserted element is deeper
    than [d] in case the search gets as far. *)
Lemma next_sibling_insert d P Q x :
  (Forall (stepped_over d) P -> d < depth x) ->
  next_sibling d (P ++ x :: Q) = next_sibling d (P ++ Q).
Proof.
  intro Hx. destruct (next_sibling_app_cases d P) as [(r & H) | (Hall & H)].
  - now rewrite !H.
  - rewrite !H. simpl. apply Hx in Hall. apply Nat.ltb_lt in Hall.
    now rewrite Hall.
Qed.

Lemma nextElementSibling_map field (h : element -> element) l :
  (forall e, eid (h e) = eid e) -> (forall e, depth (h e) = depth e) ->
  (forall e, removed (h e) = removed e) ->
  nextElementSibling field (map h l) =
    option_map h (nextElementSibling field l).
Proof.
  intros He Hd Hr. induction l as [|e l IH]; simpl; [reflexivity|].
  rewrite He, Hd, Hr. destruct (eid e =? field); [|exact IH].
  destruct (removed e); [reflexivity|].
  rewrite split_subtree_map by exact Hd. simpl.
  now apply next_sibling_map.
Qed.

Lemma nextElementSibling_found field l s :
  nextElementSibling field l = Some s -> exists f, find_el field l = Some f.
Proof.
  unfold find_el. induction l as [|x l IH]; simpl; intro H; [discriminate|].
  destruct (eid x =? field); simpl; [|now apply IH].
  destruct (removed x); [discriminate|]. now exists x.
Qed.

Lemma nextElementSibling_other field l s :
  NoDup (map eid l) -> nextElementSibling field l = Some s ->
  In s l /\ eid s <> field /\ removed s = false.
Proof.
  induction l as [|e l IH]; simpl; intros Hnd H; [discriminate|].
  inversion Hnd as [|? ? He Hnd']; subst.
  destruct (eid e =? field) eqn:E.
  - destruct (removed e); [discriminate|].
    rewrite next_sibling_skip in H.
    apply next_sibling_some in H. destruct H as (Hin & _ & Hr).
    split; [now right|]. split; [|exact Hr].
    apply Nat.eqb_eq in E. intro Hs. apply He. rewrite E, <- Hs.
    now apply in_map.
  - destruct (IH Hnd' H) as (Hin & Hne & Hr).
    split; [now right | now split].
Qed.

(** *** Removing the children of an element *)

Lemma detach_kept d e : kept_or_removed e (detach d e).
Proof.
  unfold detach, kept_or_removed. destruct (depth e =? S d); [|now left].
  destruct (removed e) eqn:R; [|now right].
  left. destruct e. simpl in R. now subst.
Qed.

Lemma remove_children_kept id l :
  Forall2 kept_or_removed l (remove_children id l).
Proof.
  assert (Hrefl : forall l0, Forall2 kept_or_removed l0 l0).
  { induction l0; constructor; [now left | assumption]. }
  induction l as [|e l IH]; simpl; [constructor|].
  destruct (eid e =? id).
  - pose proof (split_subtree_app (depth e) l) as Happ.
    destruct (split_subtree (depth e) l) as [inside after]. simpl in Happ.
    constructor; [now left|]. rewrite <- Happ.
    apply Forall2_app; [|apply Hrefl].
    clear. induction inside; simpl; constructor;
      [apply detach_kept | assumption].
  - constructor; [now left | exact IH].
Qed.

Lemma kept_eid e e' : kept_or_removed e e' -> eid e' = eid e.
Proof. now intros [->|[-> _]]. Qed.

Lemma kept_depth e e' : kept_or_removed e e' -> depth e' = depth e.
Proof. now intros [->|[-> _]]. Qed.

Lemma kept_live e e' :
  kept_or_removed e e' -> removed e' = false -> e' = e.
Proof. intros [->|[-> _]]; [reflexivity | discriminate]. Qed.

Lemma kept_map {A : Type} (f : element -> A) l l' :
  (forall e e', kept_or_removed e e' -> f e' = f e) ->
  Forall2 kept_or_removed l l' -> map f l' = map f l.
Proof.
  intros Hf H. induction H as [|e e' l l' He _ IH]; simpl; [reflexivity|].
  now rewrite (Hf e e' He), IH.
Qed.

Lemma remove_children_eid id l :
  map eid (remove_children id l) = map eid l.
Proof. apply (kept_map eid), remove_children_kept. apply kept_eid. Qed.

Lemma remove_children_length id l :
  List.length (remove_children id l) = List.length l.
Proof.
  rewrite <- (length_map eid), remove_children_eid. apply length_map.
Qed.

(** Whatever is found after the removal was there before, unchanged. *)
Lemma kept_find_el id l l' e :
  NoDup (map eid l) ->
  Forall2 kept_or_removed l l' -> find_el id l' = Some e ->
  find_el id l = Some e.
Proof.
  intros Hnd H Hf.
  destruct (find_el_some _ _ _ Hf) as [Hin Hid].
  pose proof (find_el_live _ _ _ Hf) as Hlive.
  assert (He : In e l).
  { clear - H Hin Hlive. induction H as [|x x' l l' Hx _ IH]; [contradiction|].
    destruct Hin as [->|Hin]; [left | right; now apply IH].
    symmetry. now apply kept_live. }
  rewrite <- Hid. now apply find_el_self.
Qed.

(** An element found before the removal is found after it, unless it is
    one of the removed. *)
Lemma kept_find_el_before id l l' e :
  NoDup (map eid l) ->
  Forall2 kept_or_removed l l' -> find_el id l = Some e ->
  find_el id l' = Some e \/ find_el id l' = None.
Proof.
  intros Hnd H Hf.
  destruct (find_el id l') as [e'|] eqn:Hf'; [|now right].
  left. pose proof (kept_find_el id l l' e' Hnd H Hf'). congruence.
Qed.

Lemma find_el_absent id l : ~ In id (map eid l) -> find_el id l = None.
Proof.
  intro H. apply find_el_none. intros e Hin He. exfalso. apply H.
  rewrite <- He. now apply in_map.
Qed.

Lemma find_el_cons_miss id x l :
  (eid x =? id) = false -> find_el id (x :: l) = find_el id l.
Proof. intro H. unfold find_el. simpl. now rewrite H. Qed.

Lemma find_el_cons_removed id x l :
  removed x = true -> find_el id (x :: l) = find_el id l.
Proof. intro H. unfold find_el. simpl. now rewrite H, andb_false_r. Qed.

Lemma find_el_cons_hit id x l :
  (eid x =? id) = true -> removed x = false -> find_el id (x :: l) = Some x.
Proof. intros H R. unfold find_el. simpl. now rewrite H, R. Qed.

Lemma depth_detach d c : depth (detach d c) = depth c.
Proof. unfold detach. now destruct (depth c =? S d). Qed.

Lemma eid_detach d c : eid (detach d c) = eid c.
Proof. unfold detach. now destruct (depth c =? S d). Qed.

Lemma deeper_detach d d' P :
  Forall (fun e => d < depth e) P ->
  Forall (fun e => d < depth e) (map (detach d') P).
Proof.
  intro H. induction H; simpl; constructor; [|assumption].
  now rewrite depth_detach.
Qed.

(** Removing the children of an element of depth [d'] is not seen by a
    search among elements of another depth than theirs. *)
Lemma next_sibling_detach d d' P R :
  d <> S d' ->
  next_sibling d (map (detach d') P ++ R) = next_sibling d (P ++ R).
Proof.
  intro Hd. induction P as [|c P IH]; simpl; [reflexivity|].
  rewrite depth_detach. destruct (d <? depth c); [exact IH|].
  destruct (depth c =? d) eqn:E; [|reflexivity].
  apply Nat.eqb_eq in E.
  assert (Hc : detach d' c = c).
  { unfold detach.
    now replace (depth c =? S d') with false
      by (symmetry; apply Nat.eqb_neq; lia). }
  rewrite Hc. destruct (removed c); [exact IH | reflexivity].
Qed.

(** The search for a sibling never reads a child that is removed: the
    parent comes first and ends the search, or the children are deeper
    than what is looked for. *)
Lemma next_sibling_remove_children d id l :
  next_sibling d (remove_children id l) = next_sibling d l.
Proof.
  induction l as [|e l IH]; simpl; [reflexivity|].
  destruct (eid e =? id).
  - pose proof (split_subtree_app (depth e) l) as Happ.
    pose proof (split_subtree_fst_deeper (depth e) l) as Hdeep.
    destruct (split_subtree (depth e) l) as [inside after]. simpl in *.
    rewrite <- Happ.
    assert (Hskip : depth e >= d ->
              next_sibling d (map (detach (depth e)) inside ++ after)
              = next_sibling d (inside ++ after)).
    { intro Hge. rewrite !next_sibling_deeper; [reflexivity| |].
      - eapply Forall_impl; [|exact Hdeep]. simpl. intros. lia.
      - apply deeper_detach. eapply Forall_impl; [|exact Hdeep].
        simpl. intros. lia. }
    destruct (d <? depth e) eqn:E1.
    + apply Hskip. apply Nat.ltb_lt in E1. lia.
    + destruct (depth e =? d) eqn:E2; [|reflexivity].
      destruct (removed e); [|reflexivity].
      apply Hskip. apply Nat.eqb_eq in E2. lia.
  - simpl. destruct (d <? depth e); [exact IH|].
    destruct (depth e =? d); [|reflexivity].
    destruct (removed e); [exact IH | reflexivity].
Qed.

Lemma nes_detach g d inside after :
  Forall (fun e => d < depth e) inside ->
  NoDup (map eid (inside ++ after)) ->
  nextElementSibling g (map (detach d) inside ++ after)
  = nextElementSibling g (inside ++ after) \/
  find_el g (map (detach d) inside ++ after) = None.
Proof.
  intros Hdeep. induction Hdeep as [|c ins Hc _ IH]; simpl; intro Hnd;
    [now left|].
  inversion Hnd as [|? ? Hx Hnd']; subst.
  destruct (eid c =? g) eqn:E.
  - destruct (depth c =? S d) eqn:E2.
    + assert (Hdc : detach d c = set_removed c)
        by (unfold detach; now rewrite E2).
      rewrite Hdc. right. rewrite find_el_cons_removed by reflexivity.
      apply find_el_absent. apply Nat.eqb_eq in E. rewrite <- E.
      rewrite map_app, map_map, (map_ext _ eid), <- map_app; [exact Hx|].
      intro a. apply eid_detach.
    + assert (Hdc : detach d c = c) by (unfold detach; now rewrite E2).
      rewrite Hdc, E. left. destruct (removed c); [reflexivity|].
      rewrite !next_sibling_skip. apply next_sibling_detach.
      apply Nat.eqb_neq in E2. exact E2.
  - rewrite eid_detach, E.
    destruct (IH Hnd') as [H|H]; [now left|]. right.
    rewrite find_el_cons_miss by (now rewrite eid_detach). exact H.
Qed.

(** Removing the children of an element leaves every other element with
    the next sibling it had, unless the element is one of the removed. *)
Lemma nes_remove_children g id l :
  NoDup (map eid l) ->
  nextElementSibling g (remove_children id l) = nextElementSibling g l \/
  find_el g (remove_children id l) = None.
Proof.
  induction l as [|e l IH]; simpl; intro Hnd; [now left|].
  inversion Hnd as [|? ? Hx Hnd']; subst.
  destruct (eid e =? id).
  - pose proof (split_subtree_app (depth e) l) as Happ.
    pose proof (split_subtree_fst_deeper (depth e) l) as Hdeep.
    destruct (split_subtree (depth e) l) as [inside after] eqn:S.
    simpl in Happ, Hdeep. simpl.
    destruct (eid e =? g) eqn:E.
    + left. destruct (removed e); [reflexivity|]. simpl.
      rewrite next_sibling_skip.
      now rewrite next_sibling_deeper by (now apply deeper_detach).
    + rewrite <- Happ in Hnd' |- *.
      destruct (nes_detach g (depth e) inside after Hdeep Hnd') as [H|H];
        [now left|].
      right. now rewrite find_el_cons_miss.
  - simpl. destruct (eid e =? g) eqn:E.
    + left. destruct (removed e); [reflexivity|].
      now rewrite !next_sibling_skip, next_sibling_remove_children.
    + destruct (IH Hnd') as [H|H]; [now left|]. right.
      now rewrite find_el_cons_miss.
Qed.

(** The field whose display loses its children keeps its display, and
    stays where it is. *)
Lemma nes_remove_children_self field l s :
  NoDup (map eid l) -> nextElementSibling field l = Some s ->
  nextElementSibling field (remove_children (eid s) l) = Some s /\
  find_el field (remove_children (eid s) l) = find_el field l.
Proof.
  induction l as [|e l IH]; simpl; intros Hnd H; [discriminate|].
  inversion Hnd as [|? ? Hx Hnd']; subst.
  assert (Hne : forall s0, In s0 l -> (eid e =? eid s0) = false).
  { intros s0 Hin. apply Nat.eqb_neq. intro Heq. apply Hx. rewrite Heq.
    now apply in_map. }
  destruct (eid e =? field) eqn:E.
  - destruct (removed e) eqn:R; [discriminate|].
    pose proof H as H'. rewrite next_sibling_skip in H'.
    apply next_sibling_some in H'. destruct H' as (Hin & _).
    rewrite (Hne s Hin). simpl. rewrite E, R. split.
    + rewrite next_sibling_skip, next_sibling_remove_children.
      now rewrite <- next_sibling_skip.
    + now rewrite !find_el_cons_hit.
  - destruct (nextElementSibling_other _ _ _ Hnd' H) as (Hin & _).
    rewrite (Hne s Hin). simpl. rewrite E.
    destruct (IH Hnd' H) as [H1 H2]. split; [exact H1|].
    now rewrite !find_el_cons_miss.
Qed.

(** An element without children loses nothing. *)
Lemma remove_children_none id l :
  children id l = [] -> remove_children id l = l.
Proof.
  induction l as [|e l IH]; simpl; [reflexivity|].
  destruct (eid e =? id).
  - pose proof (split_subtree_app (depth e) l) as Happ.
    destruct (split_subtree (depth e) l) as [inside after]. simpl in *.
    intro H. f_equal. rewrite <- Happ. f_equal.
    clear - H. induction inside as [|c ins IH]; simpl in *; [reflexivity|].
    unfold detach at 1. destruct (depth c =? S (depth e)); simpl in H.
    + destruct (removed c) eqn:R; simpl in H; [|discriminate].
      rewrite (IH H). f_equal. destruct c. simpl in R. now subst.
    + now rewrite (IH H).
  - intro H. now rewrite (IH H).
Qed.

Lemma children_in id l e : In e (children id l) -> In e l.
Proof.
  induction l as [|x l IH]; simpl; [contradiction|].
  destruct (eid x =? id).
  - intro H. apply filter_In in H. destruct H as [H _]. right.
    rewrite <- (split_subtree_app (depth x) l). apply in_or_app. now left.
  - intro H. right. now apply IH.
Qed.

(** What the removal does to each element: a child is removed, every
    other element is left as it was. *)
Lemma remove_children_spec id l e :
  NoDup (map eid l) -> In e l ->
  (~ In e (children id l) -> In e (remove_children id l)) /\
  (In e (children id l) -> In (set_removed e) (remove_children id l)).
Proof.
  induction l as [|x l IH]; simpl; intro Hnd; [contradiction|].
  inversion Hnd as [|? ? Hx Hnd']; subst.
  destruct (eid x =? id).
  - pose proof (split_subtree_app (depth x) l) as Happ.
    destruct (split_subtree (depth x) l) as [inside after]. simpl in *.
    assert (Hchild : In e (filter (fun c => (depth c =? S (depth x))
                                            && negb (removed c)) inside) ->
                     In (set_removed e)
                        (x :: map (detach (depth x)) inside ++ after)).
    { intro H. right. apply in_or_app. left.
      apply filter_In in H. destruct H as [Hi Hc].
      apply andb_true_iff in Hc. destruct Hc as [Hd _].
      apply in_map_iff. exists e. split; [|exact Hi].
      unfold detach. now rewrite Hd. }
    intros [->|Hin]; [split; [now left | exact Hchild]|].
    split; [|exact Hchild]. intro H. right.
    rewrite <- Happ in Hin. apply in_app_or in Hin. apply in_or_app.
    destruct Hin as [Hi|Ha]; [left | now right].
    apply in_map_iff. exists e. split; [|exact Hi]. unfold detach.
    destruct (depth e =? S (depth x)) eqn:Hd; [|reflexivity].
    destruct (removed e) eqn:R.
    + destruct e. simpl in R. now subst.
    + exfalso. apply H. apply filter_In. split; [exact Hi|].
      now rewrite Hd, R.
  - intros [->|Hin].
    + split; [now left|]. intro H. exfalso. apply Hx.
      apply in_map. now apply (children_in id).
    + destruct (IH Hnd' Hin) as [H1 H2]. split; intro H; right; auto.
Qed.

Lemma remove_children_map id (h : element -> element) l :
  (forall e, eid (h e) = eid e) -> (forall e, depth (h e) = depth e) ->
  (forall e, h (set_removed e) = set_removed (h e)) ->
  remove_children id (map h l) = map h (remove_children id l).
Proof.
  intros He Hd Hs. induction l as [|x l IH]; simpl; [reflexivity|].
  rewrite He, Hd. destruct (eid x =? id); [|now rewrite IH].
  rewrite split_subtree_map by exact Hd.
  destruct (split_subtree (depth x) l) as [inside after]. simpl.
  f_equal. rewrite map_app, !map_map. f_equal.
  apply map_ext. intro c. unfold detach. rewrite Hd.
  destruct (depth c =? S (depth x)); [apply eq_sym, Hs | reflexivity].
Qed.

Lemma detach_idem d c : detach d (detach d c) = detach d c.
Proof.
  unfold detach. destruct (depth c =? S d) eqn:E; simpl.
  - now rewrite E.
  - now rewrite E.
Qed.

(** Removing the children twice is removing them once. *)
Lemma remove_children_idem id l :
  remove_children id (remove_children id l) = remove_children id l.
Proof.
  induction l as [|x l IH]; simpl; [reflexivity|].
  destruct (eid x =? id) eqn:E.
  - pose proof (split_subtree_fst_deeper (depth x) l) as Hdeep.
    pose proof (split_subtree_snd_head (depth x) l) as Hhead.
    destruct (split_subtree (depth x) l) as [inside after]. simpl in *.
    rewrite E.
    rewrite split_subtree_exact;
      [|now apply deeper_detach | exact Hhead].
    f_equal. f_equal. rewrite map_map. apply map_ext. intro c.
    apply detach_idem.
  - simpl. now rewrite E, IH.
Qed.

(** *** [ensureErrorEl] *)

Lemma find_el_insert id pre x post :
  eid x <> id -> find_el id (pre ++ x :: post) = find_el id (pre ++ post).
Proof.
  intro Hx. unfold find_el. induction pre as [|e pre IH]; simpl.
  - apply Nat.eqb_neq in Hx. now rewrite Hx.
  - now rewrite IH.
Qed.

(** With unique identities the first element of that identity is the one
    that is found. *)
Lemma find_el_head field e l f :
  NoDup (map eid (e :: l)) -> find_el field (e :: l) = Some f ->
  (eid e =? field) = true -> f = e /\ removed e = false.
Proof.
  intros Hnd Hf E. apply Nat.eqb_eq in E.
  assert (e = f)
    by exact (find_el_unique field (e :: l) f e Hnd Hf (or_introl eq_refl) E).
  subst f. split; [reflexivity|]. exact (find_el_live _ _ _ Hf).
Qed.

(** The result of [ensureErrorEl]: either the list is unchanged, or one
    fresh error element was inserted after the subtree of the field. *)
Lemma ensure_shape field fresh l f :
  NoDup (map eid l) -> find_el field l = Some f ->
  exists l1 err created,
    ensureErrorEl_in field fresh l = Some (l1, err, created) /\
    ((created = false /\ l1 = l) \/
     (created = true /\ err = fresh /\
      exists pre post,
        l = pre ++ post /\ In f pre /\
        l1 = pre ++ new_error_el fresh (depth f) :: post)).
Proof.
  induction l as [|e l IH]; intros Hnd Hf; [discriminate|]. simpl.
  destruct (eid e =? field) eqn:E.
  - destruct (find_el_head field e l f Hnd Hf E) as [-> R]. rewrite R.
    pose proof (split_subtree_app (depth e) l) as Happ.
    destruct (split_subtree (depth e) l) as [inside after]. simpl in Happ.
    assert (Hnew : exists pre post,
               e :: l = pre ++ post /\ In e pre /\
               e :: inside ++ new_error_el fresh (depth e) :: after =
                 pre ++ new_error_el fresh (depth e) :: post).
    { exists (e :: inside), after.
      split; [now rewrite <- Happ | split; [now left | reflexivity]]. }
    destruct (next_sibling (depth e) after) as [el|].
    + destruct (has_class "field-error" el).
      * exists (e :: l), (eid el), false. split; [reflexivity | now left].
      * eexists _, fresh, true. split; [reflexivity|]. right. auto.
    + eexists _, fresh, true. split; [reflexivity|]. right. auto.
  - inversion Hnd as [|? ? Hx Hnd']; subst.
    rewrite find_el_cons_miss in Hf by exact E.
    destruct (IH Hnd' Hf) as (l1 & err & created & -> & Hcase). simpl.
    exists (e :: l1), err, created. split; [reflexivity|].
    destruct Hcase as [(-> & ->) | (-> & -> & pre & post & -> & Hin & ->)].
    + now left.
    + right. split; [reflexivity|]. split; [reflexivity|].
      exists (e :: pre), post.
      split; [reflexivity | split; [now right | reflexivity]].
Qed.

Lemma ensure_sibling field fresh l l1 err created :
  ensureErrorEl_in field fresh l = Some (l1, err, created) ->
  exists s, nextElementSibling field l1 = Some s /\ eid s = err /\
            has_class "field-error" s = true.
Proof.
  revert l1. induction l as [|e l IH]; simpl; intros l1 H; [discriminate|].
  destruct (eid e =? field) eqn:E.
  - destruct (removed e) eqn:R; [discriminate|].
    pose proof (split_subtree_insert (depth e) l
                  (new_error_el fresh (depth e)) (le_n _)) as Hins.
    destruct (split_subtree (depth e) l) as [inside after] eqn:S.
    simpl in Hins.
    assert (Hnew : exists s,
               nextElementSibling field
                 (e :: inside ++ new_error_el fresh (depth e) :: after) = Some s /\
               eid s = fresh /\ has_class "field-error" s = true).
    { exists (new_error_el fresh (depth e)). simpl. rewrite E, R, Hins. simpl.
      rewrite Nat.ltb_irrefl, Nat.eqb_refl. repeat split. }
    destruct (next_sibling (depth e) after) as [el|] eqn:N.
    + destruct (has_class "field-error" el) eqn:C.
      * injection H as <- <- <-. exists el. simpl. rewrite E, R, S. simpl.
        now repeat split.
      * injection H as <- <- <-. exact Hnew.
    + injection H as <- <- <-. exact Hnew.
  - destruct (ensureErrorEl_in field fresh l) as [[[l1' err'] c']|];
      simpl in H; [|discriminate].
    injection H as <- <- <-.
    destruct (IH _ eq_refl) as (s & Hs & He & Hc).
    exists s. simpl. rewrite E. now repeat split.
Qed.

Lemma children_skip id P x R :
  ~ In id (map eid P) -> eid x = id ->
  children id (P ++ x :: R)
  = filter (fun c => (depth c =? S (depth x)) && negb (removed c))
           (fst (split_subtree (depth x) R)).
Proof.
  intros HP Hx. induction P as [|e P IH]; simpl.
  - now rewrite Hx, Nat.eqb_refl.
  - simpl in HP. replace (eid e =? id) with false.
    + apply IH. intro H. apply HP. now right.
    + symmetry. apply Nat.eqb_neq. intro H. apply HP. now left.
Qed.

(** A created error element has no child. *)
Lemma ensure_created_childless field fresh l l1 err :
  ~ In fresh (map eid l) ->
  ensureErrorEl_in field fresh l = Some (l1, err, true) ->
  children fresh l1 = [].
Proof.
  revert l1. induction l as [|e l IH]; simpl; intros l1 Hfresh H;
    [discriminate|].
  assert (He : (eid e =? fresh) = false).
  { apply Nat.eqb_neq. intro Heq. apply Hfresh. now left. }
  destruct (eid e =? field).
  - destruct (removed e); [discriminate|].
    pose proof (split_subtree_app (depth e) l) as Happ.
    pose proof (split_subtree_snd_head (depth e) l) as Hhead.
    destruct (split_subtree (depth e) l) as [inside after]. simpl in *.
    assert (Hnew : children fresh
                     (e :: inside ++ new_error_el fresh (depth e) :: after)
                   = []).
    { simpl. rewrite He. rewrite children_skip; [|idtac|reflexivity].
      - pose proof (split_subtree_exact (depth e) [] after
                      (Forall_nil _) Hhead) as Hs.
        simpl in Hs |- *. now rewrite Hs.
      - intro Hin. apply Hfresh. right. rewrite <- Happ, map_app.
        apply in_or_app. now left. }
    destruct (next_sibling (depth e) after) as [el|].
    + destruct (has_class "field-error" el); [discriminate|].
      injection H as <- _. exact Hnew.
    + injection H as <- _. exact Hnew.
  - destruct (ensureErrorEl_in field fresh l) as [[[l1' err'] c']|] eqn:Hl;
      simpl in H; [|discriminate].
    injection H as <- <- ->. simpl. rewrite He. apply (IH l1').
    + intro Hin. apply Hfresh. now right.
    + reflexivity.
Qed.

Lemma ensure_spec field fresh l f :
  NoDup (map eid l) -> Forall (fun e => eid e < fresh) l ->
  find_el field l = Some f ->
  exists l1 err created s,
    ensureErrorEl_in field fresh l = Some (l1, err, created) /\
    nextElementSibling field l1 = Some s /\ eid s = err /\
    has_class "field-error" s = true /\
    err <> field /\
    find_el field l1 = Some f /\
    filter (older fresh) l1 = l /\
    Forall (fun e => older fresh e = false ->
                     e = new_error_el fresh (depth f)) l1 /\
    NoDup (map eid l1) /\
    Forall (fun e => eid e < (if created then S fresh else fresh)) l1 /\
    (created = true -> err = fresh /\ children err l1 = []) /\
    (created = false -> l1 = l).
Proof.
  intros Hnd Hlt Hf.
  destruct (ensure_shape field fresh l f Hnd Hf)
    as (l1 & err & created & He & Hcase).
  destruct (ensure_sibling _ _ _ _ _ _ He) as (s & Hs & Hse & Hsc).
  assert (Hold : Forall (fun e => older fresh e = true) l).
  { eapply Forall_impl; [|exact Hlt]. intros e H. now apply Nat.ltb_lt. }
  destruct (find_el_some _ _ _ Hf) as [Hfin Hfid].
  assert (Hfield : field < fresh).
  { rewrite Forall_forall in Hlt. rewrite <- Hfid. now apply Hlt. }
  exists l1, err, created, s. split; [exact He|].
  split; [exact Hs|]. split; [exact Hse|]. split; [exact Hsc|].
  destruct Hcase as [(-> & ->) | (-> & -> & pre & post & -> & Hinpre & ->)].
  - destruct (nextElementSibling_other _ _ _ Hnd Hs) as (Hin & Hne & _).
    split; [now rewrite <- Hse|]. split; [exact Hf|].
    split; [now apply filter_all|].
    split.
    { eapply Forall_impl; [|exact Hold]. simpl. intros e H1 H2. congruence. }
    split; [exact Hnd|]. split; [exact Hlt|].
    split; [discriminate | reflexivity].
  - assert (Hnd1 : NoDup (map eid (pre ++ new_error_el fresh (depth f) :: post))).
    { rewrite map_app. simpl. apply NoDup_insert.
      * now rewrite <- map_app.
      * rewrite <- map_app. intro Hin. apply in_map_iff in Hin.
        destruct Hin as (e & Heq & Hin). rewrite Forall_forall in Hlt.
        apply Hlt in Hin. lia. }
    split; [lia|].
    split; [rewrite find_el_insert; [exact Hf | simpl; lia]|].
    split.
    { rewrite filter_app. simpl. unfold older at 2. simpl.
      rewrite Nat.ltb_irrefl. rewrite <- filter_app. now apply filter_all. }
    split.
    { apply Forall_app in Hold. destruct Hold as [Hpre Hpost].
      apply Forall_app. split; [|constructor].
      * eapply Forall_impl; [|exact Hpre]. simpl. intros e H1 H2. congruence.
      * reflexivity.
      * eapply Forall_impl; [|exact Hpost]. simpl. intros e H1 H2. congruence. }
    split; [exact Hnd1|].
    split.
    { apply Forall_app in Hlt. destruct Hlt as [Hpre Hpost].
      apply Forall_app. split; [|constructor].
      * eapply Forall_impl; [|exact Hpre]. simpl. intros e H. lia.
      * simpl. lia.
      * eapply Forall_impl; [|exact Hpost]. simpl. intros e H. lia. }
    split; [|discriminate].
    intros _. split; [reflexivity|].
    apply (ensure_created_childless field fresh (pre ++ post) _ fresh).
    + intro Hin. apply in_map_iff in Hin. destruct Hin as (e & Heq & Hin).
      rewrite Forall_forall in Hlt. apply Hlt in Hin. lia.
    + exact He.
Qed.

(** An error element that is already there is used again. *)
Lemma ensure_reuse field fresh l s :
  nextElementSibling field l = Some s ->
  has_class "field-error" s = true ->
  ensureErrorEl_in field fresh l = Some (l, eid s, false).
Proof.
  intros H Hc. induction l as [|e l IH]; simpl in *; [discriminate|].
  destruct (eid e =? field).
  - destruct (removed e); [discriminate|].
    destruct (split_subtree (depth e) l) as [inside after]. simpl in H.
    now rewrite H, Hc.
  - now rewrite (IH H).
Qed.

(** *** [showError] *)

Lemma core_display msg e : core (display msg e) = core e.
Proof. reflexivity. Qed.

Lemma core_mark msg e : core (mark msg e) = core e.
Proof. reflexivity. Qed.

Lemma has_error_mark msg e : has_class "error" (mark msg e) = truthy msg.
Proof.
  unfold has_class, mark. simpl. apply ClassListFacts.contains_toggle_same.
Qed.

Lemma has_active_display msg e :
  has_class "active" (display msg e) = truthy msg.
Proof.
  unfold has_class, display. simpl. apply ClassListFacts.contains_toggle_same.
Qed.

Lemma has_field_error_display msg e :
  has_class "field-error" (display msg e) = has_class "field-error" e.
Proof.
  unfold has_class, display. simpl.
  apply ClassListFacts.contains_toggle_other. discriminate.
Qed.

Lemma core_update_one id g e :
  (forall x, core (g x) = core x) -> core (update_one id g e) = core e.
Proof. intro H. unfold update_one. destruct (eid e =? id); auto. Qed.

Lemma core_eid e e' : core e = core e' -> eid e = eid e'.
Proof. unfold core. intro H. now injection H. Qed.

Lemma core_depth e e' : core e = core e' -> depth e = depth e'.
Proof. unfold core. intro H. now injection H. Qed.

Lemma core_shown err field msg e : core (shown err field msg e) = core e.
Proof.
  unfold shown. rewrite core_update_one by apply core_mark.
  apply core_update_one, core_display.
Qed.

Lemma eid_shown err field msg e : eid (shown err field msg e) = eid e.
Proof. apply core_eid, core_shown. Qed.

Lemma depth_shown err field msg e : depth (shown err field msg e) = depth e.
Proof. apply core_depth, core_shown. Qed.

Lemma update_one_hit id g e : eid e = id -> update_one id g e = g e.
Proof. intro H. unfold update_one. now rewrite H, Nat.eqb_refl. Qed.

Lemma update_one_miss id g e : eid e <> id -> update_one id g e = e.
Proof.
  intro H. unfold update_one. apply Nat.eqb_neq in H. now rewrite H.
Qed.

Lemma removed_shown err field msg e :
  removed (shown err field msg e) = removed e.
Proof.
  unfold shown, update_one.
  destruct (eid e =? err); simpl; destruct (_ =? field); reflexivity.
Qed.

Lemma shown_set_removed err field msg e :
  shown err field msg (set_removed e) = set_removed (shown err field msg e).
Proof.
  unfold shown, update_one. simpl.
  destruct (eid e =? err); simpl; destruct (eid e =? field); reflexivity.
Qed.

Lemma has_field_error_shown err field msg e :
  has_class "field-error" (shown err field msg e) = has_class "field-error" e.
Proof.
  unfold shown, update_one.
  assert (Hm : forall x, has_class "field-error" (mark msg x)
                         = has_class "field-error" x).
  { intro x. unfold has_class, mark. simpl.
    apply ClassListFacts.contains_toggle_other. discriminate. }
  destruct (eid e =? err).
  - destruct (eid (display msg e) =? field);
      now rewrite ?Hm, has_field_error_display.
  - destruct (eid e =? field); now rewrite ?Hm.
Qed.

(** An element that is neither the field nor its display is not
    written to. *)
Lemma shown_other err field msg e :
  eid e <> err -> eid e <> field -> shown err field msg e = e.
Proof.
  intros H1 H2. unfold shown.
  rewrite (update_one_miss err _ e H1). now apply update_one_miss.
Qed.

Lemma showError_dom field msg st l1 err created :
  ensureErrorEl_in field (next_eid st) (dom st) = Some (l1, err, created) ->
  showError field msg st =
    Some {| dom := map (shown err field msg) (remove_children err l1);
            next_eid := if created then S (next_eid st) else next_eid st;
            activeElement := activeElement st;
            defaultPrevented := defaultPrevented st |}.
Proof.
  intro H. unfold showError, ensureErrorEl. rewrite H. simpl.
  unfold update_el. now rewrite map_map.
Qed.

(** What one call of [showError] does to a well-formed form: the field
    is marked, its next sibling is the error element and displays the
    message. *)
Lemma showError_spec field msg st f :
  well_formed st -> find_el field (dom st) = Some f ->
  exists st' s,
    showError field msg st = Some st' /\
    well_formed st' /\
    next_eid st <= next_eid st' /\
    activeElement st' = activeElement st /\
    defaultPrevented st' = defaultPrevented st /\
    find_el field (dom st') = Some (mark msg f) /\
    nextElementSibling field (dom st') = Some s /\
    has_class "field-error" s = true /\
    textContent s = msg /\
    has_class "active" s = truthy msg /\
    eid s <> field.
Proof.
  intros [Hnd Hlt] Hf.
  destruct (ensure_spec field (next_eid st) (dom st) f Hnd Hlt Hf)
    as (l1 & err & created & s0 & He & Hs0 & Hs0e & Hs0c & Hne & Hf1 & Hfilt
        & Hnew & Hnd1 & Hlt1 & _).
  destruct (find_el_some _ _ _ Hf) as [Hfin Hfid].
  subst err.
  destruct (nes_remove_children_self field l1 s0 Hnd1 Hs0) as [Hs1 Hf2].
  eexists _, (display msg s0).
  split; [exact (showError_dom field msg st l1 (eid s0) created He)|].
  simpl. split; [|split; [|split; [|split; [|split; [|split]]]]].
  - split; simpl.
    + rewrite map_eid_map by apply eid_shown.
      now rewrite remove_children_eid.
    + apply Forall_forall. intros e' Hin.
      assert (Hid : In (eid e') (map eid l1)).
      { rewrite <- (remove_children_eid (eid s0)),
                <- (map_eid_map (shown (eid s0) field msg))
          by apply eid_shown.
        now apply in_map. }
      apply in_map_iff in Hid. destruct Hid as (e & <- & Hin1).
      rewrite Forall_forall in Hlt1. now apply Hlt1.
  - destruct created; lia.
  - reflexivity.
  - reflexivity.
  - rewrite find_el_map by (apply eid_shown || apply removed_shown).
    rewrite Hf2, Hf1. simpl. f_equal.
    unfold shown. rewrite (update_one_miss (eid s0)) by congruence.
    now apply update_one_hit.
  - rewrite nextElementSibling_map
      by (apply eid_shown || apply depth_shown || apply removed_shown).
    rewrite Hs1. simpl. f_equal.
    unfold shown. rewrite (update_one_hit (eid s0) _ s0 eq_refl).
    apply update_one_miss. simpl. exact Hne.
  - split; [now rewrite has_field_error_display|].
    split; [reflexivity|].
    split; [apply has_active_display|].
    simpl. exact Hne.
Qed.

End DomFacts.

(** ** Form validation: one validation pass *)

Module ValidateFacts.

Import Forms.

Section Validate.

Variable Number : jsstring -> jsnum.

Lemma validate_spec field st f :
  well_formed st -> find_el field (dom st) = Some f ->
  exists st' s,
    validate Number field st
      = Some (st', negb (truthy (run_validator Number f))) /\
    showError field (run_validator Number f) st = Some st' /\
    find_el field (dom st') = Some (mark (run_validator Number f) f) /\
    nextElementSibling field (dom st') = Some s /\
    has_class "field-error" s = true /\
    textContent s = run_validator Number f /\
    has_class "active" s = truthy (run_validator Number f).
Proof.
  intros Hwf Hf.
  destruct (DomFacts.showError_spec field (run_validator Number f) st f Hwf Hf)
    as (st' & s & Hshow & _ & _ & _ & _ & Hf' & Hs & Hc & Ht & Ha & _).
  exists st', s. unfold validate. rewrite Hf. simpl. rewrite Hshow. simpl.
  repeat split; assumption.
Qed.

(** C6: after a validation pass on a field of a well-formed form, the
    element next to the field is its error display and holds the
    validator's message; the message is non-empty exactly when the field
    carries the [error] class and [aria-invalid] is ["true"], and exactly
    when the display carries [active]; with an empty message the class is
    absent and [aria-invalid] is ["false"]. *)
Theorem validation_keeps_error_state_consistent :
  forall (field : nat) (st : state) (f : element),
    well_formed st -> find_el field (dom st) = Some f ->
    exists st' valid f' err,
      validate Number field st = Some (st', valid) /\
      well_formed st' /\
      find_el field (dom st') = Some f' /\ core f' = core f /\
      nextElementSibling field (dom st') = Some err /\
      has_class "field-error" err = true /\
      textContent err = run_validator Number f /\
      (textContent err <> [] <->
         has_class "error" f' = true /\ aria_invalid f' = Some "true"%string) /\
      (textContent err = [] <->
         has_class "error" f' = false /\ aria_invalid f' = Some "false"%string) /\
      (has_class "active" err = true <-> textContent err <> []) /\
      (valid = true <-> textContent err = []).
Proof.
  intros field st f Hwf Hf.
  destruct (validate_spec field st f Hwf Hf)
    as (st' & s & Hv & Hshow & Hf' & Hs & Hc & Ht & Ha).
  destruct (DomFacts.showError_spec field (run_validator Number f) st f Hwf Hf)
    as (st'' & _ & Hshow' & Hwf' & _).
  assert (st'' = st') by congruence. subst st''.
  exists st', (negb (truthy (run_validator Number f))),
    (mark (run_validator Number f) f), s.
  rewrite Ht, Ha, DomFacts.has_error_mark.
  split; [exact Hv|]. split; [exact Hwf'|]. split; [exact Hf'|].
  split; [reflexivity|]. split; [exact Hs|]. split; [exact Hc|].
  split; [reflexivity|].
  unfold mark. simpl.
  destruct (run_validator Number f) as [|c msg]; simpl.
  - split; [|split; [|split]]; split; try congruence; try (intros [? ?]; congruence).
    now split.
  - split; [|split; [|split]]; split; try congruence; try (intros [? ?]; congruence).
    now split.
Qed.

(** The [blur] and [input] listeners run one validation pass. *)
Lemma on_blur_or_input_validate field st :
  on_blur_or_input Number field st = option_map fst (validate Number field st).
Proof.
  unfold on_blur_or_input.
  now destruct (validate Number field st) as [[st1 v]|].
Qed.

Lemma run_validator_core e e' :
  core e = core e' -> run_validator Number e = run_validator Number e'.
Proof.
  destruct e, e'. unfold core. simpl. intro H.
  injection H as -> -> -> -> -> ->.
  destruct kind1 as [[]| |]; reflexivity.
Qed.

End Validate.

Lemma sample_form_well_formed : well_formed sample_form.
Proof.
  split; simpl.
  - repeat constructor; simpl; intuition; discriminate.
  - repeat constructor.
Defined.

Lemma validation_keeps_error_state_consistent_witness :
  exists st' valid f' err,
    validate Number_of_digits 1 sample_form = Some (st', valid) /\
    find_el 1 (dom st') = Some f' /\
    nextElementSibling 1 (dom st') = Some err /\
    (textContent err <> [] <->
       has_class "error" f' = true /\ aria_invalid f' = Some "true"%string).
Proof.
  destruct (validation_keeps_error_state_consistent Number_of_digits
              1 sample_form (control 1 0 (Input Email) true None (str "a@b"))
              sample_form_well_formed eq_refl)
    as (st' & valid & f' & err & Hv & _ & Hf & _ & Hs & _ & _ & Hiff & _).
  exists st', valid, f', err.
  split; [exact Hv | split; [exact Hf | split; [exact Hs | exact Hiff]]].
Defined.

End ValidateFacts.

(** ** Form validation: submit *)

Module SubmitFacts.

Import Forms.

(** C5 fails on the code: when a field fails, the submit listener asks
    the focus for [form.querySelector('.error')], the first element inside
    the form that carries the class, whether it is a field or not.  On a
    form that starts with a paragraph of class [error], followed by a
    required text field left empty, the submit validates the field, the
    field fails and gets the class and [aria-invalid="true"], and the
    default action is prevented; the first field carrying the class is
    the text field, but [focus()] is called on the paragraph. *)
Theorem submit_focus_is_not_always_a_field :
  forall Number : jsstring -> jsnum,
  exists st' p f,
    form_fields (dom form_with_error_note) = [1] /\
    on_submit Number [1] form_with_error_note = Some st' /\
    defaultPrevented st' = true /\
    find_el 0 (dom st') = Some p /\
    is_field p = false /\ has_class "error" p = true /\
    find_el 1 (dom st') = Some f /\
    is_field f = true /\ has_class "error" f = true /\
    aria_invalid f = Some "true"%string /\
    first_error_field (dom st') = Some f /\
    querySelector_error (dom st') = Some p /\
    activeElement st' = Some (eid p) /\
    activeElement st' <> Some (eid f).
Proof.
  intro Number. eexists _, _, _.
  split; [reflexivity|]. split; [reflexivity|]. split; [reflexivity|].
  split; [reflexivity|]. split; [reflexivity|]. split; [reflexivity|].
  split; [reflexivity|]. split; [reflexivity|]. split; [reflexivity|].
  split; [reflexivity|]. split; [reflexivity|]. split; [reflexivity|].
  split; [reflexivity|]. discriminate.
Qed.

End SubmitFacts.

(** ** Scroll-spy *)

Module ScrollSpyFacts.

Import ScrollSpy.

Section SortByKey.

Variable A : Type.
Variable key : A -> Q.

Lemma cmp_le a b : Qle_bool (by_key key a b) 0 = true <-> (key a <= key b)%Q.
Proof. unfold by_key. rewrite Qle_bool_iff. split; intro H; lra. Qed.

Lemma in_insert_sorted x y l :
  In y (insert_sorted (by_key key) x l) <-> y = x \/ In y l.
Proof.
  induction l as [|z l IH]; simpl.
  - intuition.
  - destruct (Qle_bool (by_key key x z) 0); simpl; [intuition|].
    rewrite IH. intuition.
Qed.

Lemma in_sort y l : In y (sort (by_key key) l) <-> In y l.
Proof.
  unfold sort. induction l as [|x l IH]; simpl; [reflexivity|].
  rewrite in_insert_sorted, IH. intuition.
Qed.

Lemma insert_sorted_head_is_least x l :
  head_is_least key l -> head_is_least key (insert_sorted (by_key key) x l).
Proof.
  destruct l as [|z l]; simpl.
  - intros _ y [<-|[]]. lra.
  - intro Hz. destruct (Qle_bool (by_key key x z) 0) eqn:E.
    + apply cmp_le in E. intros y [<-|Hy]; [lra|].
      specialize (Hz y Hy). lra.
    + assert (Hlt : (key z < key x)%Q).
      { apply Qnot_le_lt. intro H. apply cmp_le in H. congruence. }
      simpl. intros y [<-|Hy]; [lra|].
      apply in_insert_sorted in Hy. destruct Hy as [->|Hy]; [lra|].
      apply Hz. now right.
Qed.

Lemma sort_head_is_least l : head_is_least key (sort (by_key key) l).
Proof.
  unfold sort. induction l as [|x l IH]; simpl; [exact I|].
  now apply insert_sorted_head_is_least.
Qed.

Lemma sort_nil l : sort (by_key key) l = [] -> l = [].
Proof.
  destruct l as [|x l]; [reflexivity|]. intro H.
  assert (Hin : In x (sort (by_key key) (x :: l))) by (apply in_sort; now left).
  rewrite H in Hin. contradiction.
Qed.

End SortByKey.

Lemma setActive_href id links :
  map href (setActive id links) = map href links.
Proof. unfold setActive. rewrite map_map. reflexivity. Qed.

(** [setActive] marks exactly the links that point to the section. *)
Lemma setActive_marks id links a :
  In a (setActive id links) ->
  is_active a = String.eqb (href a) (String "#" id).
Proof.
  unfold setActive. intro H. apply in_map_iff in H.
  destruct H as (a0 & <- & _). unfold is_active. simpl.
  apply ClassListFacts.contains_toggle_same.
Qed.

(** Within one call, the callback ranks the intersecting entries it was
    given: the section it marks has the smallest top among them. *)
Lemma spy_marks_topmost_entry entries links :
  (forall e, In e entries -> isIntersecting e = false) /\
    spy entries links = links
  \/
  exists v,
    In v entries /\ isIntersecting v = true /\
    (forall e, In e entries -> isIntersecting e = true ->
               (boundingClientRect_top v <= boundingClientRect_top e)%Q) /\
    spy entries links = setActive (target_id v) links.
Proof.
  unfold spy.
  pose proof (sort_head_is_least entry boundingClientRect_top
                (filter isIntersecting entries)) as Hleast.
  pose proof (in_sort entry boundingClientRect_top) as Hin.
  pose proof (sort_nil entry boundingClientRect_top
                (filter isIntersecting entries)) as Hnil.
  change (sort (by_key boundingClientRect_top))
    with (sort (fun a b => (boundingClientRect_top a
                            - boundingClientRect_top b)%Q)) in *.
  cbv zeta.
  destruct (sort (fun a b => (boundingClientRect_top a
                              - boundingClientRect_top b)%Q)
                 (filter isIntersecting entries)) as [|v rest] eqn:S.
  - left. split; [|reflexivity].
    intros e He. specialize (Hnil eq_refl).
    destruct (isIntersecting e) eqn:Ei; [|reflexivity].
    assert (H : In e (filter isIntersecting entries))
      by (apply filter_In; now split).
    rewrite Hnil in H. contradiction.
  - right. exists v.
    assert (Hv : In v (filter isIntersecting entries)).
    { apply (Hin v). rewrite S. now left. }
    apply filter_In in Hv. destruct Hv as [Hv1 Hv2].
    repeat split; auto.
    intros e He Hi. apply Hleast. rewrite <- S. apply Hin.
    apply filter_In. now split.
Qed.

(** C2 fails on the code: the callback only ranks the entries of the
    current notification.  On a page with the sections [intro] and
    [usage], [intro] enters the observed band first and is marked; when
    [usage] enters the band below it, [intro] still intersecting and
    nearer to the top of the viewport, only [usage] is notified and the
    callback moves the marker to [usage]. *)
Theorem spy_overlooks_section_already_intersecting :
  let st1 := on_frame frame_intro_only two_sections in
  let st2 := on_frame frame_both st1 in
  active_links st1 = [("#intro"%string, true); ("#usage"%string, false)] /\
  map obs_target (intersecting frame_both) = ["intro"%string; "usage"%string] /\
  (forall o, In o (intersecting frame_both) ->
             obs_target o <> "intro"%string -> (5 < obs_top o)%Q) /\
  fst (notify (registrations st1) frame_both) =
    [ {| target_id := "usage"; isIntersecting := true;
         boundingClientRect_top := 305 |} ] /\
  map (fun a => (href a, is_active a))
      (spy [ {| target_id := "usage"; isIntersecting := true;
                boundingClientRect_top := 305 |} ] (navLinks st1))
    = [("#intro"%string, false); ("#usage"%string, true)] /\
  active_links st2 = [("#intro"%string, false); ("#usage"%string, true)].
Proof.
  cbv zeta. split; [reflexivity|]. split; [reflexivity|].
  split; [|split; [|split]; reflexivity].
  intros o Hin Hne. simpl in Hin.
  destruct Hin as [<-|[<-|[]]]; simpl in *; [congruence|reflexivity].
Qed.

End ScrollSpyFacts.

(** * Further properties of the script *)

(** ** Panel controllers: keys, trigger controls, expanded state *)

Module PanelsMoreFacts.

Import Panels.

Lemma keydown_other_key c key p :
  key <> "Escape"%string -> handle c (keydown c key) p = p.
Proof.
  intro Hk. apply String.eqb_neq in Hk.
  destruct c; simpl; now rewrite Hk.
Qed.

Lemma keydown_closed c key p :
  open_marker c p = false -> handle c (keydown c key) p = p.
Proof.
  intro Hm. destruct c; simpl in *; rewrite Hm; now rewrite andb_false_r.
Qed.

Lemma aria_after_transition c t p :
  aria_expanded c (apply_transition c t p) = String_of_bool (target_of t).
Proof.
  destruct c, t; unfold apply_transition, aria_expanded, target_of.
  - unfold setOpen. now destruct (siteNav_has_link p).
  - reflexivity.
  - unfold openSidebar. now destruct (sidebar_has_link p).
  - reflexivity.
  - unfold openOverlay. now destruct (sheet_has_link p).
  - reflexivity.
Qed.

Lemma focus_after_close c p :
  activeElement (handle c (keydown c "Escape") p) = Some (trigger c) \/
  handle c (keydown c "Escape") p = p.
Proof.
  destruct c; simpl.
  - destruct (siteNav_is_open p); [now left | now right].
  - destruct (sidebar_is_open p); [now left | now right].
  - destruct (overlay_is_open p); [now left | now right].
Qed.

Lemma listener_escape s c p :
  listener s c (keydown c "Escape") p =
    if is_open s c p then close_by_key c p else p.
Proof.
  unfold listener, is_open. destruct (s c); [|reflexivity].
  destruct c; simpl.
  - now destruct (siteNav_is_open p).
  - now destruct (sidebar_is_open p).
  - now destruct (overlay_is_open p).
Qed.

Lemma listener_other_key s c key p :
  key <> "Escape"%string -> listener s c (keydown c key) p = p.
Proof.
  intro Hk. unfold listener. destruct (s c); [|reflexivity].
  now apply keydown_other_key.
Qed.

Lemma close_by_key_marker c c' p :
  open_marker c' (close_by_key c p)
  = if panel_eqb c c' then false else open_marker c' p.
Proof.
  destruct c, c'; simpl;
    try exact (PanelsFacts.setOpen_marker false p);
    try exact (proj1 (PanelsFacts.closeSidebar_markers p));
    try exact (proj1 (PanelsFacts.closeOverlay_markers p));
    reflexivity.
Qed.

Lemma close_by_key_aria c c' p :
  aria_expanded c' (close_by_key c p)
  = if panel_eqb c c' then "false"%string else aria_expanded c' p.
Proof. destruct c, c'; reflexivity. Qed.

Lemma close_by_key_lock c p : scroll_locked (close_by_key c p) = false.
Proof. destruct c; reflexivity. Qed.

Lemma close_by_key_focus c p :
  activeElement (close_by_key c p) = Some (trigger c).
Proof. destruct c; reflexivity. Qed.

Lemma close_by_key_is_open s c c' p :
  is_open s c' (close_by_key c p)
  = if panel_eqb c c' then false else is_open s c' p.
Proof.
  unfold is_open. rewrite close_by_key_marker.
  destruct (panel_eqb c c'); [apply andb_false_r | reflexivity].
Qed.

(** Escape on the page: the three listeners one after the other, each
    closing its panel when that was open before the key. *)
Lemma on_keydown_escape s p :
  on_keydown s "Escape" p =
    let p1 := if is_open s Nav p then close_by_key Nav p else p in
    let p2 := if is_open s Sidebar p then close_by_key Sidebar p1 else p1 in
    if is_open s Sections p then close_by_key Sections p2 else p2.
Proof.
  unfold on_keydown.
  change (OverlayKeydown "Escape") with (keydown Sections "Escape").
  change (SidebarKeydown "Escape") with (keydown Sidebar "Escape").
  change (NavKeydown "Escape") with (keydown Nav "Escape").
  cbv zeta.
  rewrite (listener_escape s Nav p).
  destruct (is_open s Nav p) eqn:On.
  - rewrite (listener_escape s Sidebar).
    rewrite (close_by_key_is_open s Nav Sidebar p). cbn [panel_eqb].
    destruct (is_open s Sidebar p) eqn:Os.
    + rewrite (listener_escape s Sections).
      rewrite (close_by_key_is_open s Sidebar Sections). cbn [panel_eqb].
      rewrite (close_by_key_is_open s Nav Sections p). cbn [panel_eqb]. reflexivity.
    + rewrite (listener_escape s Sections).
      rewrite (close_by_key_is_open s Nav Sections p). cbn [panel_eqb]. reflexivity.
  - rewrite (listener_escape s Sidebar).
    destruct (is_open s Sidebar p) eqn:Os.
    + rewrite (listener_escape s Sections).
      rewrite (close_by_key_is_open s Sidebar Sections). cbn [panel_eqb]. reflexivity.
    + rewrite (listener_escape s Sections). reflexivity.
Qed.

(** X1: a key other than Escape changes nothing, and Escape changes
    nothing when no panel is open.  Escape closes every open panel at
    once: afterwards no panel is open, the control of each panel that was
    open says [aria-expanded="false"], the control of a panel that was
    closed is untouched, the scroll lock is released, and the focus is on
    the control of the open panel whose listener ran last, in the order
    navigation, sidebar, sections overlay.  With one panel open that is
    its own control; with the navigation and the sidebar open it is the
    sidebar button. *)
Theorem escape_closes_every_open_panel :
  forall (s : setup) (key : string) (p : page),
    (key <> "Escape"%string -> on_keydown s key p = p) /\
    ((forall c, is_open s c p = false) -> on_keydown s key p = p) /\
    (let p' := on_keydown s "Escape" p in
     (forall c, s c = true -> open_marker c p' = false) /\
     (forall c, is_open s c p = true ->
        aria_expanded c p' = "false"%string /\ scroll_locked p' = false) /\
     (forall c, is_open s c p = false ->
        aria_expanded c p' = aria_expanded c p) /\
     (forall c, last_open s p = Some c -> activeElement p' = Some (trigger c)) /\
     (forall c, is_open s c p = true ->
        (forall c', c' <> c -> is_open s c' p = false) ->
        activeElement p' = Some (trigger c)) /\
     (is_open s Nav p = true -> is_open s Sidebar p = true ->
      is_open s Sections p = false ->
      activeElement p' = Some SidebarToggleBtn)).
Proof.
  intros s key p. split; [|split].
  - intro Hk. unfold on_keydown.
    change (NavKeydown key) with (keydown Nav key).
    change (SidebarKeydown key) with (keydown Sidebar key).
    change (OverlayKeydown key) with (keydown Sections key).
    rewrite (listener_other_key s Nav key p Hk).
    rewrite (listener_other_key s Sidebar key p Hk).
    exact (listener_other_key s Sections key p Hk).
  - intro Hclosed. unfold on_keydown.
    assert (H : forall c, listener s c (keydown c key) p = p).
    { intros c. unfold listener. pose proof (Hclosed c) as Hc.
      unfold is_open in Hc. destruct (s c); [|reflexivity].
      now apply keydown_closed. }
    change (NavKeydown key) with (keydown Nav key).
    change (SidebarKeydown key) with (keydown Sidebar key).
    change (OverlayKeydown key) with (keydown Sections key).
    rewrite (H Nav), (H Sidebar). exact (H Sections).
  - cbv zeta. rewrite on_keydown_escape. cbv zeta.
    assert (Hm : forall c, s c = true -> is_open s c p = false ->
                           open_marker c p = false).
    { intros c Hs Ho. unfold is_open in Ho. now rewrite Hs in Ho. }
    split; [|split; [|split; [|split; [|split]]]].
    + intros c Hs.
      destruct (is_open s Nav p) eqn:On; destruct (is_open s Sidebar p) eqn:Os;
        destruct (is_open s Sections p) eqn:Ov; destruct c;
        rewrite ?close_by_key_marker; cbn [panel_eqb];
        first [reflexivity | now apply Hm].
    + intros c Hc.
      destruct (is_open s Nav p) eqn:On; destruct (is_open s Sidebar p) eqn:Os;
        destruct (is_open s Sections p) eqn:Ov; destruct c; try congruence;
        rewrite ?close_by_key_aria, ?close_by_key_lock; cbn [panel_eqb];
        now split.
    + intros c Hc.
      destruct (is_open s Nav p) eqn:On; destruct (is_open s Sidebar p) eqn:Os;
        destruct (is_open s Sections p) eqn:Ov; destruct c; try congruence;
        rewrite ?close_by_key_aria; cbn [panel_eqb]; reflexivity.
    + intros c. unfold last_open.
      destruct (is_open s Nav p) eqn:On; destruct (is_open s Sidebar p) eqn:Os;
        destruct (is_open s Sections p) eqn:Ov; intro Hc;
        try discriminate Hc; injection Hc as <-;
        apply close_by_key_focus.
    + intros c Hc Hone.
      assert (Hl : last_open s p = Some c).
      { unfold last_open.
        destruct c; rewrite ?Hc;
          rewrite ?(Hone Sections), ?(Hone Sidebar), ?(Hone Nav)
            by discriminate; reflexivity. }
      revert Hl. unfold last_open.
      destruct (is_open s Nav p) eqn:On; destruct (is_open s Sidebar p) eqn:Os;
        destruct (is_open s Sections p) eqn:Ov; intro Hl;
        try discriminate Hl; injection Hl as <-;
        apply close_by_key_focus.
    + intros On Os Ov. rewrite On, Os, Ov. apply close_by_key_focus.
Qed.

Lemma escape_closes_every_open_panel_witness :
  let p := apply_transition Sidebar Open
             (apply_transition Nav Open closed_page) in
  let p' := on_keydown all_set_up "Escape" p in
  open_marker Nav p' = false /\ open_marker Sidebar p' = false /\
  scroll_locked p' = false /\ activeElement p' = Some SidebarToggleBtn /\
  on_keydown all_set_up "Enter" p = p.
Proof.
  destruct (escape_closes_every_open_panel all_set_up "Enter"
              (apply_transition Sidebar Open
                 (apply_transition Nav Open closed_page)))
    as (Hkey & _ & Hm & Ha & _ & _ & _ & Hfocus).
  split; [exact (Hm Nav eq_refl)|]. split; [exact (Hm Sidebar eq_refl)|].
  split; [exact (proj2 (Ha Nav eq_refl))|].
  split; [exact (Hfocus eq_refl eq_refl eq_refl)|].
  apply Hkey. discriminate.
Defined.

Lemma apply_transition_aria_in_sync c t p :
  aria_in_sync c (apply_transition c t p).
Proof.
  unfold aria_in_sync. rewrite aria_after_transition.
  destruct (PanelsFacts.apply_transition_sets c t p) as [-> _]. reflexivity.
Qed.

Lemma focus_aria_in_sync c t p : aria_in_sync c p -> aria_in_sync c (focus t p).
Proof. destruct c; exact (fun H => H). Qed.

Lemma handle_aria_in_sync c (e : event c) p :
  aria_in_sync c p -> aria_in_sync c (handle c e p).
Proof.
  intro Hp. destruct c; simpl in e |- *.
  - destruct e as [ | is_link | | key | wide ]; simpl.
    + destruct (siteNav_is_open p); simpl.
      * exact (apply_transition_aria_in_sync Nav Close p).
      * exact (apply_transition_aria_in_sync Nav Open p).
    + destruct is_link;
        [exact (apply_transition_aria_in_sync Nav Close p) | exact Hp].
    + destruct (siteNav_is_open p);
        [exact (apply_transition_aria_in_sync Nav Close p) | exact Hp].
    + destruct (String.eqb key "Escape" && siteNav_is_open p); [|exact Hp].
      apply focus_aria_in_sync.
      exact (apply_transition_aria_in_sync Nav Close p).
    + destruct (wide && siteNav_is_open p);
        [exact (apply_transition_aria_in_sync Nav Close p) | exact Hp].
  - destruct e as [ | | | key | ]; simpl.
    + exact (apply_transition_aria_in_sync Sidebar Open p).
    + exact (apply_transition_aria_in_sync Sidebar Close p).
    + exact (apply_transition_aria_in_sync Sidebar Close p).
    + destruct (String.eqb key "Escape" && sidebar_is_open p);
        [exact (apply_transition_aria_in_sync Sidebar Close p) | exact Hp].
    + exact (apply_transition_aria_in_sync Sidebar Close p).
  - destruct e as [ | | on_overlay | key | is_link ]; simpl.
    + destruct (overlay_is_open p);
        [exact (apply_transition_aria_in_sync Sections Close p)
        |exact (apply_transition_aria_in_sync Sections Open p)].
    + exact (apply_transition_aria_in_sync Sections Close p).
    + destruct on_overlay;
        [exact (apply_transition_aria_in_sync Sections Close p) | exact Hp].
    + destruct (String.eqb key "Escape" && overlay_is_open p);
        [exact (apply_transition_aria_in_sync Sections Close p) | exact Hp].
    + destruct is_link;
        [exact (apply_transition_aria_in_sync Sections Close p) | exact Hp].
Qed.

(** X2: the [aria-expanded] attribute of the control that opens a panel
    follows the panel's open marker: every transition sets it to the
    string of the marker, and every sequence of the controller's events
    keeps the two in agreement. *)
Theorem aria_expanded_follows_open_marker :
  (forall c t p, aria_in_sync c (apply_transition c t p)) /\
  (forall c (es : list (event c)) p,
      aria_in_sync c p -> aria_in_sync c (run_events c es p)).
Proof.
  split; [apply apply_transition_aria_in_sync|].
  intros c es. unfold run_events.
  induction es as [|e es IH]; intros p Hp; simpl; [exact Hp|].
  apply IH. now apply handle_aria_in_sync.
Qed.

Lemma aria_expanded_follows_open_marker_witness :
  aria_in_sync Nav
    (run_events Nav [NavToggleClick; NavOutsideClick; NavToggleClick]
       closed_page).
Proof.
  destruct aria_expanded_follows_open_marker as [_ H].
  apply (H Nav). reflexivity.
Defined.

(** X3: a closed panel is opened by the click on its own control and by
    nothing else: every other event of the controller leaves it closed. *)
Theorem only_trigger_click_opens :
  forall (c : panel) (e : event c) (p : page),
    open_marker c p = false ->
    (is_trigger_click c e = false -> open_marker c (handle c e p) = false) /\
    open_marker c (handle c (trigger_click c) p) = true.
Proof.
  intros c e p Hclosed. split.
  - intro He. destruct c; simpl in e, He.
    + assert (Hsi : siteNav_is_open p = false) by exact Hclosed.
      destruct e as [ | is_link | | key | wide ]; try discriminate;
        unfold handle, nav_handle; rewrite ?Hsi, ?andb_false_r;
        try exact Hclosed.
      destruct is_link;
        [exact (PanelsFacts.setOpen_marker false p) | exact Hclosed].
    + assert (Hsi : sidebar_is_open p = false) by exact Hclosed.
      pose proof (PanelsFacts.closeSidebar_markers p) as (Hc & _).
      destruct e as [ | | | key | ]; try discriminate;
        unfold handle, sidebar_handle; rewrite ?Hsi, ?andb_false_r;
        try exact Hclosed; exact Hc.
    + assert (Hsi : overlay_is_open p = false) by exact Hclosed.
      pose proof (PanelsFacts.closeOverlay_markers p) as (Hc & _).
      destruct e as [ | | on_overlay | key | is_link ]; try discriminate;
        unfold handle, overlay_handle; rewrite ?Hsi, ?andb_false_r;
        try exact Hclosed; try exact Hc.
      * destruct on_overlay; [exact Hc | exact Hclosed].
      * destruct is_link; [exact Hc | exact Hclosed].
  - destruct c; unfold trigger_click, handle.
    + unfold nav_handle.
      assert (Hsi : siteNav_is_open p = false) by exact Hclosed.
      rewrite Hsi. exact (PanelsFacts.setOpen_marker true p).
    + exact (proj1 (PanelsFacts.openSidebar_markers p)).
    + unfold overlay_handle.
      assert (Hsi : overlay_is_open p = false) by exact Hclosed.
      rewrite Hsi. exact (proj1 (PanelsFacts.openOverlay_markers p)).
Qed.

Lemma only_trigger_click_opens_witness :
  open_marker Nav (handle Nav (NavResize true) closed_page) = false /\
  open_marker Nav (handle Nav (trigger_click Nav) closed_page) = true.
Proof.
  destruct (only_trigger_click_opens Nav (NavResize true) closed_page eq_refl)
    as [H1 H2].
  split; [now apply H1 | exact H2].
Defined.

Lemma marker_frame c c' t p :
  c <> c' -> open_marker c (apply_transition c' t p) = open_marker c p.
Proof.
  intro Hne.
  destruct c, c'; try congruence; destruct t;
    unfold apply_transition, open_marker, siteNav_is_open, sidebar_is_open,
      overlay_is_open, setOpen, openSidebar, closeSidebar, openOverlay,
      closeOverlay;
    try reflexivity;
    try (destruct (siteNav_has_link p); reflexivity);
    try (destruct (sidebar_has_link p); reflexivity);
    try (destruct (sheet_has_link p); reflexivity).
Qed.

(** X4: a click on the control of a panel, with everything the click
    runs on the page.  The click on the navigation toggle runs its own
    listener only and flips the navigation, the scroll lock with it.  The
    click on the sections pill flips the overlay, and the click on the
    floating sidebar button opens the sidebar and never closes it; both
    clicks go on to the document, where they close an open navigation:
    the sidebar or the overlay is then open with the scroll lock
    released. *)
Theorem trigger_click_on_the_page :
  forall (s : setup) (p : page),
    (s Nav = true ->
       on_trigger_click s Nav p = handle Nav NavToggleClick p /\
       open_marker Nav (on_trigger_click s Nav p) = negb (open_marker Nav p) /\
       scroll_locked (on_trigger_click s Nav p) = negb (open_marker Nav p)) /\
    (s Sections = true ->
       open_marker Sections (on_trigger_click s Sections p)
       = negb (open_marker Sections p) /\
       scroll_locked (on_trigger_click s Sections p)
       = negb (open_marker Sections p) && negb (is_open s Nav p)) /\
    (s Sidebar = true ->
       open_marker Sidebar (on_trigger_click s Sidebar p) = true /\
       scroll_locked (on_trigger_click s Sidebar p) = negb (is_open s Nav p)) /\
    (forall c, c <> Nav -> s Nav = true ->
       open_marker Nav (on_trigger_click s c p) = false).
Proof.
  intros s p.
  assert (Hdoc : forall q,
             listener s Nav NavOutsideClick q
             = if is_open s Nav q then apply_transition Nav Close q else q).
  { intro q. unfold listener, is_open. destruct (s Nav); [|reflexivity].
    reflexivity. }
  assert (Hlock : forall q,
             scroll_locked (listener s Nav NavOutsideClick q)
             = scroll_locked q && negb (is_open s Nav q)).
  { intro q. rewrite Hdoc. destruct (is_open s Nav q).
    - rewrite (proj2 (PanelsFacts.apply_transition_sets Nav Close q)).
      now rewrite andb_false_r.
    - now rewrite andb_true_r. }
  assert (Hframe : forall c q, c <> Nav ->
             open_marker c (listener s Nav NavOutsideClick q) = open_marker c q).
  { intros c q Hc. rewrite Hdoc. destruct (is_open s Nav q); [|reflexivity].
    now apply marker_frame. }
  assert (Hnav : forall c t, c <> Nav ->
             is_open s Nav (apply_transition c t p) = is_open s Nav p).
  { intros c t Hc. unfold is_open. f_equal. apply marker_frame. congruence. }
  split; [|split; [|split]].
  - intro Hs. unfold on_trigger_click, listener. rewrite Hs.
    split; [reflexivity|]. split.
    + exact (PanelsFacts.setOpen_marker (negb (siteNav_is_open p)) p).
    + exact (PanelsFacts.setOpen_scroll_lock (negb (siteNav_is_open p)) p).
  - intro Hs. unfold on_trigger_click. rewrite Hframe by discriminate.
    rewrite Hlock. unfold listener at 1 2 3. rewrite Hs.
    unfold handle, overlay_handle. change (overlay_is_open p)
      with (open_marker Sections p).
    destruct (open_marker Sections p) eqn:E.
    + change (closeOverlay p) with (apply_transition Sections Close p).
      rewrite Hnav by discriminate.
      destruct (PanelsFacts.apply_transition_sets Sections Close p)
        as [-> ->]. now split.
    + change (openOverlay p) with (apply_transition Sections Open p).
      rewrite Hnav by discriminate.
      destruct (PanelsFacts.apply_transition_sets Sections Open p)
        as [-> ->]. now split.
  - intro Hs. unfold on_trigger_click. rewrite Hframe by discriminate.
    rewrite Hlock. unfold listener at 1 2 3. rewrite Hs.
    change (handle Sidebar ToggleBtnClick p)
      with (apply_transition Sidebar Open p).
    rewrite Hnav by discriminate.
    destruct (PanelsFacts.apply_transition_sets Sidebar Open p) as [-> ->].
    now split.
  - intros c Hc Hs.
    assert (Hclosed : forall q,
               open_marker Nav (listener s Nav NavOutsideClick q) = false).
    { intro q. rewrite Hdoc. unfold is_open. rewrite Hs. simpl.
      destruct (siteNav_is_open q) eqn:E; [|exact E].
      exact (PanelsFacts.setOpen_marker false q). }
    destruct c; [congruence | apply Hclosed | apply Hclosed].
Qed.

Lemma trigger_click_on_the_page_witness :
  let p := apply_transition Nav Open closed_page in
  let p' := on_trigger_click all_set_up Sidebar p in
  open_marker Sidebar p' = true /\ scroll_locked p' = false /\
  open_marker Nav p' = false.
Proof.
  destruct (trigger_click_on_the_page all_set_up
              (apply_transition Nav Open closed_page))
    as (_ & _ & Hside & Hnav).
  destruct (Hside eq_refl) as [Hm Hl].
  split; [exact Hm|]. split; [exact Hl|].
  apply Hnav; [discriminate | reflexivity].
Defined.

(** X5: the scroll lock is one property of the body, written by all three
    controllers: a transition of one controller never changes the open
    marker of another, so closing one panel while another is open leaves
    the other open with the lock released. *)
Theorem closing_one_panel_unlocks_another :
  forall (c c' : panel) (p : page),
    c <> c' ->
    (forall t, open_marker c (apply_transition c' t p) = open_marker c p) /\
    (open_marker c p = true ->
       open_marker c (apply_transition c' Close p) = true /\
       scroll_locked (apply_transition c' Close p) = false /\
       ~ in_sync c (apply_transition c' Close p)).
Proof.
  intros c c' p Hne. split; [intro t; now apply marker_frame|].
  intro Hopen.
  destruct (PanelsFacts.apply_transition_sets c' Close p) as [_ Hl].
  assert (Hm : open_marker c (apply_transition c' Close p) = true)
    by (rewrite marker_frame; assumption).
  repeat split; try assumption.
  unfold in_sync. rewrite Hm, Hl. discriminate.
Qed.

Lemma closing_one_panel_unlocks_another_witness :
  let p := apply_transition Sections Close (apply_transition Nav Open closed_page) in
  open_marker Nav p = true /\ scroll_locked p = false.
Proof.
  destruct (closing_one_panel_unlocks_another Nav Sections
              (apply_transition Nav Open closed_page)) as [_ H].
  - discriminate.
  - destruct (H eq_refl) as (Hm & Hl & _). now split.
Defined.

End PanelsMoreFacts.

(** ** Scroll reveal: the observer callback *)

Module RevealCallbackFacts.

Import Reveal.

Lemma nth_error_at_index_same {A : Type} (g : A -> A) (l : list A) i :
  nth_error (at_index i g l) i = option_map g (nth_error l i).
Proof.
  revert i. induction l as [|x l IH]; intros [|i]; simpl; auto.
Qed.

Lemma nth_error_at_index_other {A : Type} (g : A -> A) (l : list A) i j :
  i <> j -> nth_error (at_index i g l) j = nth_error l j.
Proof.
  revert i j. induction l as [|x l IH]; intros [|i] [|j] H; simpl;
    try reflexivity; try congruence.
  apply IH. congruence.
Qed.

Lemma filter_filter_and {A : Type} (p q : A -> bool) (l : list A) :
  filter p (filter q l) = filter (fun x => q x && p x) l.
Proof.
  induction l as [|x l IH]; simpl; [reflexivity|].
  destruct (q x); simpl; [destruct (p x)|]; now rewrite IH.
Qed.

(** The elements after the callback, one by one. *)
Lemma observer_callback_elements i entries d :
  elements (observer_callback i entries d) =
    map (after_entries entries) (elements d).
Proof.
  unfold observer_callback, after_entries. revert d.
  induction entries as [|en entries IH]; intro d; simpl.
  - now rewrite map_id.
  - rewrite IH. unfold reveal_entry.
    destruct (isIntersecting en) eqn:E; simpl.
    + now rewrite map_map.
    + apply map_ext. intro el.
      replace (reveal_one en el) with el; [reflexivity|].
      unfold reveal_one. now rewrite E.
Qed.

(** The targets still observed after the callback. *)
Lemma observer_callback_observed i entries d :
  observed_by i (observer_callback i entries d) =
    filter (fun t => negb (reported entries t)) (observed_by i d).
Proof.
  unfold observer_callback. revert d.
  induction entries as [|en entries IH]; intro d; simpl.
  - unfold reported. simpl. symmetry. apply DomFacts.filter_all.
    apply Forall_forall. reflexivity.
  - rewrite IH. unfold reveal_entry, reported. simpl.
    destruct (isIntersecting en); simpl; [|reflexivity].
    unfold observed_by at 1. simpl. rewrite nth_error_at_index_same.
    unfold observed_by.
    destruct (nth_error (observers d) i) as [o|]; simpl; [|reflexivity].
    rewrite filter_filter_and. apply filter_ext. intro t.
    rewrite negb_orb. now rewrite (Nat.eqb_sym (target en) t).
Qed.

Lemma observer_callback_other_observers i j entries d :
  i <> j ->
  nth_error (observers (observer_callback i entries d)) j
  = nth_error (observers d) j.
Proof.
  intro H. unfold observer_callback. revert d.
  induction entries as [|en entries IH]; intro d; simpl; [reflexivity|].
  rewrite IH. unfold reveal_entry.
  destruct (isIntersecting en); simpl; [|reflexivity].
  now apply nth_error_at_index_other.
Qed.

Lemma run_callbacks_concat i batches d :
  run_callbacks i batches d = observer_callback i (List.concat batches) d.
Proof.
  unfold run_callbacks, observer_callback. revert d.
  induction batches as [|b batches IH]; intro d; simpl; [reflexivity|].
  now rewrite IH, fold_left_app.
Qed.

Section OneElement.

Variable entries : list entry.


Lemma reveal_one_eid en el : eid (reveal_one en el) = eid el.
Proof.
  unfold reveal_one.
  now destruct (isIntersecting en && (eid el =? target en)).
Qed.

Lemma reveal_one_is_reveal en el : is_reveal (reveal_one en el) = is_reveal el.
Proof.
  unfold reveal_one.
  destruct (isIntersecting en && (eid el =? target en)); [|reflexivity].
  apply RevealFacts.is_reveal_add_visible.
Qed.

Lemma reveal_one_keeps_visible en el :
  is_visible el = true -> is_visible (reveal_one en el) = true.
Proof.
  unfold reveal_one.
  destruct (isIntersecting en && (eid el =? target en)); [|auto].
  intros _. apply RevealFacts.is_visible_add_visible.
Qed.

Lemma after_eid el : eid (after_entries entries el) = eid el.
Proof.
  unfold after_entries. revert el.
  induction entries as [|en es IH]; intro el; simpl; [reflexivity|].
  now rewrite IH, reveal_one_eid.
Qed.

Lemma after_is_reveal el : is_reveal (after_entries entries el) = is_reveal el.
Proof.
  unfold after_entries. revert el.
  induction entries as [|en es IH]; intro el; simpl; [reflexivity|].
  now rewrite IH, reveal_one_is_reveal.
Qed.

Lemma after_keeps_visible el :
  is_visible el = true -> is_visible (after_entries entries el) = true.
Proof.
  unfold after_entries. revert el.
  induction entries as [|en es IH]; intros el H; simpl; [exact H|].
  apply IH. now apply reveal_one_keeps_visible.
Qed.

Lemma after_reported el :
  reported entries (eid el) = true -> is_visible (after_entries entries el) = true.
Proof.
  unfold after_entries, reported. revert el.
  induction entries as [|en es IH]; intros el H; simpl in *; [discriminate|].
  destruct (isIntersecting en && (target en =? eid el)) eqn:E; simpl in H.
  - assert (Hv : is_visible (reveal_one en el) = true).
    { unfold reveal_one. rewrite (Nat.eqb_sym (eid el)), E.
      apply RevealFacts.is_visible_add_visible. }
    clear IH H. revert Hv. generalize (reveal_one en el).
    induction es as [|en' es IH']; intros e Hv; simpl; [exact Hv|].
    apply IH'. now apply reveal_one_keeps_visible.
  - apply IH. now rewrite reveal_one_eid.
Qed.

Lemma after_not_reported el :
  reported entries (eid el) = false -> after_entries entries el = el.
Proof.
  unfold after_entries, reported. revert el.
  induction entries as [|en es IH]; intros el H; simpl in *; [reflexivity|].
  apply orb_false_iff in H. destruct H as [H1 H2].
  assert (Hone : reveal_one en el = el).
  { unfold reveal_one. now rewrite (Nat.eqb_sym (eid el)), H1. }
  rewrite Hone. now apply IH.
Qed.

End OneElement.

Lemma Forall2_map_right {A B : Type} (R : A -> B -> Prop) (f : A -> B)
  (l : list A) :
  (forall x, R x (f x)) -> Forall2 R l (map f l).
Proof. intro H. induction l; simpl; constructor; auto. Qed.

(** X6: the reveal is one-way.  Whatever entries the observer callback
    receives, in however many calls, the elements keep their identity
    and order; an element that is visible stays visible; the observer
    never observes a target it did not observe before; every target
    reported as intersecting is visible afterwards and no longer
    observed; and an element no entry reported as intersecting is left
    exactly as it was. *)
Theorem reveal_is_one_way :
  forall (i : nat) (batches : list (list entry)) (d : document),
    let d' := run_callbacks i batches d in
    map eid (elements d') = map eid (elements d) /\
    Forall2 (fun el el' => is_visible el = true -> is_visible el' = true)
            (elements d) (elements d') /\
    (forall t, In t (observed_by i d') -> In t (observed_by i d)) /\
    (forall en, In en (List.concat batches) -> isIntersecting en = true ->
       (forall el', In el' (elements d') -> eid el' = target en ->
                    is_visible el' = true) /\
       ~ In (target en) (observed_by i d')) /\
    (forall el, In el (elements d) ->
       reported (List.concat batches) (eid el) = false ->
       In el (elements d')).
Proof.
  intros i batches d d'. subst d'. rewrite run_callbacks_concat.
  set (entries := List.concat batches).
  rewrite observer_callback_elements, observer_callback_observed.
  split; [|split; [|split; [|split]]].
  - rewrite map_map. apply map_ext. apply after_eid.
  - apply Forall2_map_right. intro el. apply after_keeps_visible.
  - intros t Ht. apply filter_In in Ht. tauto.
  - intros en Hin Hint.
    assert (Hrep : reported entries (target en) = true).
    { unfold reported. apply existsb_exists. exists en.
      split; [exact Hin|]. now rewrite Hint, Nat.eqb_refl. }
    split.
    + intros el' Hel' Hid. apply in_map_iff in Hel'.
      destruct Hel' as (el & <- & _). apply after_reported.
      rewrite after_eid in Hid. now rewrite Hid.
    + intro Ht. apply filter_In in Ht. destruct Ht as [_ Ht].
      rewrite Hrep in Ht. discriminate.
  - intros el Hin Hrep. apply in_map_iff. exists el.
    split; [now apply after_not_reported | exact Hin].
Qed.

Lemma reveal_is_one_way_witness :
  let d := scroll_reveal {| prefers_reduced_motion := false;
                            has_IntersectionObserver := true |}
             sample_document in
  let d' := run_callbacks 0 [[ {| target := 1; isIntersecting := true |} ]] d in
  (forall el', In el' (elements d') -> eid el' = 1 -> is_visible el' = true) /\
  ~ In 1 (observed_by 0 d').
Proof.
  intros d d'.
  destruct (reveal_is_one_way 0
              [[ {| target := 1; isIntersecting := true |} ]] d)
    as (_ & _ & _ & H & _).
  apply (H {| target := 1; isIntersecting := true |}).
  - now left.
  - reflexivity.
Defined.

(** X7: with motion allowed and the observer available, no tagged
    element is ever lost: after the block has run, and after any calls
    of the observer callback, every element tagged for reveal is either
    visible or still observed by the observer the block created. *)
Theorem tagged_element_visible_or_observed :
  forall (d0 : document) (batches : list (list entry)),
    let w := {| prefers_reduced_motion := false;
                has_IntersectionObserver := true |} in
    let i := List.length (observers d0) in
    let d' := run_callbacks i batches (scroll_reveal w d0) in
    Forall (fun el' => is_reveal el' = true ->
                       is_visible el' = true \/ In (eid el') (observed_by i d'))
           (elements d').
Proof.
  intros d0 batches w i d'. subst d'. rewrite run_callbacks_concat.
  set (entries := List.concat batches).
  rewrite observer_callback_elements, observer_callback_observed.
  assert (Hobs : observed_by i (scroll_reveal w d0)
                 = map eid (filter is_reveal (elements d0))).
  { unfold observed_by, scroll_reveal. simpl. subst i.
    rewrite nth_error_app2 by apply le_n. now rewrite Nat.sub_diag. }
  rewrite Hobs. apply Forall_forall. intros el' Hin Htag.
  apply in_map_iff in Hin. destruct Hin as (el & <- & Hin).
  rewrite after_is_reveal in Htag. rewrite after_eid.
  destruct (reported entries (eid el)) eqn:Hrep.
  - left. now apply after_reported.
  - right. apply filter_In. split.
    + apply in_map, filter_In. split; [exact Hin | exact Htag].
    + now rewrite Hrep.
Qed.

Lemma tagged_element_visible_or_observed_witness :
  In 1 (observed_by 0
          (run_callbacks 0 [[ {| target := 2; isIntersecting := true |} ]]
             (scroll_reveal {| prefers_reduced_motion := false;
                               has_IntersectionObserver := true |}
                sample_document))).
Proof.
  pose proof (tagged_element_visible_or_observed sample_document
                [[ {| target := 2; isIntersecting := true |} ]]) as H.
  cbv zeta in H. rewrite Forall_forall in H.
  destruct (H {| eid := 1; classList := ["card"%string; "reveal"%string] |})
    as [Hv | Ho].
  - now left.
  - reflexivity.
  - discriminate Hv.
  - exact Ho.
Defined.

End RevealCallbackFacts.

(** ** Form validation: more on the validators *)

Module ValidatorMoreFacts.

Import Forms.

Lemma email_passes_iff f : validators_email f = [] <-> email_shape (value f).
Proof.
  rewrite ValidatorFacts.validators_email_cases.
  destruct (value f) as [|c v] eqn:E.
  - split; [discriminate|].
    intros (pre & a & b & c0 & post & Hv & _).
    destruct pre; [destruct a|]; simpl in Hv; discriminate Hv.
  - rewrite <- FormsStringFacts.email_test_shape.
    destruct (Regex.test email_pattern (c :: v)); split; intro H;
      try reflexivity; discriminate H.
Qed.

Lemma email_shape_extends v pre post :
  email_shape v -> email_shape (pre ++ v ++ post).
Proof.
  intros (p & a & b & c & q & -> & Ha & Hb & Hc).
  exists (pre ++ p), a, b, c, (q ++ post).
  split; [|auto]. repeat rewrite <- app_assoc. reflexivity.
Qed.

Lemma email_shape_length v : email_shape v -> 5 <= List.length v.
Proof.
  intros (p & a & b & c & q & -> & [Ha _] & [Hb _] & [Hc _]).
  repeat rewrite length_app.
  destruct a; [now elim Ha|]. destruct b; [now elim Hb|].
  destruct c; [now elim Hc|]. simpl. lia.
Qed.

Lemma email_shape_has_dot v : email_shape v -> In 46%N v.
Proof.
  intros (pre & a & b & c & post & -> & _).
  rewrite !in_app_iff. simpl. tauto.
Qed.

(** X10: the email pattern is not anchored.  A value that passes the
    email validator still passes with any text put before and after it;
    and a value that passes has an at sign, a full stop and at least five
    code units. *)
Theorem email_validator_is_unanchored :
  forall (f g : element) (pre post : jsstring),
    validators_email f = [] ->
    (value g = pre ++ value f ++ post -> validators_email g = []) /\
    In 64%N (value f) /\ In 46%N (value f) /\ 5 <= List.length (value f).
Proof.
  intros f g pre post Hf. apply email_passes_iff in Hf.
  split; [|split; [|split]].
  - intro Hg. apply email_passes_iff. rewrite Hg.
    now apply email_shape_extends.
  - now apply FormsStringFacts.email_shape_has_at.
  - now apply email_shape_has_dot.
  - now apply email_shape_length.
Qed.

Lemma email_validator_is_unanchored_witness :
  validators_email
    (control 1 0 (Input Email) true None (str "see a@b.c, or call")) = [].
Proof.
  destruct (email_validator_is_unanchored
              (control 1 0 (Input Email) true None (str "a@b.c"))
              (control 1 0 (Input Email) true None (str "see a@b.c, or call"))
              (str "see ") (str ", or call") eq_refl) as [H _].
  apply H. reflexivity.
Defined.

Section WithNumber.

Variable Number : jsstring -> jsnum.

(** X8: [validate] applies the email rule to inputs of type email only
    and the textarea rule to textareas only; every other input, whatever
    its type, gets the text rule, which fails exactly when the field is
    required and its value is blank. *)
Theorem text_rule_for_every_other_input :
  forall (f : element) (ty : input_type),
    kind f = Input ty -> ty <> Email ->
    run_validator Number f = validators_text f /\
    (required f = true -> blank (value f) ->
       run_validator Number f = msg_field_required) /\
    (~ (required f = true /\ blank (value f)) -> run_validator Number f = []).
Proof.
  intros f ty Hk Hty.
  assert (Hrun : run_validator Number f = validators_text f).
  { unfold run_validator, validator_name. rewrite Hk.
    destruct ty; try congruence; reflexivity. }
  rewrite Hrun. split; [reflexivity|]. unfold validators_text.
  destruct (required f && negb (truthy (trim (value f)))) eqn:E.
  - split; [reflexivity|]. intro Hn. exfalso. apply Hn.
    apply andb_true_iff in E. destruct E as [Hr Hb].
    split; [exact Hr | now apply FormsStringFacts.truthy_trim].
  - split; [|reflexivity]. intros Hr Hb.
    apply FormsStringFacts.truthy_trim in Hb. now rewrite Hr, Hb in E.
Qed.

(** X9: a textarea that is not required but has a [minlength] is
    rejected when left blank: the required check is skipped, the trimmed
    length is zero, and zero is below any positive minimum. *)
Theorem optional_textarea_left_blank_is_too_short :
  forall (f : element) (m : jsstring),
    required f = false -> blank (value f) ->
    minlength f = Some m -> m <> [] ->
    js_lt (JFin 0) (Number m) = true ->
    validators_textarea Number f = msg_too_short m /\
    truthy (validators_textarea Number f) = true.
Proof.
  intros f m Hr Hb Hm Hne Hlt.
  assert (H : validators_textarea Number f = msg_too_short m).
  { rewrite ValidatorFacts.validators_textarea_cases, Hr, Hm.
    cbn [andb]. apply FormsStringFacts.trim_blank in Hb. rewrite Hb.
    apply truthy_true_iff in Hne. rewrite Hne.
    change (js_length []) with (JFin 0). now rewrite Hlt. }
  split; [exact H|]. rewrite H. reflexivity.
Qed.

End WithNumber.

Lemma text_rule_for_every_other_input_witness :
  run_validator Number_of_digits
    (control 4 0 (Input Checkbox) true None (str "  ")) = msg_field_required.
Proof.
  destruct (text_rule_for_every_other_input Number_of_digits
              (control 4 0 (Input Checkbox) true None (str "  ")) Checkbox
              eq_refl) as (_ & H & _).
  - discriminate.
  - apply H; [reflexivity | repeat constructor].
Defined.

Lemma optional_textarea_left_blank_is_too_short_witness :
  validators_textarea Number_of_digits
    (control 5 0 Textarea false (Some (str "10")) [])
  = str "Please write at least 10 characters.".
Proof.
  refine (proj1 (optional_textarea_left_blank_is_too_short Number_of_digits
                   (control 5 0 Textarea false (Some (str "10")) []) (str "10")
                   eq_refl (Forall_nil _) eq_refl _ eq_refl)).
  discriminate.
Defined.

End ValidatorMoreFacts.

(** ** Form validation: what a validation pass leaves alone *)

Module ValidateMoreFacts.

Import Forms.

Lemma toggle_idem c b l :
  ClassList.toggle c b (ClassList.toggle c b l) = ClassList.toggle c b l.
Proof.
  unfold ClassList.toggle. destruct b.
  - unfold ClassList.add at 1.
    now rewrite ClassListFacts.contains_add_same.
  - unfold ClassList.remove. rewrite RevealCallbackFacts.filter_filter_and.
    apply filter_ext. intro x. now destruct (negb (String.eqb c x)).
Qed.

Lemma display_idem msg e : display msg (display msg e) = display msg e.
Proof.
  unfold display, set_classList, set_textContent. simpl.
  now rewrite toggle_idem.
Qed.

Lemma mark_idem msg e : mark msg (mark msg e) = mark msg e.
Proof.
  unfold mark, set_classList, set_aria_invalid. simpl.
  now rewrite toggle_idem.
Qed.

Lemma shown_idem err field msg e :
  err <> field ->
  shown err field msg (shown err field msg e) = shown err field msg e.
Proof.
  intro Hne. unfold shown.
  destruct (Nat.eq_dec (eid e) err) as [E1|E1];
    destruct (Nat.eq_dec (eid e) field) as [E2|E2].
  - congruence.
  - rewrite (DomFacts.update_one_hit err _ e E1).
    rewrite (DomFacts.update_one_miss field _ (display msg e)) by exact E2.
    rewrite (DomFacts.update_one_hit err _ (display msg e)) by exact E1.
    rewrite display_idem.
    now rewrite (DomFacts.update_one_miss field _ (display msg e)) by exact E2.
  - rewrite (DomFacts.update_one_miss err _ e E1).
    rewrite (DomFacts.update_one_hit field _ e E2).
    rewrite (DomFacts.update_one_miss err _ (mark msg e)) by exact E1.
    rewrite (DomFacts.update_one_hit field _ (mark msg e)) by exact E2.
    apply mark_idem.
  - rewrite (DomFacts.update_one_miss err _ e E1),
      (DomFacts.update_one_miss field _ e E2).
    now rewrite (DomFacts.update_one_miss err _ e E1),
      (DomFacts.update_one_miss field _ e E2).
Qed.

Lemma same_eid_same_element (l : list element) a b :
  NoDup (map eid l) -> In a l -> In b l -> eid a = eid b -> a = b.
Proof.
  induction l as [|x l IH]; simpl; intros Hnd Ha Hb Hab; [contradiction|].
  inversion Hnd as [|? ? Hx Hnd']; subst.
  destruct Ha as [->|Ha]; destruct Hb as [->|Hb]; auto.
  - exfalso. apply Hx. rewrite Hab. now apply in_map.
  - exfalso. apply Hx. rewrite <- Hab. now apply in_map.
Qed.

Lemma kept_older n l l' :
  Forall2 kept_or_removed l l' ->
  map eid (filter (older n) l') = map eid (filter (older n) l).
Proof.
  intro H. induction H as [|e e' l l' He _ IH]; simpl; [reflexivity|].
  assert (Ho : older n e' = older n e)
    by (unfold older; now rewrite (DomFacts.kept_eid _ _ He)).
  rewrite Ho. destruct (older n e); simpl; [|exact IH].
  now rewrite (DomFacts.kept_eid _ _ He), IH.
Qed.

(** A child of an element is another element. *)
Lemma child_is_other id l e :
  NoDup (map eid l) -> In e (children id l) -> eid e <> id.
Proof.
  induction l as [|x l IH]; simpl; intros Hnd H; [contradiction|].
  inversion Hnd as [|? ? Hx Hnd']; subst.
  destruct (eid x =? id) eqn:E.
  - apply Nat.eqb_eq in E. subst id. intro Heq. apply Hx. rewrite <- Heq.
    apply in_map. apply filter_In in H. destruct H as [H _].
    rewrite <- (DomFacts.split_subtree_app (depth x) l).
    apply in_or_app. now left.
  - now apply IH.
Qed.

Section WithNumber.

Variable Number : jsstring -> jsnum.

(** The state after a validation pass, spelled out. *)
Lemma validate_result field st f st1 valid :
  well_formed st -> find_el field (dom st) = Some f ->
  validate Number field st = Some (st1, valid) ->
  exists l1 err created s0,
    ensureErrorEl_in field (next_eid st) (dom st) = Some (l1, err, created) /\
    st1 = {| dom := map (shown err field (run_validator Number f))
                        (remove_children err l1);
             next_eid := if created then S (next_eid st) else next_eid st;
             activeElement := activeElement st;
             defaultPrevented := defaultPrevented st |} /\
    valid = negb (truthy (run_validator Number f)) /\
    err <> field /\
    find_el field l1 = Some f /\
    nextElementSibling field l1 = Some s0 /\ eid s0 = err /\
    has_class "field-error" s0 = true /\
    filter (older (next_eid st)) l1 = dom st /\
    NoDup (map eid l1) /\
    (created = true -> err = next_eid st /\ children err l1 = []) /\
    (created = false -> l1 = dom st).
Proof.
  intros [Hnd Hlt] Hf Hv.
  destruct (DomFacts.ensure_spec field (next_eid st) (dom st) f Hnd Hlt Hf)
    as (l1 & err & created & s0 & He & Hs0 & Hs0e & Hs0c & Hne & Hf1 & Hfilt
        & _ & Hnd1 & _ & Hcr & Hre).
  exists l1, err, created, s0.
  unfold validate in Hv. rewrite Hf in Hv. simpl in Hv.
  rewrite (DomFacts.showError_dom field _ st l1 err created He) in Hv.
  simpl in Hv. injection Hv as <- <-.
  repeat split; try assumption; now apply Hcr.
Qed.

(** The field is not a child of its own display. *)
Lemma field_not_child_of_display field l f d :
  NoDup (map eid l) -> find_el field l = Some f ->
  nextElementSibling field l = Some d ->
  ~ In f (children (eid d) l).
Proof.
  intros Hnd Hf Hd Hin.
  destruct (DomFacts.nes_remove_children_self field l d Hnd Hd) as [_ Hsame].
  rewrite Hf in Hsame.
  destruct (DomFacts.find_el_some _ _ _ Hsame) as [Hin1 _].
  destruct (DomFacts.find_el_some _ _ _ Hf) as [Hin0 _].
  pose proof (proj2 (DomFacts.remove_children_spec (eid d) l f Hnd Hin0) Hin)
    as Hin2.
  assert (Heq : f = set_removed f).
  { apply (same_eid_same_element (remove_children (eid d) l));
      [now rewrite DomFacts.remove_children_eid | exact Hin1 | exact Hin2
      | reflexivity]. }
  pose proof (DomFacts.find_el_live _ _ _ Hf) as Hlive.
  rewrite Heq in Hlive. discriminate.
Qed.

(** X12: a validation pass on one field touches that field, its error
    display and, when the display was already there, the children of the
    display, which it removes; nothing else.  The elements that were
    there are all still listed, in the order they had, and at most one
    element is added; every element that is not the field, not its
    display and not a child of its display is left exactly as it was; a
    child of the display is removed and not changed otherwise; neither
    the focus nor the default action of a pending event is touched. *)
Theorem validation_pass_is_local :
  forall (field : nat) (st : state) (f : element) (st1 : state) (valid : bool),
    well_formed st -> find_el field (dom st) = Some f ->
    validate Number field st = Some (st1, valid) ->
    activeElement st1 = activeElement st /\
    defaultPrevented st1 = defaultPrevented st /\
    List.length (dom st1) <= S (List.length (dom st)) /\
    map eid (filter (older (next_eid st)) (dom st1)) = map eid (dom st) /\
    (forall e, In e (dom st) -> eid e <> field ->
       (forall d, nextElementSibling field (dom st) = Some d ->
                  has_class "field-error" d = true ->
                  eid e <> eid d /\ ~ In e (children (eid d) (dom st))) ->
       In e (dom st1)) /\
    (forall d e, nextElementSibling field (dom st) = Some d ->
                 has_class "field-error" d = true ->
                 In e (children (eid d) (dom st)) ->
                 In (set_removed e) (dom st1)).
Proof.
  intros field st f st1 valid Hwf Hf Hv.
  destruct (validate_result field st f st1 valid Hwf Hf Hv)
    as (l1 & err & created & s0 & He & -> & _ & Hne & Hf1 & Hs0 & Hs0e & Hs0c
        & Hfilt & Hnd1 & Hcr & Hre).
  destruct Hwf as [Hnd Hlt].
  set (msg := run_validator Number f) in *.
  simpl. split; [reflexivity|]. split; [reflexivity|].
  assert (Hin1 : forall e, In e (dom st) -> In e l1).
  { intros e Hin. rewrite <- Hfilt in Hin. now apply filter_In in Hin. }
  split; [|split; [|split]].
  - rewrite length_map, DomFacts.remove_children_length.
    destruct (DomFacts.ensure_shape field (next_eid st) (dom st) f Hnd Hf)
      as (l1' & err' & created' & He' & Hcase).
    rewrite He in He'. injection He' as <- <- <-.
    destruct Hcase as [(_ & ->) | (_ & _ & pre & post & -> & _ & ->)].
    + apply Nat.le_succ_diag_r.
    + rewrite !length_app. simpl. lia.
  - rewrite (DomFacts.filter_map_commute (shown err field msg)
               (older (next_eid st)) (older (next_eid st)))
      by (intro e; unfold older; now rewrite DomFacts.eid_shown).
    rewrite DomFacts.map_eid_map by apply DomFacts.eid_shown.
    rewrite (kept_older _ l1) by apply DomFacts.remove_children_kept.
    now rewrite Hfilt.
  - intros e Hin Hef Hdisp.
    assert (Hother : eid e <> err /\ In e (remove_children err l1)).
    { destruct created.
      - destruct (Hcr eq_refl) as [-> Hnone].
        rewrite (DomFacts.remove_children_none _ _ Hnone).
        split; [|now apply Hin1].
        rewrite Forall_forall in Hlt. specialize (Hlt e Hin). lia.
      - rewrite (Hre eq_refl) in *. subst err.
        destruct (Hdisp s0 Hs0 Hs0c) as [Hd1 Hd2]. split; [exact Hd1|].
        now apply (DomFacts.remove_children_spec (eid s0) (dom st) e Hnd Hin). }
    destruct Hother as [Hee Hin2].
    apply in_map_iff. exists e. split; [|exact Hin2].
    now apply DomFacts.shown_other.
  - intros d e Hd Hdc Hchild.
    pose proof (DomFacts.ensure_reuse field (next_eid st) (dom st) d Hd Hdc)
      as Hreuse.
    rewrite Hreuse in He. injection He as <- <- <-.
    pose proof (DomFacts.children_in _ _ _ Hchild) as Hin.
    apply in_map_iff. exists (set_removed e). split.
    + apply DomFacts.shown_other; simpl.
      * now apply (child_is_other (eid d) (dom st)).
      * intro Heq.
        assert (e = f)
          by exact (DomFacts.find_el_unique field (dom st) f e Hnd Hf Hin Heq).
        subst e.
        exact (field_not_child_of_display field (dom st) f d Hnd Hf Hd Hchild).
    + now apply (DomFacts.remove_children_spec (eid d) (dom st) e Hnd Hin).
Qed.

(** X13: validation is idempotent: a second pass on the same field, its
    value unchanged, returns the same verdict and leaves the form exactly
    as the first pass left it. *)
Theorem validation_is_idempotent :
  forall (field : nat) (st : state) (f : element) (st1 : state) (valid : bool),
    well_formed st -> find_el field (dom st) = Some f ->
    validate Number field st = Some (st1, valid) ->
    validate Number field st1 = Some (st1, valid).
Proof.
  intros field st f st1 valid Hwf Hf Hv.
  destruct (validate_result field st f st1 valid Hwf Hf Hv)
    as (l1 & err & created & s0 & He & Hst1 & -> & Hne & Hf1 & Hs0 & Hs0e
        & Hs0c & _ & Hnd1 & _).
  set (msg := run_validator Number f) in *.
  assert (Hdom : dom st1 = map (shown err field msg) (remove_children err l1))
    by now rewrite Hst1.
  subst err.
  destruct (DomFacts.nes_remove_children_self field l1 s0 Hnd1 Hs0)
    as [Hs1 Hf2].
  assert (Hfield : find_el field (dom st1) = Some (shown (eid s0) field msg f)).
  { rewrite Hdom, DomFacts.find_el_map
      by (apply DomFacts.eid_shown || apply DomFacts.removed_shown).
    now rewrite Hf2, Hf1. }
  assert (Hmsg : run_validator Number (shown (eid s0) field msg f) = msg).
  { apply ValidateFacts.run_validator_core, DomFacts.core_shown. }
  assert (Hre : ensureErrorEl_in field (next_eid st1) (dom st1)
                = Some (dom st1, eid s0, false)).
  { assert (Hsib : nextElementSibling field (dom st1)
                   = Some (shown (eid s0) field msg s0)).
    { rewrite Hdom, DomFacts.nextElementSibling_map
        by (apply DomFacts.eid_shown || apply DomFacts.depth_shown
            || apply DomFacts.removed_shown).
      now rewrite Hs1. }
    pose proof (DomFacts.ensure_reuse field (next_eid st1) _ _ Hsib) as H.
    rewrite DomFacts.has_field_error_shown, DomFacts.eid_shown in H.
    now apply H. }
  unfold validate. rewrite Hfield. simpl. rewrite Hmsg.
  rewrite (DomFacts.showError_dom field msg st1 _ _ _ Hre). simpl.
  assert (Hsame : map (shown (eid s0) field msg)
                      (remove_children (eid s0) (dom st1)) = dom st1).
  { rewrite Hdom.
    rewrite DomFacts.remove_children_map
      by (apply DomFacts.eid_shown || apply DomFacts.depth_shown
          || apply DomFacts.shown_set_removed).
    rewrite DomFacts.remove_children_idem, map_map.
    apply map_ext. intro e. now apply shown_idem. }
  rewrite Hsame. now destruct st1.
Qed.

End WithNumber.

Lemma validation_pass_is_local_witness :
  exists st1 valid,
    validate Number_of_digits 1 form_with_filled_display = Some (st1, valid) /\
    In (control 4 0 (Input Text) true None []) (dom st1) /\
    In {| eid := 3; depth := 1; kind := Other "span";
          classList := ["error"%string]; aria_invalid := None;
          textContent := str "old"; required := false; value := [];
          minlength := None; removed := true |} (dom st1).
Proof.
  destruct (validate Number_of_digits 1 form_with_filled_display)
    as [[st1 valid]|] eqn:Hv; [|discriminate Hv].
  assert (Hwf : well_formed form_with_filled_display).
  { split; simpl.
    - repeat constructor; simpl; intuition; discriminate.
    - repeat constructor. }
  destruct (validation_pass_is_local Number_of_digits 1
              form_with_filled_display
              (control 1 0 (Input Text) false None (str "x")) st1 valid
              Hwf eq_refl Hv)
    as (_ & _ & _ & _ & Hother & Hchild).
  exists st1, valid. split; [reflexivity|]. split.
  - apply Hother.
    + simpl. right. right. right. now left.
    + discriminate.
    + intros d Hd Hc. vm_compute in Hd. injection Hd as <-.
      split; [discriminate|]. vm_compute. intros [H|[]]. discriminate H.
  - apply (Hchild
             {| eid := 2; depth := 0; kind := Other "div";
                classList := ["field-error"%string]; aria_invalid := None;
                textContent := []; required := false; value := [];
                minlength := None; removed := false |}
             {| eid := 3; depth := 1; kind := Other "span";
                classList := ["error"%string]; aria_invalid := None;
                textContent := str "old"; required := false; value := [];
                minlength := None; removed := false |});
      [reflexivity | reflexivity | vm_compute; now left].
Defined.

Lemma validation_is_idempotent_witness :
  exists st1 valid,
    validate Number_of_digits 1 sample_form = Some (st1, valid) /\
    validate Number_of_digits 1 st1 = Some (st1, valid).
Proof.
  destruct (validate Number_of_digits 1 sample_form) as [[st1 valid]|] eqn:Hv;
    [|discriminate Hv].
  exists st1, valid. split; [reflexivity|].
  exact (validation_is_idempotent Number_of_digits 1 sample_form
           (control 1 0 (Input Email) true None (str "a@b")) st1 valid
           ValidateFacts.sample_form_well_formed eq_refl Hv).
Defined.

End ValidateMoreFacts.

(** ** Form validation: the error display of a field stays in place *)

Module DisplayFacts.

Import Forms DomFacts.

(** An element inserted right after a subtree of depth [d], at depth
    [d], leaves every element inside the subtree with the next sibling it
    had. *)
Lemma sibling_kept_inside field d inside after x s :
  Forall (fun e => d < depth e) inside -> shallow_head d after ->
  eid x <> field -> depth x = d ->
  nextElementSibling field (inside ++ after) = Some s ->
  nextElementSibling field (inside ++ x :: after) = Some s.
Proof.
  intros Hin Hafter Hx Hd.
  induction Hin as [|y ins Hy _ IH]; simpl; intro H.
  - apply Nat.eqb_neq in Hx. now rewrite Hx.
  - destruct (eid y =? field); [|now apply IH].
    destruct (removed y); [discriminate|].
    rewrite next_sibling_skip in H |- *.
    destruct (next_sibling_app_cases (depth y) ins)
      as [(r & Hr) | (Hall & Hr)].
    + rewrite Hr in *. exact H.
    + exfalso. rewrite Hr in H.
      rewrite (next_sibling_shallow (depth y) d after Hy Hafter) in H.
      discriminate.
Qed.

Lemma ensure_some_found g fresh l r :
  ensureErrorEl_in g fresh l = Some r -> exists e, find_el g l = Some e.
Proof.
  revert r. induction l as [|x l IH]; simpl; intros r H; [discriminate|].
  destruct (eid x =? g) eqn:E.
  - destruct (removed x) eqn:R; [discriminate|].
    exists x. now apply find_el_cons_hit.
  - destruct (ensureErrorEl_in g fresh l) as [r'|]; [|discriminate].
    destruct (IH r' eq_refl) as (e & He). exists e.
    now rewrite find_el_cons_miss.
Qed.

(** [ensureErrorEl] for one field leaves every other field with the next
    sibling it had. *)
Lemma ensure_keeps_sibling field g fresh l l1 err created s :
  g <> field -> field <> fresh -> NoDup (map eid l) ->
  ensureErrorEl_in g fresh l = Some (l1, err, created) ->
  nextElementSibling field l = Some s ->
  nextElementSibling field l1 = Some s.
Proof.
  intros Hg Hfresh. revert l1.
  induction l as [|x l IH]; simpl; intros l1 Hnd He Hs; [discriminate|].
  inversion Hnd as [|? ? Hx Hnd']; subst.
  destruct (eid x =? g) eqn:Eg.
  - (* the element is created for [x] *)
    assert (Hxf : (eid x =? field) = false).
    { apply Nat.eqb_neq. apply Nat.eqb_eq in Eg. congruence. }
    rewrite Hxf in Hs.
    destruct (removed x); [discriminate|].
    pose proof (split_subtree_app (depth x) l) as Happ.
    pose proof (split_subtree_fst_deeper (depth x) l) as Hdeep.
    pose proof (split_subtree_snd_head (depth x) l) as Hhead.
    destruct (split_subtree (depth x) l) as [inside after]. simpl in *.
    assert (Hins : nextElementSibling field
                     (x :: inside ++ new_error_el fresh (depth x) :: after)
                   = Some s).
    { simpl. rewrite Hxf.
      apply sibling_kept_inside with (d := depth x); auto.
      now rewrite Happ. }
    destruct (next_sibling (depth x) after) as [el|].
    + destruct (has_class "field-error" el); injection He as <- _ _.
      * simpl. now rewrite Hxf.
      * exact Hins.
    + injection He as <- _ _. exact Hins.
  - destruct (ensureErrorEl_in g fresh l) as [[[l1' err'] created']|] eqn:He';
      simpl in He; [|discriminate].
    injection He as <- <- <-.
    destruct (ensure_some_found g fresh l _ He') as (e & Hfe).
    destruct (ensure_shape g fresh l e Hnd' Hfe)
      as (l1'' & err'' & created'' & He'' & Hcase).
    rewrite He' in He''. injection He'' as <- <- <-.
    simpl. destruct (eid x =? field) eqn:Ef.
    + destruct (removed x); [discriminate|].
      destruct Hcase as [(_ & ->) | (_ & _ & pre & post & -> & Hin & ->)];
        [exact Hs|].
      rewrite next_sibling_skip in Hs |- *.
      rewrite next_sibling_insert; [exact Hs|].
      intro Hall. rewrite Forall_forall in Hall.
      destruct (Hall e Hin) as [Hlt | [_ Hr]]; [exact Hlt|].
      rewrite (find_el_live _ _ _ Hfe) in Hr. discriminate.
    + now apply IH.
Qed.

Lemma has_display_map field (h : element -> element) l :
  (forall e, eid (h e) = eid e) -> (forall e, depth (h e) = depth e) ->
  (forall e, removed (h e) = removed e) ->
  (forall e, has_class "field-error" (h e) = has_class "field-error" e) ->
  has_display field (map h l) = has_display field l.
Proof.
  intros He Hd Hr Hc. unfold has_display.
  rewrite nextElementSibling_map by assumption.
  destruct (nextElementSibling field l); simpl; auto.
Qed.

Lemma has_display_found field l :
  has_display field l = true -> exists f, find_el field l = Some f.
Proof.
  unfold has_display.
  destruct (nextElementSibling field l) as [s|] eqn:Hs; [|discriminate].
  intros _. exact (nextElementSibling_found _ _ _ Hs).
Qed.

Lemma update_el_value_keeps g v :
  (forall e, eid (update_one g (set_value v) e) = eid e) /\
  (forall e, depth (update_one g (set_value v) e) = depth e) /\
  (forall e, removed (update_one g (set_value v) e) = removed e) /\
  (forall e, has_class "field-error" (update_one g (set_value v) e)
             = has_class "field-error" e).
Proof.
  repeat split; intro e; unfold update_one; now destruct (eid e =? g).
Qed.

Section WithNumber.

Variable Number : jsstring -> jsnum.

Lemma validate_some field st st1 valid :
  validate Number field st = Some (st1, valid) ->
  exists f, find_el field (dom st) = Some f.
Proof.
  unfold validate. destruct (find_el field (dom st)) as [f|]; simpl;
    [now exists f | discriminate].
Qed.

Lemma validate_well_formed field st st1 valid :
  well_formed st -> validate Number field st = Some (st1, valid) ->
  well_formed st1 /\ next_eid st <= next_eid st1.
Proof.
  intros Hwf Hv. destruct (validate_some _ _ _ _ Hv) as (f & Hf).
  destruct (showError_spec field (run_validator Number f) st f Hwf Hf)
    as (st' & _ & Hshow & Hwf' & Hn & _).
  unfold validate in Hv. rewrite Hf in Hv. simpl in Hv.
  rewrite Hshow in Hv. simpl in Hv. injection Hv as <- _. now split.
Qed.

Lemma validate_gives_display field st st1 valid :
  well_formed st -> validate Number field st = Some (st1, valid) ->
  has_display field (dom st1) = true.
Proof.
  intros Hwf Hv. destruct (validate_some _ _ _ _ Hv) as (f & Hf).
  destruct (ValidateFacts.validate_spec Number field st f Hwf Hf)
    as (st' & s & Hv' & _ & _ & Hs & Hc & _).
  rewrite Hv in Hv'. injection Hv' as <-.
  unfold has_display. now rewrite Hs.
Qed.

(** A validation pass on one field leaves every other field with its
    display, unless the pass removes the field from its parent. *)
Lemma validate_keeps_display field g st st1 valid :
  well_formed st -> validate Number g st = Some (st1, valid) ->
  has_display field (dom st) = true ->
  has_display field (dom st1) = true \/ find_el field (dom st1) = None.
Proof.
  intros Hwf Hv Hd.
  destruct (Nat.eq_dec g field) as [->|Hg];
    [left; now apply (validate_gives_display field st st1 valid)|].
  destruct (validate_some _ _ _ _ Hv) as (e & He).
  destruct (ValidateMoreFacts.validate_result Number g st e st1 valid Hwf He Hv)
    as (l1 & err & created & s0 & Hens & -> & _ & _ & _ & _ & _ & _ & _ & Hnd1
        & _).
  simpl. unfold has_display in Hd.
  destruct (nextElementSibling field (dom st)) as [s|] eqn:Hs; [|discriminate].
  destruct (nextElementSibling_found _ _ _ Hs) as (f & Hf).
  destruct (find_el_some _ _ _ Hf) as [Hin Hid].
  destruct Hwf as [Hnd Hlt]. rewrite Forall_forall in Hlt.
  pose proof (Hlt f Hin) as Hfresh.
  assert (Hs1 : nextElementSibling field l1 = Some s).
  { apply (ensure_keeps_sibling field g (next_eid st) (dom st) l1 err created);
      auto. lia. }
  set (msg := run_validator Number e).
  destruct (nes_remove_children field err l1 Hnd1) as [Hsame | Hgone].
  - left. rewrite has_display_map.
    + unfold has_display. now rewrite Hsame, Hs1.
    + apply eid_shown.
    + apply depth_shown.
    + apply removed_shown.
    + apply has_field_error_shown.
  - right. rewrite find_el_map by (apply eid_shown || apply removed_shown).
    now rewrite Hgone.
Qed.

(** An element that was removed stays removed. *)
Lemma validate_keeps_removed field g st st1 valid :
  well_formed st -> validate Number g st = Some (st1, valid) ->
  field < next_eid st -> find_el field (dom st) = None ->
  find_el field (dom st1) = None.
Proof.
  intros Hwf Hv Hlt Hnone.
  destruct (validate_some _ _ _ _ Hv) as (e & He).
  destruct (ValidateMoreFacts.validate_result Number g st e st1 valid Hwf He Hv)
    as (l1 & err & created & s0 & Hens & -> & _ & _ & _ & _ & _ & _ & Hfilt
        & Hnd1 & _).
  simpl. rewrite find_el_map by (apply eid_shown || apply removed_shown).
  destruct (find_el field (remove_children err l1)) as [x|] eqn:Hx;
    [|reflexivity].
  exfalso.
  pose proof (kept_find_el field l1 _ x Hnd1 (remove_children_kept err l1) Hx)
    as Hx1.
  destruct (find_el_some _ _ _ Hx1) as [Hin Hid].
  assert (Hold : In x (dom st)).
  { rewrite <- Hfilt. apply filter_In. split; [exact Hin|].
    unfold older. apply Nat.ltb_lt. lia. }
  destruct Hwf as [Hnd _].
  rewrite <- Hid in Hnone.
  rewrite (find_el_self x (dom st) Hnd Hold (find_el_live _ _ _ Hx1)) in Hnone.
  discriminate.
Qed.

Lemma validate_keeps_display_or_removed field g st st1 valid :
  well_formed st -> validate Number g st = Some (st1, valid) ->
  display_or_removed field st -> display_or_removed field st1.
Proof.
  intros Hwf Hv [Hlt Hcase].
  destruct (validate_well_formed g st st1 valid Hwf Hv) as [_ Hn].
  split; [lia|].
  destruct Hcase as [Hd | Hnone].
  - now apply (validate_keeps_display field g st st1 valid).
  - right. now apply (validate_keeps_removed field g st st1 valid).
Qed.

Lemma validate_gives_display_or_removed field st st1 valid :
  well_formed st -> validate Number field st = Some (st1, valid) ->
  display_or_removed field st1.
Proof.
  intros Hwf Hv. split.
  - destruct (validate_some _ _ _ _ Hv) as (f & Hf).
    destruct (find_el_some _ _ _ Hf) as [Hin Hid].
    destruct (validate_well_formed field st st1 valid Hwf Hv) as [_ Hn].
    destruct Hwf as [_ Hlt]. rewrite Forall_forall in Hlt.
    specialize (Hlt f Hin). lia.
  - left. now apply (validate_gives_display field st st1 valid).
Qed.

(** A field on which a validation pass succeeds has a parent, so it has
    its display if it ever had one. *)
Lemma validated_has_display field st st1 valid :
  display_or_removed field st ->
  validate Number field st = Some (st1, valid) ->
  has_display field (dom st) = true.
Proof.
  intros [_ [Hd | Hnone]] Hv; [exact Hd|].
  destruct (validate_some _ _ _ _ Hv) as (f & Hf). congruence.
Qed.

Lemma validate_with_display_creates_nothing field st st1 valid :
  has_display field (dom st) = true ->
  validate Number field st = Some (st1, valid) ->
  next_eid st1 = next_eid st /\
  List.length (dom st1) = List.length (dom st).
Proof.
  intros Hd Hv. unfold has_display in Hd.
  destruct (nextElementSibling field (dom st)) as [s|] eqn:Hs; [|discriminate].
  pose proof (ensure_reuse field (next_eid st) (dom st) s Hs Hd) as Hre.
  destruct (validate_some _ _ _ _ Hv) as (f & Hf).
  unfold validate in Hv. rewrite Hf in Hv. simpl in Hv.
  rewrite (showError_dom field _ st _ _ _ Hre) in Hv. simpl in Hv.
  injection Hv as <- _. simpl. split; [reflexivity|].
  now rewrite length_map, remove_children_length.
Qed.

Lemma form_step_well_formed ev st st1 :
  well_formed st -> form_step Number ev st = Some st1 ->
  well_formed st1 /\ next_eid st <= next_eid st1.
Proof.
  intros Hwf H. destruct ev as [g v | g]; simpl in H.
  - injection H as <-. destruct Hwf as [Hnd Hlt].
    destruct (update_el_value_keeps g v) as (He & _).
    split; [|simpl; lia]. split; simpl.
    + unfold update_el. now rewrite map_eid_map.
    + unfold update_el. apply Forall_forall. intros e' Hin.
      apply in_map_iff in Hin. destruct Hin as (e & <- & Hin).
      rewrite Forall_forall in Hlt. specialize (Hlt e Hin).
      now rewrite He.
  - rewrite ValidateFacts.on_blur_or_input_validate in H.
    destruct (validate Number g st) as [[st' v]|] eqn:Hv; [|discriminate].
    simpl in H. injection H as <-.
    now apply (validate_well_formed g st st' v).
Qed.

Lemma form_step_keeps_display_or_removed field ev st st1 :
  well_formed st -> form_step Number ev st = Some st1 ->
  display_or_removed field st -> display_or_removed field st1.
Proof.
  intros Hwf H Hd. destruct ev as [g v | g]; simpl in H.
  - injection H as <-. destruct Hd as [Hlt Hcase].
    destruct (update_el_value_keeps g v) as (He & Hdp & Hr & Hc).
    split; [exact Hlt|]. simpl. unfold update_el.
    rewrite has_display_map by assumption.
    rewrite find_el_map by assumption.
    destruct Hcase as [Hd | Hnone]; [now left | right; now rewrite Hnone].
  - rewrite ValidateFacts.on_blur_or_input_validate in H.
    destruct (validate Number g st) as [[st' v]|] eqn:Hv; [|discriminate].
    simpl in H. injection H as <-.
    now apply (validate_keeps_display_or_removed field g st st' v).
Qed.

Lemma run_form_keeps_display_or_removed field evs :
  forall st st2,
    well_formed st -> display_or_removed field st ->
    run_form Number evs st = Some st2 ->
    well_formed st2 /\ display_or_removed field st2.
Proof.
  induction evs as [|ev evs IH]; simpl; intros st st2 Hwf Hd H.
  - injection H as <-. now split.
  - destruct (form_step Number ev st) as [st1|] eqn:Hstep; [|discriminate].
    simpl in H. apply (IH st1 st2); auto.
    + now apply (form_step_well_formed ev st).
    + now apply (form_step_keeps_display_or_removed field ev st).
Qed.

(** X11: the error display of a field is created once.  After a first
    validation pass the field has its display next to it; whatever is
    typed afterwards and whichever fields the listeners validate, it
    still has; and a later pass on the field reuses it: no element is
    created and the form keeps its length. *)
Theorem error_display_is_created_once :
  forall (field : nat) (st st1 : state) (valid : bool)
         (evs : list form_event) (st2 st3 : state) (valid3 : bool),
    well_formed st ->
    validate Number field st = Some (st1, valid) ->
    run_form Number evs st1 = Some st2 ->
    validate Number field st2 = Some (st3, valid3) ->
    has_display field (dom st1) = true /\
    has_display field (dom st2) = true /\
    next_eid st3 = next_eid st2 /\
    List.length (dom st3) = List.length (dom st2).
Proof.
  intros field st st1 valid evs st2 st3 valid3 Hwf Hv Hrun Hv3.
  pose proof (validate_gives_display field st st1 valid Hwf Hv) as Hd1.
  pose proof (validate_gives_display_or_removed field st st1 valid Hwf Hv)
    as Hdr1.
  destruct (validate_well_formed field st st1 valid Hwf Hv) as [Hwf1 _].
  destruct (run_form_keeps_display_or_removed field evs st1 st2 Hwf1 Hdr1 Hrun)
    as [Hwf2 Hdr2].
  pose proof (validated_has_display field st2 st3 valid3 Hdr2 Hv3) as Hd2.
  split; [exact Hd1|]. split; [exact Hd2|].
  now apply (validate_with_display_creates_nothing field st2 st3 valid3).
Qed.

(** The fields validated so far, and those that had been handled before,
    keep their display through the rest of the pass, unless removed. *)
Lemma validate_each_displays ids :
  forall (shown_for : list nat) ok st st2 ok2,
    well_formed st ->
    (forall g, In g shown_for -> display_or_removed g st) ->
    validate_each Number ids ok st = Some (st2, ok2) ->
    well_formed st2 /\
    (forall g, In g (ids ++ shown_for) -> display_or_removed g st2).
Proof.
  induction ids as [|g ids IH]; simpl; intros shown_for ok st st2 ok2 Hwf Hd H.
  - injection H as <- _. now split.
  - destruct (validate Number g st) as [[st1 v]|] eqn:Hv; [|discriminate].
    simpl in H.
    destruct (IH (g :: shown_for) (if v then ok else false) st1 st2 ok2)
      as [Hwf2 Hd2].
    + now apply (validate_well_formed g st st1 v).
    + intros h [<-|Hh].
      * now apply (validate_gives_display_or_removed g st st1 v).
      * apply (validate_keeps_display_or_removed h g st st1 v); auto.
    + exact H.
    + split; [exact Hwf2|]. intros h Hh. apply Hd2.
      destruct Hh as [<-|Hh]; apply in_or_app.
      * right. now left.
      * apply in_app_or in Hh. destruct Hh; [now left | right; now right].
Qed.

(** A pass over fields that have been handled before creates nothing,
    and every field it validates had its display when the pass began. *)
Lemma validate_each_creates_nothing ids :
  forall ok st st2 ok2,
    well_formed st ->
    (forall g, In g ids -> display_or_removed g st) ->
    validate_each Number ids ok st = Some (st2, ok2) ->
    next_eid st2 = next_eid st /\
    List.length (dom st2) = List.length (dom st) /\
    (forall g, In g ids -> has_display g (dom st) = true).
Proof.
  induction ids as [|g ids IH]; simpl; intros ok st st2 ok2 Hwf Hd H.
  - injection H as <- _. repeat split. intros g [].
  - destruct (validate Number g st) as [[st1 v]|] eqn:Hv; [|discriminate].
    simpl in H.
    pose proof (validated_has_display g st st1 v (Hd g (or_introl eq_refl)) Hv)
      as Hdg.
    destruct (validate_with_display_creates_nothing g st st1 v Hdg Hv)
      as [Hn Hl].
    destruct (IH (if v then ok else false) st1 st2 ok2) as (Hn2 & Hl2 & Hd2).
    + now apply (validate_well_formed g st st1 v).
    + intros h Hh.
      apply (validate_keeps_display_or_removed h g st st1 v); auto.
    + exact H.
    + split; [congruence|]. split; [congruence|].
      intros h [<-|Hh]; [exact Hdg|].
      destruct (Hd h (or_intror Hh)) as [_ [Hdh | Hnone]]; [exact Hdh|].
      exfalso.
      pose proof (Hd2 h Hh) as Hd1.
      destruct (has_display_found _ _ Hd1) as (f & Hf).
      destruct (Hd h (or_intror Hh)) as [Hlt _].
      rewrite (validate_keeps_removed h g st st1 v Hwf Hv Hlt Hnone) in Hf.
      discriminate.
Qed.

Lemma on_submit_cases fields st st1 :
  on_submit Number fields st = Some st1 ->
  exists st' ok,
    validate_each Number fields true st = Some (st', ok) /\
    dom st1 = dom st' /\ next_eid st1 = next_eid st'.
Proof.
  unfold on_submit.
  destruct (validate_each Number fields true st) as [[st' ok]|]; simpl;
    [|discriminate].
  intro H. injection H as <-. exists st', ok. split; [reflexivity|].
  destruct ok; [now split|].
  unfold focus_first_error. simpl.
  now destruct (querySelector_error (dom st')).
Qed.

(** X14: a submit gives every field it validates its error display, and
    a submit of a form whose fields all have their display creates no
    element: submitting again never piles up error displays. *)
Theorem submit_creates_each_display_once :
  forall (fields : list nat) (st st1 st2 : state),
    well_formed st ->
    on_submit Number fields st = Some st1 ->
    on_submit Number fields st1 = Some st2 ->
    (forall g, In g fields -> has_display g (dom st1) = true) /\
    next_eid st2 = next_eid st1 /\
    List.length (dom st2) = List.length (dom st1).
Proof.
  intros fields st st1 st2 Hwf H1 H2.
  destruct (on_submit_cases fields st st1 H1) as (sa & oka & Ha & Hda & Hna).
  destruct (on_submit_cases fields st1 st2 H2) as (sb & okb & Hb & Hdb & Hnb).
  destruct (validate_each_displays fields [] true st sa oka Hwf) as [Hwfa Hdisp];
    [intros g [] | exact Ha |].
  assert (Hwf1 : well_formed st1).
  { destruct Hwfa as [Hnd Hlt]. split; [now rewrite Hda | now rewrite Hda, Hna]. }
  assert (Hall : forall g, In g fields -> display_or_removed g st1).
  { intros g Hg. unfold display_or_removed. rewrite Hda, Hna.
    apply Hdisp. apply in_or_app. now left. }
  destruct (validate_each_creates_nothing fields true st1 sb okb Hwf1 Hall Hb)
    as (Hn & Hl & Hd).
  split; [exact Hd|]. split; congruence.
Qed.

End WithNumber.

Lemma error_display_is_created_once_witness :
  exists st1 st2 st3 v1 v3,
    validate Number_of_digits 1 sample_form = Some (st1, v1) /\
    run_form Number_of_digits
      [Typed 1 (str "a@b.com"); Listened 2; Listened 1] st1 = Some st2 /\
    validate Number_of_digits 1 st2 = Some (st3, v3) /\
    has_display 1 (dom st2) = true /\
    List.length (dom st3) = List.length (dom st2).
Proof.
  destruct (validate Number_of_digits 1 sample_form) as [[st1 v1]|] eqn:H1;
    [|discriminate H1].
  destruct (run_form Number_of_digits
              [Typed 1 (str "a@b.com"); Listened 2; Listened 1] st1)
    as [st2|] eqn:H2; [|vm_compute in H1; injection H1 as <- _;
                         vm_compute in H2; discriminate H2].
  destruct (validate Number_of_digits 1 st2) as [[st3 v3]|] eqn:H3.
  2:{ vm_compute in H1. injection H1 as <- _.
      vm_compute in H2. injection H2 as <-.
      vm_compute in H3. discriminate H3. }
  destruct (error_display_is_created_once Number_of_digits 1 sample_form st1 v1
              _ st2 st3 v3 ValidateFacts.sample_form_well_formed H1 H2 H3)
    as (_ & Hd & _ & Hl).
  exists st1, st2, st3, v1, v3. repeat split; assumption.
Defined.

Lemma submit_creates_each_display_once_witness :
  exists st1 st2,
    on_submit Number_of_digits (form_fields (dom sample_form)) sample_form
      = Some st1 /\
    on_submit Number_of_digits (form_fields (dom sample_form)) st1 = Some st2 /\
    has_display 2 (dom st1) = true /\
    List.length (dom st2) = List.length (dom st1).
Proof.
  destruct (on_submit Number_of_digits (form_fields (dom sample_form))
              sample_form) as [st1|] eqn:H1; [|discriminate H1].
  destruct (on_submit Number_of_digits (form_fields (dom sample_form)) st1)
    as [st2|] eqn:H2.
  2:{ vm_compute in H1. injection H1 as <-.
      vm_compute in H2. discriminate H2. }
  destruct (submit_creates_each_display_once Number_of_digits _ sample_form
              st1 st2 ValidateFacts.sample_form_well_formed H1 H2)
    as (Hd & _ & Hl).
  exists st1, st2. repeat split; try assumption.
  apply Hd. simpl. right. now left.
Defined.

(** The children of an error display that is used again leave the form:
    on a form whose first display holds a [span] of class [error], the
    submit removes the [span], and the element of class [error] it then
    finds first is the failing field. *)
Example submit_skips_removed_children :
  forall Number : jsstring -> jsnum,
  exists st',
    on_submit Number [1; 4] form_with_filled_display = Some st' /\
    map eid (attached None (dom st')) = [1; 2; 4; 5] /\
    activeElement st' = Some 4.
Proof.
  intro Number. eexists. split; [reflexivity|]. split; reflexivity.
Qed.

End DisplayFacts.

(** ** Scroll-spy: the active link *)

Module ScrollSpyMoreFacts.

Import ScrollSpy.

Lemma is_active_setActive id a :
  is_active {| href := href a;
               link_classList :=
                 ClassList.toggle "active"
                   (String.eqb (href a) (String "#" id)) (link_classList a) |}
  = String.eqb (href a) (String "#" id).
Proof. apply ClassListFacts.contains_toggle_same. Qed.

Lemma active_links_setActive id links :
  map (fun a => (href a, is_active a)) (setActive id links)
  = map (fun a => (href a, String.eqb (href a) (String "#" id))) links.
Proof.
  unfold setActive. rewrite map_map. apply map_ext. intro a. simpl.
  now rewrite is_active_setActive.
Qed.

Lemma at_most_one_match {A : Type} (f : A -> string) (x : string) (l : list A) :
  NoDup (map f l) ->
  List.length (filter (fun a => String.eqb (f a) x) l) <= 1.
Proof.
  induction l as [|a l IH]; simpl; intro Hnd; [lia|].
  inversion Hnd as [|? ? Ha Hnd']; subst.
  destruct (String.eqb (f a) x) eqn:E; [|now apply IH].
  apply String.eqb_eq in E. subst x. simpl.
  replace (filter (fun b => String.eqb (f b) (f a)) l) with (@nil A);
    [simpl; lia|].
  symmetry. clear IH Hnd Hnd'. induction l as [|b l IHl]; simpl; [reflexivity|].
  destruct (String.eqb (f b) (f a)) eqn:Eb.
  - exfalso. apply Ha. apply String.eqb_eq in Eb. rewrite <- Eb. now left.
  - apply IHl. intro H. apply Ha. now right.
Qed.

(** X15: [setActive] marks exactly the links that point to the section:
    afterwards a link is active if and only if its [href] is [#] followed
    by the id, whatever was active before; so with distinct [href]s at
    most one link is active, none is when no link points to the id, and
    of two calls in a row only the last one shows. *)
Theorem setActive_marks_exactly_the_target :
  forall (id : string) (links : list link),
    map href (setActive id links) = map href links /\
    (forall a, In a (setActive id links) ->
               (is_active a = true <-> href a = String "#" id)) /\
    (NoDup (map href links) ->
       List.length (filter is_active (setActive id links)) <= 1) /\
    ((forall a, In a links -> href a <> String "#" id) ->
       filter is_active (setActive id links) = []) /\
    (forall id', map (fun a => (href a, is_active a))
                     (setActive id (setActive id' links))
                 = map (fun a => (href a, is_active a)) (setActive id links)).
Proof.
  intros id links. split; [apply ScrollSpyFacts.setActive_href|].
  split; [|split; [|split]].
  - intros a Hin. rewrite (ScrollSpyFacts.setActive_marks id links a Hin).
    apply String.eqb_eq.
  - intro Hnd. unfold setActive.
    rewrite (DomFacts.filter_map_commute _
               (fun a => String.eqb (href a) (String "#" id)) is_active)
      by (intro a; apply is_active_setActive).
    rewrite length_map. now apply at_most_one_match.
  - intro Hno. unfold setActive.
    rewrite (DomFacts.filter_map_commute _
               (fun a => String.eqb (href a) (String "#" id)) is_active)
      by (intro a; apply is_active_setActive).
    replace (filter (fun a => String.eqb (href a) (String "#" id)) links)
      with (@nil link); [reflexivity|].
    symmetry. induction links as [|a links IH]; simpl; [reflexivity|].
    replace (String.eqb (href a) (String "#" id)) with false.
    + apply IH. intros b Hb. apply Hno. now right.
    + symmetry. apply String.eqb_neq. apply Hno. now left.
  - intro id'. rewrite !active_links_setActive.
    unfold setActive. rewrite map_map. reflexivity.
Qed.

Lemma setActive_marks_exactly_the_target_witness :
  List.length (filter is_active (setActive "usage" two_links)) <= 1 /\
  filter is_active (setActive "missing" two_links) = [].
Proof.
  destruct (setActive_marks_exactly_the_target "usage" two_links)
    as (_ & _ & H1 & _).
  destruct (setActive_marks_exactly_the_target "missing" two_links)
    as (_ & _ & _ & H2 & _).
  split.
  - apply H1. repeat constructor; simpl; intuition; discriminate.
  - apply H2. intros a [<-|[<-|[]]]; discriminate.
Defined.

(** X16: a click on a link of the content navigation marks that link:
    once its timer has fired, the links with the [href] of the clicked
    link are active and no other link is. *)
Theorem link_click_marks_the_clicked_link :
  forall (a : link) (links : list link) (rest : string),
    href a = String "#" rest ->
    forall b, In b (on_link_click a links) ->
              (is_active b = true <-> href b = href a).
Proof.
  intros a links rest Ha b Hb. unfold on_link_click in *.
  rewrite (ScrollSpyFacts.setActive_marks _ links b Hb).
  rewrite Ha. simpl. apply String.eqb_eq.
Qed.

Lemma link_click_marks_the_clicked_link_witness :
  map (fun a => (href a, is_active a))
      (on_link_click {| href := "#usage"; link_classList := [] |} two_links)
  = [("#intro"%string, false); ("#usage"%string, true)] /\
  (forall b,
      In b (on_link_click {| href := "#usage"; link_classList := [] |}
              two_links) ->
      (is_active b = true <-> href b = "#usage"%string)).
Proof.
  split; [reflexivity|].
  exact (link_click_marks_the_clicked_link
           {| href := "#usage"; link_classList := [] |} two_links "usage"
           eq_refl).
Defined.

Section FirstLeast.

Variable A : Type.
Variable key : A -> Q.

(** The head of the sorted list is the first element of the list with
    the least key. *)
Lemma sort_head_first_least l v rest :
  sort (by_key key) l = v :: rest ->
  exists pre post,
    l = pre ++ v :: post /\
    (forall y, In y pre -> (key v < key y)%Q) /\
    (forall y, In y post -> (key v <= key y)%Q).
Proof.
  revert v rest. induction l as [|x l IH]; intros v rest H.
  - discriminate H.
  - unfold sort in H. simpl in H. fold (sort (by_key key) l) in H.
    destruct (sort (by_key key) l) as [|w ws] eqn:S.
    + simpl in H. injection H as <- _.
      apply ScrollSpyFacts.sort_nil in S. subst l.
      exists [], []. repeat split; intros y [].
    + destruct (IH w ws eq_refl) as (pre & post & -> & Hpre & Hpost).
      simpl in H. destruct (Qle_bool (by_key key x w) 0) eqn:E.
      * injection H as <- _. apply ScrollSpyFacts.cmp_le in E.
        exists [], (pre ++ w :: post). repeat split; [intros y []|].
        intros y Hy. apply in_app_or in Hy.
        destruct Hy as [Hy | [<- | Hy]].
        -- specialize (Hpre y Hy). lra.
        -- exact E.
        -- specialize (Hpost y Hy). lra.
      * injection H as <- _.
        assert (Hlt : (key w < key x)%Q).
        { apply Qnot_le_lt. intro Hc.
          apply ScrollSpyFacts.cmp_le in Hc. congruence. }
        exists (x :: pre), post. repeat split; auto.
        intros y [<-|Hy]; [exact Hlt | now apply Hpre].
Qed.

End FirstLeast.

(** X17: within one notification the observer callback marks the section
    of the intersecting entry with the least top, the first such entry in
    the order of delivery when several share it; a notification without
    an intersecting entry leaves the links as they are. *)
Theorem spy_marks_topmost_entry_of_notification :
  forall (entries : list entry) (links : list link),
    ((forall e, In e entries -> isIntersecting e = false) ->
     spy entries links = links) /\
    (forall e0, In e0 entries -> isIntersecting e0 = true ->
       exists pre v post,
         filter isIntersecting entries = pre ++ v :: post /\
         (forall e, In e pre ->
            (boundingClientRect_top v < boundingClientRect_top e)%Q) /\
         (forall e, In e post ->
            (boundingClientRect_top v <= boundingClientRect_top e)%Q) /\
         spy entries links = setActive (target_id v) links).
Proof.
  intros entries links. split.
  - intro Hnone. unfold spy.
    replace (filter isIntersecting entries) with (@nil entry); [reflexivity|].
    symmetry. induction entries as [|e entries IH]; simpl; [reflexivity|].
    rewrite (Hnone e (or_introl eq_refl)). apply IH.
    intros e' He'. apply Hnone. now right.
  - intros e0 Hin Hint. unfold spy.
    change (sort (fun a b => (boundingClientRect_top a
                              - boundingClientRect_top b)%Q))
      with (sort (by_key boundingClientRect_top)).
    cbv zeta.
    destruct (sort (by_key boundingClientRect_top)
                   (filter isIntersecting entries)) as [|v rest] eqn:S.
    + apply ScrollSpyFacts.sort_nil in S.
      assert (H : In e0 (filter isIntersecting entries))
        by (apply filter_In; now split).
      rewrite S in H. contradiction.
    + destruct (sort_head_first_least entry boundingClientRect_top _ v rest S)
        as (pre & post & Hl & Hpre & Hpost).
      exists pre, v, post. repeat split; assumption.
Qed.

Lemma spy_marks_topmost_entry_of_notification_witness :
  exists v,
    spy [ {| target_id := "usage"; isIntersecting := true;
             boundingClientRect_top := 120 |};
          {| target_id := "intro"; isIntersecting := true;
             boundingClientRect_top := 10 |} ] two_links
    = setActive (target_id v) two_links /\
    (boundingClientRect_top v <= 120)%Q.
Proof.
  destruct (spy_marks_topmost_entry_of_notification
              [ {| target_id := "usage"; isIntersecting := true;
                   boundingClientRect_top := 120 |};
                {| target_id := "intro"; isIntersecting := true;
                   boundingClientRect_top := 10 |} ] two_links) as [_ H].
  destruct (H {| target_id := "usage"; isIntersecting := true;
                 boundingClientRect_top := 120 |})
    as (pre & v & post & Hf & Hpre & Hpost & Hspy).
  - now left.
  - reflexivity.
  - exists v. split; [exact Hspy|].
    simpl in Hf.
    assert (Hin : In {| target_id := "usage"; isIntersecting := true;
                        boundingClientRect_top := 120 |}
                     (pre ++ v :: post)) by (rewrite <- Hf; now left).
    apply in_app_or in Hin. destruct Hin as [Hin | [Heq | Hin]].
    + apply Qlt_le_weak. exact (Hpre _ Hin).
    + rewrite Heq. apply Qle_refl.
    + exact (Hpost _ Hin).
Defined.

End ScrollSpyMoreFacts.

(** ** Back-to-top button: scroll events and animation frames *)

Module BackToTopMoreFacts.

Import BackToTop.

Lemma dispatch_all_invariant (I : page -> Prop) (ok : event -> bool) :
  (forall p ev, ok ev = true -> I p -> I (dispatch p ev)) ->
  forall evs p,
    (forall ev, In ev evs -> ok ev = true) ->
    I p -> I (dispatch_all evs p).
Proof.
  intros Hstep evs. induction evs as [|ev evs IH]; intros p Hok Hp.
  - exact Hp.
  - unfold dispatch_all. simpl. apply IH.
    + intros ev' Hin. apply Hok. now right.
    + apply Hstep; [apply Hok; now left | exact Hp].
Qed.

Lemma coalesced_step p ev :
  is_resize ev = false ->
  (frames_requested (button p) <= 1 /\
   (ticking (button p) = true <-> frames_requested (button p) = 1)) ->
  frames_requested (button (dispatch p ev)) <= 1 /\
  (ticking (button (dispatch p ev)) = true
   <-> frames_requested (button (dispatch p ev)) = 1).
Proof.
  destruct p as [y [cl tk fr]]. simpl. intros Hev [Hle Hiff].
  destruct ev as [y'| |]; [| |discriminate Hev]; simpl.
  - unfold onScroll. simpl. destruct tk; simpl.
    + split; [exact Hle | exact Hiff].
    + assert (fr = 0) by (destruct Hiff as [_ H]; destruct fr as [|[|]];
                          [reflexivity | now specialize (H eq_refl) | lia]).
      subst fr. split; [lia | tauto].
  - unfold on_animation_frame. simpl. destruct fr as [|n]; simpl.
    + split; [lia | exact Hiff].
    + split; [lia|]. split; [discriminate | lia].
Qed.

(** X18: scroll events are coalesced. From the loaded page, over any
    sequence of scroll events and animation frames, at most one [update]
    is waiting for the next frame, and [ticking] is set exactly while one
    is waiting: between two frames only the first scroll event requests a
    callback. *)
Theorem scroll_events_are_coalesced :
  forall (evs : list event) (y : Q),
    (forall ev, In ev evs -> is_resize ev = false) ->
    frames_requested (button (dispatch_all evs (load y))) <= 1 /\
    (ticking (button (dispatch_all evs (load y))) = true
     <-> frames_requested (button (dispatch_all evs (load y))) = 1).
Proof.
  intros evs y Hev.
  apply (dispatch_all_invariant
           (fun p => frames_requested (button p) <= 1 /\
                     (ticking (button p) = true
                      <-> frames_requested (button p) = 1))
           (fun ev => negb (is_resize ev))).
  - intros p ev Hok. apply coalesced_step.
    now apply negb_true_iff in Hok.
  - intros ev Hin. now rewrite (Hev ev Hin).
  - simpl. split; [lia|]. split; [discriminate | discriminate].
Qed.

Lemma scroll_events_are_coalesced_witness :
  frames_requested
    (button (dispatch_all [Scroll 100; Scroll 300; Scroll 600] (load 0))) <= 1.
Proof.
  refine (proj1 (scroll_events_are_coalesced
                   [Scroll 100; Scroll 300; Scroll 600] 0%Q _)).
  intros ev [<-|[<-|[<-|[]]]]; reflexivity.
Defined.

(** A resize between two scroll events clears [ticking] while the
    callback of the first is still waiting, so the second requests
    another one. *)
Example resize_lets_a_second_frame_be_requested :
  frames_requested
    (button (dispatch_all [Scroll 100; Resize; Scroll 300] (load 0))) = 2.
Proof. reflexivity. Qed.

Lemma settled_step p ev :
  ((ticking (button p) = true -> 1 <= frames_requested (button p)) /\
   (frames_requested (button p) = 0 ->
    fab_visible (button p) = js_gt (scrollY p) threshold)) ->
  (ticking (button (dispatch p ev)) = true ->
   1 <= frames_requested (button (dispatch p ev))) /\
  (frames_requested (button (dispatch p ev)) = 0 ->
   fab_visible (button (dispatch p ev))
   = js_gt (scrollY (dispatch p ev)) threshold).
Proof.
  destruct p as [y [cl tk fr]]. simpl. intros [Htk Hfr].
  destruct ev as [y'| |]; simpl.
  - unfold onScroll. simpl. destruct tk; simpl.
    + split; [exact Htk|]. intro H0. specialize (Htk eq_refl). lia.
    + split; [lia | discriminate].
  - unfold on_animation_frame. simpl. destruct fr as [|n]; simpl.
    + split; [exact Htk | exact Hfr].
    + split; [discriminate|]. intros _.
      apply BackToTopFacts.fab_visible_update.
  - split; [discriminate|]. intros _.
    apply BackToTopFacts.fab_visible_update.
Qed.

(** X19: the button is out of date only while an [update] is waiting for
    a frame. From the loaded page, after any sequence of scroll events,
    animation frames and resize events, if no requested callback is left
    to run then the button is visible exactly when the scroll offset of
    the window exceeds 480. *)
Theorem button_settles_with_last_frame :
  forall (evs : list event) (y : Q),
    frames_requested (button (dispatch_all evs (load y))) = 0 ->
    (fab_visible (button (dispatch_all evs (load y))) = true
     <-> (480 < scrollY (dispatch_all evs (load y)))%Q).
Proof.
  intros evs y H0.
  assert (Hinv :
    (ticking (button (dispatch_all evs (load y))) = true ->
     1 <= frames_requested (button (dispatch_all evs (load y)))) /\
    (frames_requested (button (dispatch_all evs (load y))) = 0 ->
     fab_visible (button (dispatch_all evs (load y)))
     = js_gt (scrollY (dispatch_all evs (load y))) threshold)).
  { apply (dispatch_all_invariant
             (fun p =>
                (ticking (button p) = true ->
                 1 <= frames_requested (button p)) /\
                (frames_requested (button p) = 0 ->
                 fab_visible (button p) = js_gt (scrollY p) threshold))
             (fun _ => true)).
    - intros p ev _. apply settled_step.
    - reflexivity.
    - simpl. split; [discriminate|]. intros _.
      apply BackToTopFacts.fab_visible_update. }
  destruct Hinv as [_ Hv]. rewrite (Hv H0).
  apply BackToTopFacts.js_gt_spec.
Qed.

Lemma button_settles_with_last_frame_witness :
  fab_visible
    (button (dispatch_all [Scroll 100; Scroll 600; AnimationFrame] (load 0)))
  = true <->
  (480 < scrollY
           (dispatch_all [Scroll 100; Scroll 600; AnimationFrame] (load 0)))%Q.
Proof.
  apply (button_settles_with_last_frame
           [Scroll 100; Scroll 600; AnimationFrame] 0%Q).
  reflexivity.
Defined.

End BackToTopMoreFacts.

(** ** Theme of the page hero *)

Module HeroFacts.

Import ClassList Hero.

Lemma filter_theme_none (body : ClassList.t) :
  (forall c, is_theme c = true -> contains c body = false) ->
  filter is_theme body = [].
Proof.
  induction body as [|x body IH]; intro H; simpl; [reflexivity|].
  destruct (is_theme x) eqn:E.
  - specialize (H x E). unfold contains in H. simpl in H.
    now rewrite String.eqb_refl in H.
  - apply IH. intros c Hc. specialize (H c Hc).
    unfold contains in *. simpl in H.
    now apply orb_false_iff in H.
Qed.

Lemma filter_theme_add (c : string) (body : ClassList.t) :
  is_theme c = true ->
  (forall d, is_theme d = true -> contains d body = false) ->
  filter is_theme (add c body) = [c].
Proof.
  intros Hc H. unfold add. rewrite (H c Hc).
  rewrite filter_app, (filter_theme_none body H). simpl. now rewrite Hc.
Qed.

Lemma add_add (c : string) (l : ClassList.t) : add c (add c l) = add c l.
Proof.
  unfold add at 1. now rewrite ClassListFacts.contains_add_same.
Qed.

Lemma contains_add_plain (c d : string) (l : ClassList.t) :
  is_theme d = true -> is_theme c = false ->
  contains c (add d l) = contains c l.
Proof.
  intros Hd Hc. apply ClassListFacts.contains_add_other.
  intro Heq. subst d. congruence.
Qed.

(** X20: the theme of the body follows the hero and is exclusive. When
    the body carries no theme class in the markup, the block leaves at
    most one of [red], [blue], [purple] on it, the one of the first
    variant the hero has in that order, [red] whenever the hero has the
    red variant; it leaves every other class of the body as it was; and
    running it again changes nothing. *)
Theorem hero_theme_is_exclusive :
  forall (hero : option ClassList.t) (body : ClassList.t),
    (forall c, is_theme c = true -> contains c body = false) ->
    List.length (filter is_theme (assign_theme hero body)) <= 1 /\
    (forall c, In c (filter is_theme (assign_theme hero body)) ->
       exists h, hero = Some h /\
                 contains (String.append "page-hero--" c) h = true) /\
    (forall h, hero = Some h -> contains "page-hero--red" h = true ->
       filter is_theme (assign_theme hero body) = ["red"%string]) /\
    (forall c, is_theme c = false ->
       contains c (assign_theme hero body) = contains c body) /\
    assign_theme hero (assign_theme hero body) = assign_theme hero body.
Proof.
  intros hero body Hbody.
  pose proof (filter_theme_none body Hbody) as Hnone.
  pose proof (filter_theme_add "red" body eq_refl Hbody) as Hred.
  pose proof (filter_theme_add "blue" body eq_refl Hbody) as Hblue.
  pose proof (filter_theme_add "purple" body eq_refl Hbody) as Hpurple.
  destruct hero as [h|]; simpl.
  2:{ rewrite Hnone. split; [simpl; lia|]. split; [intros c []|].
      split; [discriminate|]. split; reflexivity. }
  destruct (contains "page-hero--red" h) eqn:Er;
    [|destruct (contains "page-hero--blue" h) eqn:Eb;
      [|destruct (contains "page-hero--purple" h) eqn:Ep]].
  - rewrite Hred. split; [simpl; lia|].
    split; [intros c [<-|[]]; exists h; split; [reflexivity | exact Er]|].
    split; [reflexivity|].
    split; [intros c Hc; now apply contains_add_plain | apply add_add].
  - rewrite Hblue. split; [simpl; lia|].
    split; [intros c [<-|[]]; exists h; split; [reflexivity | exact Eb]|].
    split; [intros h' Hh'; injection Hh' as <-; congruence|].
    split; [intros c Hc; now apply contains_add_plain | apply add_add].
  - rewrite Hpurple. split; [simpl; lia|].
    split; [intros c [<-|[]]; exists h; split; [reflexivity | exact Ep]|].
    split; [intros h' Hh'; injection Hh' as <-; congruence|].
    split; [intros c Hc; now apply contains_add_plain | apply add_add].
  - rewrite Hnone. split; [simpl; lia|]. split; [intros c []|].
    split; [intros h' Hh'; injection Hh' as <-; congruence|].
    split; reflexivity.
Qed.

Lemma hero_theme_is_exclusive_witness :
  filter is_theme
    (assign_theme
       (Some ["page-hero"%string; "page-hero--blue"%string;
              "page-hero--red"%string])
       ["home"%string])
  = ["red"%string].
Proof.
  refine (proj1 (proj2 (proj2 (hero_theme_is_exclusive
             (Some ["page-hero"%string; "page-hero--blue"%string;
                    "page-hero--red"%string])
             ["home"%string] _))) _ eq_refl eq_refl).
  intros c Hc. unfold is_theme in Hc. simpl in Hc.
  unfold contains. simpl.
  destruct (String.eqb c "red") eqn:E1;
    [apply String.eqb_eq in E1; now subst c|].
  destruct (String.eqb c "blue") eqn:E2;
    [apply String.eqb_eq in E2; now subst c|].
  destruct (String.eqb c "purple") eqn:E3;
    [apply String.eqb_eq in E3; now subst c|].
  discriminate Hc.
Defined.

End HeroFacts.
